(** * ws-scrcpy [StreamReceiver]: frame decoder and action admission controller

    A shallow embedding of [src/app/client/StreamReceiver.ts] (the revision
    with the awaited authorization round trip): the handshake decoder
    [handleInitialInfo], the frame dispatcher [onSocketMessage] and the
    admission pipeline of [sendEvent] with its helpers [judgeConcurrency],
    [getLastAction], [getLastExecutedAction], [getLastNonConcurrencyAction],
    [sendAction] and [sendActionEvent].

    JavaScript [Map]s and [Set]s keep insertion order and the code iterates
    them, so they are association lists here.  The [actionMap] objects are
    shared between the action log and the [sendEvent] invocation that created
    them, so they live in a heap addressed by allocation index.  An [async]
    function is cut at its [await]s into the pieces the event loop runs
    atomically. *)

From Stdlib Require Import ZArith List String Ascii Bool Lia.
From Stdlib.Strings Require Import Byte.
From stdpp Require Import base list.

Import ListNotations.
Local Open Scope Z_scope.

(** * Part I: the program *)

(** ** Insertion-ordered maps and sets of JavaScript *)

Module JsMap.

(** [Map<number, V>]: entries in insertion order. *)
Definition t (V : Type) := list (Z * V).

Definition clear {V} : t V := [].

Fixpoint get {V} (m : t V) (k : Z) : option V :=
  match m with
  | [] => None
  | (k', v) :: m' => if k' =? k then Some v else get m' k
  end.

(** [Map.prototype.set]: an existing key keeps its place, a new one goes last. *)
Fixpoint set {V} (m : t V) (k : Z) (v : V) : t V :=
  match m with
  | [] => [(k, v)]
  | (k', v') :: m' => if k' =? k then (k, v) :: m' else (k', v') :: set m' k v
  end.

Definition keys {V} (m : t V) : list Z := map fst m.

Definition values {V} (m : t V) : list V := map snd m.

End JsMap.

Module JsSet.

(** [Set<string>] in insertion order. *)
Definition t := list string.

Definition clear : t := [].

Definition has (s : t) (x : string) : bool := existsb (String.eqb x) s.

Definition add (s : t) (x : string) : t := if has s x then s else s ++ [x].

Definition values (s : t) : list string := s.

End JsSet.

(** ** Byte buffers *)

Definition bytes := list byte.

Definition byteZ (b : byte) : Z := Z.of_N (Byte.to_N b).

Module Buffer.

(** Relative index of [Buffer.prototype.slice]: a negative one counts from
    the end, and the result is clamped to the buffer. *)
Definition clampIndex (len i : Z) : Z :=
  if i <? 0 then Z.max (len + i) 0 else Z.min i len.

(** [buf.slice(start, end)]. *)
Definition slice2 (buf : bytes) (start stop : Z) : bytes :=
  let len := Z.of_nat (length buf) in
  let s := clampIndex len start in
  let e := clampIndex len stop in
  let e := if e <? s then s else e in
  firstn (Z.to_nat (e - s)) (skipn (Z.to_nat s) buf).

(** [buf.slice(start)]. *)
Definition slice (buf : bytes) (start : Z) : bytes :=
  slice2 buf start (Z.of_nat (length buf)).

(** Two's complement reading of an unsigned 32-bit value. *)
Definition toInt32 (u : Z) : Z :=
  if Z.testbit u 31 then u - 2 ^ 32 else u.

(** [buf.readInt32BE(0)]: [None] is the [RangeError] of a buffer shorter
    than four bytes. *)
Definition readInt32BE (buf : bytes) : option Z :=
  match buf with
  | b0 :: b1 :: b2 :: b3 :: _ =>
      Some (toInt32 (Z.lor (Z.shiftl (byteZ b0) 24)
                    (Z.lor (Z.shiftl (byteZ b1) 16)
                    (Z.lor (Z.shiftl (byteZ b2) 8) (byteZ b3)))))
  | _ => None
  end.

End Buffer.

(** [Util.stringToUtf8ByteArray] on an ASCII literal. *)
Definition MAGIC_BYTES_INITIAL : bytes := list_byte_of_string "scrcpy_initial".

Definition DEVICE_NAME_FIELD_LENGTH : nat := 64.

Fixpoint dropLeadingZeroes (b : bytes) : bytes :=
  match b with
  | x00 :: b' => dropLeadingZeroes b'
  | _ => b
  end.

(** Modelled from the spec: [Util.filterTrailingZeroes] is not among the
    sources; the handshake layout says of the device name "trailing NULs
    stripped". *)
Definition filterTrailingZeroes (b : bytes) : bytes :=
  rev (dropLeadingZeroes (rev b)).

(** ** What the class imports

    [DisplayInfo], [ScreenInfo], [VideoSettings], [DeviceMessage] and [Util]
    are other modules of the repository.  The receiver only calls them, so
    they are an interface here.  A decoder answers [None] where it throws. *)
Class ExternalTypes := {
  DisplayInfo : Type;
  ScreenInfo : Type;
  VideoSettings : Type;
  DeviceMessage : Type;
  Rect : Type
}.

Class Externals `{ExternalTypes} := {
  displayId : DisplayInfo -> Z;
  contentRect : ScreenInfo -> Rect;
  DisplayInfo_BUFFER_LENGTH : Z;
  DisplayInfo_fromBuffer : bytes -> option DisplayInfo;
  ScreenInfo_fromBuffer : bytes -> option ScreenInfo;
  VideoSettings_fromBuffer : bytes -> option VideoSettings;
  DeviceMessage_fromBuffer : bytes -> option DeviceMessage;
  MAGIC_BYTES_MESSAGE : bytes;
  utf8ByteArrayToString : bytes -> string
}.

(** ** Exceptions and the state monad of the frame handlers *)

Inductive JsError :=
| RangeError   (* typed-array view or [readInt32BE] out of bounds *)
| TypeError    (* property access on [undefined] *)
| DecodeError. (* thrown by an imported decoder *)

(** A statement either completes or throws; the fields written before a
    throw stay written. *)
Inductive Outcome (S A : Type) :=
| Normal (a : A) (s : S)
| Thrown (e : JsError) (s : S).
Arguments Normal {S A} a s.
Arguments Thrown {S A} e s.

Definition M (S A : Type) := S -> Outcome S A.

Definition ret {S A} (a : A) : M S A := fun s => Normal a s.

Definition bind {S A B} (m : M S A) (k : A -> M S B) : M S B :=
  fun s => match m s with
           | Normal a s' => k a s'
           | Thrown e s' => Thrown e s'
           end.

Definition throw {S A} (e : JsError) : M S A := fun s => Thrown e s.

Definition modify {S} (f : S -> S) : M S unit := fun s => Normal tt (f s).

Definition gets {S A} (f : S -> A) : M S A := fun s => Normal (f s) s.

Definition orThrow {S A} (e : JsError) (o : option A) : M S A :=
  match o with
  | Some a => ret a
  | None => throw e
  end.

Declare Scope js_scope.
Delimit Scope js_scope with js.
Notation "'let*' x := m 'in' k" := (bind m (fun x => k))
  (at level 10, x name, m at level 100, k at level 200, only parsing) : js_scope.
Notation "'run' m 'in' k" := (bind m (fun _ => k))
  (at level 10, m at level 100, k at level 200, only parsing) : js_scope.

(** [for (let i = 0; i < n; i++) body], the body threading its locals. *)
Fixpoint forLoop {S A} (n : nat) (body : A -> M S A) (a : A) : M S A :=
  match n with
  | O => ret a
  | S n' => bind (body a) (forLoop n' body)
  end.

Definition stateOf {S A} (o : Outcome S A) : S :=
  match o with
  | Normal _ s => s
  | Thrown _ s => s
  end.

Definition threw {S A} (o : Outcome S A) : bool :=
  match o with
  | Normal _ _ => false
  | Thrown _ _ => true
  end.

(** ** The receiver: session state and emitted events *)

Section Receiver.
Context `{Externals}.

Record DisplayCombinedInfo := {
  dci_displayInfo : DisplayInfo;
  dci_videoSettings : option VideoSettings;
  dci_screenInfo : option ScreenInfo;
  dci_connectionCount : Z
}.

(** [StreamReceiverEvents], one constructor per event name. *)
Inductive Emitted :=
| video (data : bytes)
| deviceMessage (m : DeviceMessage)
| displayInfo (infoArray : list DisplayCombinedInfo)
| clientsStats (clientId : Z) (deviceName : string)
| encoders (names : list string)
| connected
| disconnected.

(** The fields of the class that the frame handlers write, and the log of
    [emit] calls, oldest first. *)
Record Receiver := {
  encodersSet : JsSet.t;
  clientId : Z;
  deviceName : string;
  displayInfoMap : JsMap.t DisplayInfo;
  connectionCountMap : JsMap.t Z;
  screenInfoMap : JsMap.t ScreenInfo;
  videoSettingsMap : JsMap.t VideoSettings;
  hasInitialInfo : bool;
  emitted : list Emitted
}.

Definition with_encodersSet (f : JsSet.t -> JsSet.t) (r : Receiver) : Receiver :=
  {| encodersSet := f (encodersSet r); clientId := clientId r;
     deviceName := deviceName r; displayInfoMap := displayInfoMap r;
     connectionCountMap := connectionCountMap r;
     screenInfoMap := screenInfoMap r; videoSettingsMap := videoSettingsMap r;
     hasInitialInfo := hasInitialInfo r; emitted := emitted r |}.

Definition with_clientId (v : Z) (r : Receiver) : Receiver :=
  {| encodersSet := encodersSet r; clientId := v;
     deviceName := deviceName r; displayInfoMap := displayInfoMap r;
     connectionCountMap := connectionCountMap r;
     screenInfoMap := screenInfoMap r; videoSettingsMap := videoSettingsMap r;
     hasInitialInfo := hasInitialInfo r; emitted := emitted r |}.

Definition with_deviceName (v : string) (r : Receiver) : Receiver :=
  {| encodersSet := encodersSet r; clientId := clientId r;
     deviceName := v; displayInfoMap := displayInfoMap r;
     connectionCountMap := connectionCountMap r;
     screenInfoMap := screenInfoMap r; videoSettingsMap := videoSettingsMap r;
     hasInitialInfo := hasInitialInfo r; emitted := emitted r |}.

Definition with_displayInfoMap
  (f : JsMap.t DisplayInfo -> JsMap.t DisplayInfo) (r : Receiver) : Receiver :=
  {| encodersSet := encodersSet r; clientId := clientId r;
     deviceName := deviceName r; displayInfoMap := f (displayInfoMap r);
     connectionCountMap := connectionCountMap r;
     screenInfoMap := screenInfoMap r; videoSettingsMap := videoSettingsMap r;
     hasInitialInfo := hasInitialInfo r; emitted := emitted r |}.

Definition with_connectionCountMap
  (f : JsMap.t Z -> JsMap.t Z) (r : Receiver) : Receiver :=
  {| encodersSet := encodersSet r; clientId := clientId r;
     deviceName := deviceName r; displayInfoMap := displayInfoMap r;
     connectionCountMap := f (connectionCountMap r);
     screenInfoMap := screenInfoMap r; videoSettingsMap := videoSettingsMap r;
     hasInitialInfo := hasInitialInfo r; emitted := emitted r |}.

Definition with_screenInfoMap
  (f : JsMap.t ScreenInfo -> JsMap.t ScreenInfo) (r : Receiver) : Receiver :=
  {| encodersSet := encodersSet r; clientId := clientId r;
     deviceName := deviceName r; displayInfoMap := displayInfoMap r;
     connectionCountMap := connectionCountMap r;
     screenInfoMap := f (screenInfoMap r); videoSettingsMap := videoSettingsMap r;
     hasInitialInfo := hasInitialInfo r; emitted := emitted r |}.

Definition with_videoSettingsMap
  (f : JsMap.t VideoSettings -> JsMap.t VideoSettings) (r : Receiver) : Receiver :=
  {| encodersSet := encodersSet r; clientId := clientId r;
     deviceName := deviceName r; displayInfoMap := displayInfoMap r;
     connectionCountMap := connectionCountMap r;
     screenInfoMap := screenInfoMap r; videoSettingsMap := f (videoSettingsMap r);
     hasInitialInfo := hasInitialInfo r; emitted := emitted r |}.

Definition with_hasInitialInfo (v : bool) (r : Receiver) : Receiver :=
  {| encodersSet := encodersSet r; clientId := clientId r;
     deviceName := deviceName r; displayInfoMap := displayInfoMap r;
     connectionCountMap := connectionCountMap r;
     screenInfoMap := screenInfoMap r; videoSettingsMap := videoSettingsMap r;
     hasInitialInfo := v; emitted := emitted r |}.

(** [this.emit(name, payload)]. *)
Definition emit (e : Emitted) : M Receiver unit :=
  modify (fun r =>
  {| encodersSet := encodersSet r; clientId := clientId r;
     deviceName := deviceName r; displayInfoMap := displayInfoMap r;
     connectionCountMap := connectionCountMap r;
     screenInfoMap := screenInfoMap r; videoSettingsMap := videoSettingsMap r;
     hasInitialInfo := hasInitialInfo r; emitted := emitted r ++ [e] |}).

(** The constructor's field initialisers. *)
Definition newReceiver : Receiver :=
  {| encodersSet := JsSet.clear; clientId := -1; deviceName := "";
     displayInfoMap := JsMap.clear; connectionCountMap := JsMap.clear;
     screenInfoMap := JsMap.clear; videoSettingsMap := JsMap.clear;
     hasInitialInfo := false; emitted := [] |}.

(** What the spec calls SessionState: every field but the event log. *)
Definition sessionState (r : Receiver) :=
  (displayInfoMap r, connectionCountMap r, screenInfoMap r,
   videoSettingsMap r, encodersSet r, clientId r, deviceName r).

Definition getEncoders (r : Receiver) : list string :=
  JsSet.values (encodersSet r).

(** [this.connectionCountMap.get(displayId) || 0]. *)
Definition connectionCountOr0 (r : Receiver) (id : Z) : Z :=
  match JsMap.get (connectionCountMap r) id with
  | Some n => if n =? 0 then 0 else n
  | None => 0
  end.

Definition combinedInfo (r : Receiver) (entry : Z * DisplayInfo) : DisplayCombinedInfo :=
  let '(id, info) := entry in
  {| dci_displayInfo := info;
     dci_videoSettings := JsMap.get (videoSettingsMap r) id;
     dci_screenInfo := JsMap.get (screenInfoMap r) id;
     dci_connectionCount := connectionCountOr0 r id |}.

Definition infoArray (r : Receiver) : list DisplayCombinedInfo :=
  map (combinedInfo r) (displayInfoMap r).

Definition triggerInitialInfoEvents : M Receiver unit :=
  (let* has := gets hasInitialInfo in
   if has : bool then
     (let* es := gets getEncoders in
      run emit (encoders es) in
      let* id := gets clientId in
      let* name := gets deviceName in
      run emit (clientsStats id name) in
      let* arr := gets infoArray in
      emit (displayInfo arr))
   else ret tt)%js.

(** One turn of the display loop of [handleInitialInfo]; [rest] is the
    loop's only local that survives the turn. *)
Definition displayTurn (rest : bytes) : M Receiver bytes :=
  (let displayInfoBuffer := Buffer.slice2 rest 0 DisplayInfo_BUFFER_LENGTH in
   let* info := orThrow DecodeError (DisplayInfo_fromBuffer displayInfoBuffer) in
   let id := displayId info in
   run modify (with_displayInfoMap (fun m => JsMap.set m id info)) in
   let rest := Buffer.slice rest DisplayInfo_BUFFER_LENGTH in
   let* count := orThrow RangeError (Buffer.readInt32BE rest) in
   run modify (with_connectionCountMap (fun m => JsMap.set m id count)) in
   let rest := Buffer.slice rest 4 in
   let* screenInfoBytesCount := orThrow RangeError (Buffer.readInt32BE rest) in
   let rest := Buffer.slice rest 4 in
   let* rest :=
     (if screenInfoBytesCount =? 0 then ret rest
      else
        let* si := orThrow DecodeError
                     (ScreenInfo_fromBuffer (Buffer.slice2 rest 0 screenInfoBytesCount)) in
        run modify (with_screenInfoMap (fun m => JsMap.set m id si)) in
        ret (Buffer.slice rest screenInfoBytesCount)) in
   let* videoSettingsBytesCount := orThrow RangeError (Buffer.readInt32BE rest) in
   let rest := Buffer.slice rest 4 in
   if videoSettingsBytesCount =? 0 then ret rest
   else
     let* vs := orThrow DecodeError
                  (VideoSettings_fromBuffer (Buffer.slice2 rest 0 videoSettingsBytesCount)) in
     run modify (with_videoSettingsMap (fun m => JsMap.set m id vs)) in
     ret (Buffer.slice rest videoSettingsBytesCount))%js.

(** One turn of the encoder loop. *)
Definition encoderTurn (rest : bytes) : M Receiver bytes :=
  (let* nameLength := orThrow RangeError (Buffer.readInt32BE rest) in
   let rest := Buffer.slice rest 4 in
   let nameBytes := Buffer.slice2 rest 0 nameLength in
   let rest := Buffer.slice rest nameLength in
   let name := utf8ByteArrayToString nameBytes in
   run modify (with_encodersSet (fun s => JsSet.add s name)) in
   ret rest)%js.

(** [new Uint8Array(data, offset, length)]: a [RangeError] when the view
    does not fit the buffer. *)
Definition Uint8Array3 {S} (data : bytes) (offset len : nat) : M S bytes :=
  if (length data <? offset + len)%nat then throw RangeError
  else ret (firstn len (skipn offset data)).

(** [new Uint8Array(data, offset)]. *)
Definition Uint8Array2 {S} (data : bytes) (offset : nat) : M S bytes :=
  if (length data <? offset)%nat then throw RangeError
  else ret (skipn offset data).

Definition handleInitialInfo (data : bytes) : M Receiver unit :=
  (let offset := length MAGIC_BYTES_INITIAL in
   let* nameBytes := Uint8Array3 data offset DEVICE_NAME_FIELD_LENGTH in
   let offset := (offset + DEVICE_NAME_FIELD_LENGTH)%nat in
   let* rest := Uint8Array2 data offset in
   let* displaysCount := orThrow RangeError (Buffer.readInt32BE rest) in
   run modify (with_displayInfoMap (fun _ => JsMap.clear)) in
   run modify (with_connectionCountMap (fun _ => JsMap.clear)) in
   run modify (with_screenInfoMap (fun _ => JsMap.clear)) in
   run modify (with_videoSettingsMap (fun _ => JsMap.clear)) in
   let rest := Buffer.slice rest 4 in
   let* rest := forLoop (Z.to_nat displaysCount) displayTurn rest in
   run modify (with_encodersSet (fun _ => JsSet.clear)) in
   let* encodersCount := orThrow RangeError (Buffer.readInt32BE rest) in
   let rest := Buffer.slice rest 4 in
   let* rest := forLoop (Z.to_nat encodersCount) encoderTurn rest in
   let* id := orThrow RangeError (Buffer.readInt32BE rest) in
   run modify (with_clientId id) in
   let nameBytes := filterTrailingZeroes nameBytes in
   run modify (with_deviceName (utf8ByteArrayToString nameBytes)) in
   run modify (with_hasInitialInfo true) in
   triggerInitialInfoEvents)%js.

(** [a[i] !== b[i]] on array-likes: an index past the end reads [undefined]. *)
Definition strictNe (x y : option byte) : bool :=
  match x, y with
  | Some a, Some b => negb (Byte.eqb a b)
  | None, None => false
  | _, _ => true
  end.

(** The loop of [EqualArrays] from index [i], [todo] turns left. *)
Fixpoint EqualArrays_from (a b : bytes) (i todo : nat) : bool :=
  match todo with
  | O => true
  | S todo' =>
      if strictNe (a !! i) (b !! i) then false
      else EqualArrays_from a b (S i) todo'
  end.

Definition EqualArrays (a b : bytes) : bool :=
  if negb (length a =? length b)%nat then false
  else EqualArrays_from a b 0 (length a).

(** [event.data]: an [ArrayBuffer], or anything else (a text frame). *)
Inductive MessageData :=
| ArrayBuffer (data : bytes)
| OtherData (text : string).

Definition onSocketMessage (d : MessageData) : M Receiver unit :=
  match d with
  | ArrayBuffer data =>
      if (length MAGIC_BYTES_INITIAL <? length data)%nat then
        let magicBytes := firstn (length MAGIC_BYTES_INITIAL) data in
        if EqualArrays magicBytes MAGIC_BYTES_INITIAL then handleInitialInfo data
        else if EqualArrays magicBytes MAGIC_BYTES_MESSAGE then
          (let* message := orThrow DecodeError (DeviceMessage_fromBuffer data) in
           emit (deviceMessage message))%js
        else emit (video data)
      else emit (video data)
  | OtherData _ => ret tt
  end.

End Receiver.

(** ** The admission controller *)

(** A [ControlMessage] as [sendEvent] sees it through [...event]: the [type]
    every message has, and the [action] and [keycode] that key and touch
    messages carry ([None] is a property the object does not have). *)
Module ControlMessage.

Record t := {
  type : Z;
  action : option Z;
  keycode : option Z
}.

End ControlMessage.

(** Android's event constants, which the control messages carry in [type]
    and [action].  They are declared in [ControlMessage.ts], [KeyEvent.ts]
    and [MotionEvent.ts] of the repository, which are not among the sources;
    the values are those of the scrcpy protocol and of the Android API. *)
Module Android.

Definition TYPE_KEYCODE : Z := 0.

Definition TYPE_TOUCH : Z := 2.

Definition TYPE_SCROLL : Z := 3.

Definition KEY_ACTION_DOWN : Z := 0.

Definition KEY_ACTION_UP : Z := 1.

Definition MOTION_ACTION_DOWN : Z := 0.

Definition MOTION_ACTION_UP : Z := 1.

Definition MOTION_ACTION_MOVE : Z := 2.

End Android.

(** The values the fields [action_time] and [action_flag] take: the empty
    string and [false] they are initialised with, and whatever a JSON
    response holds under the two keys.  The class does nothing with them but
    compare them with [==], to a number and to [true], so a string is kept as
    what [StringToNumber] makes of it and an array or object as what
    [ToNumber(ToPrimitive(v))] makes of it: [Some z] when that is the
    integer [z] (the strings "2000" and " 2e3 ", the array [[2000]]), [None]
    when it is [NaN], infinite or has a fraction ("abc", "1.5", "1e999",
    [{}], [[1, 2]]). *)
Inductive JsVal :=
| JsUndefined
| JsBool (b : bool)
| JsNumber (n : Z)
| JsEmptyString
| JsNull
| JsFraction                      (* a number that is no integer: 1.5, 1e999 *)
| JsString (number : option Z)    (* a string that is not empty *)
| JsObject (number : option Z).   (* an array or an object *)

(** [ToNumber] on these values, through [ToPrimitive] for an array or an
    object; [None] is [NaN] or a number that is no integer. *)
Definition toNumber (v : JsVal) : option Z :=
  match v with
  | JsUndefined => None
  | JsBool b => Some (if b then 1 else 0)
  | JsNumber n => Some n
  | JsEmptyString => Some 0
  | JsNull => Some 0
  | JsFraction => None
  | JsString number => number
  | JsObject number => number
  end.

(** [v == n] for a number [n]: [undefined] and [null] equal no number, every
    other value is compared through [toNumber]. *)
Definition looseEqNumber (v : JsVal) (n : Z) : bool :=
  match v with
  | JsUndefined => false
  | JsNull => false
  | _ => match toNumber v with
         | Some m => m =? n
         | None => false
         end
  end.

(** [v == true], which [==] turns into [v == 1]. *)
Definition looseEqTrue (v : JsVal) : bool := looseEqNumber v 1.

(** The answer to one [fetch] of [sendAction]: a body that parsed as a JSON
    object, with what it holds under [action_flag] and [action_time], or a
    rejected promise (network failure, a body that is not JSON, [null]). *)
Inductive Response :=
| ResponseJson (action_flag action_time : JsVal)
| ResponseRejected.

(** [action_json], the plain object [sendEvent] builds. *)
Module ActionJson.

Record t `{ExternalTypes} := {
  action_time : Z;
  type : Z;
  action : option Z;
  keycode : option Z;
  contentRect : option Rect;
  device_name : string
}.

End ActionJson.

(** [actionMap]: the entries of [action_json] and, once set, [executed]. *)
Module ActionMap.

Record t `{ExternalTypes} := {
  entries : ActionJson.t;
  executed : option bool
}.

Definition setExecuted `{ExternalTypes} (b : bool) (m : t) : t :=
  {| entries := entries m; executed := Some b |}.

End ActionMap.

(** A computation that reads the log: a value, an exception, or a loop
    that does not end. *)
Inductive Res (A : Type) :=
| Val (a : A)
| Throws (e : JsError)
| Loops.
Arguments Val {A} a.
Arguments Throws {A} e.
Arguments Loops {A}.

Section Admission.
Context `{Externals}.

(** The fields of the class that [sendEvent] and its helpers use.
    [actionMaps] holds references into [heap], where the [actionMap] objects
    live; [wsOpen] is [this.ws && this.ws.readyState === this.ws.OPEN]. *)
Record Controller := {
  heap : list ActionMap.t;
  actionMaps : JsMap.t nat;
  action_time : JsVal;
  action_flag : JsVal;
  wsOpen : bool;
  events : list ControlMessage.t
}.

Definition newController : Controller :=
  {| heap := []; actionMaps := JsMap.clear;
     action_time := JsEmptyString; action_flag := JsBool false;
     wsOpen := false; events := [] |}.

(** What leaves the class: socket writes, requests to the authorization
    service, timers. *)
Inductive Effect :=
| ws_send (event : ControlMessage.t)
| fetch_sendAction (action_json : ActionJson.t) (concurrency : bool)
| fetch_sendActionConcurrency (action_json : ActionJson.t) (concurrency : bool)
| setTimeout (ms : Z).

(** The locals a parked [sendEvent] needs when it goes on: the reference
    [self] to its [actionMap], [event] and [action_json]. *)
Record Locals := {
  self : nat;
  event : ControlMessage.t;
  action_json : ActionJson.t
}.

(** How a piece of [sendEvent] ends: the invocation returned, threw, is
    parked at [await new Promise(resolve => setTimeout(resolve, 100))] or at
    [await this.sendAction(action_json, false)], or spins in a loop. *)
Inductive Completion :=
| Returned
| Threw (e : JsError)
| AwaitTimer (k : Locals)
| AwaitAuthorization (k : Locals)
| Diverged.

Record Step := {
  world : Controller;
  effects : list Effect;
  completion : Completion
}.

Definition with_heap (f : list ActionMap.t -> list ActionMap.t) (w : Controller) :=
  {| heap := f (heap w); actionMaps := actionMaps w;
     action_time := action_time w; action_flag := action_flag w;
     wsOpen := wsOpen w; events := events w |}.

Definition with_actionMaps (f : JsMap.t nat -> JsMap.t nat) (w : Controller) :=
  {| heap := heap w; actionMaps := f (actionMaps w);
     action_time := action_time w; action_flag := action_flag w;
     wsOpen := wsOpen w; events := events w |}.

Definition with_events (f : list ControlMessage.t -> list ControlMessage.t)
  (w : Controller) :=
  {| heap := heap w; actionMaps := actionMaps w;
     action_time := action_time w; action_flag := action_flag w;
     wsOpen := wsOpen w; events := f (events w) |}.

Definition with_response (flag time : JsVal) (w : Controller) :=
  {| heap := heap w; actionMaps := actionMaps w;
     action_time := time; action_flag := flag;
     wsOpen := wsOpen w; events := events w |}.

(** [array.includes(x)] on numbers, [x] possibly [undefined]. *)
Definition includes (l : list Z) (x : option Z) : bool :=
  match x with
  | Some n => existsb (Z.eqb n) l
  | None => false
  end.

(** [x == n]. *)
Definition eqNum (x : option Z) (n : Z) : bool :=
  match x with
  | Some m => m =? n
  | None => false
  end.

(** The [for ... of this.actionMaps.keys()] loop of [getLastAction]. *)
Fixpoint lastKeyBefore (keys : list Z) (current_action_time lastKey : Z) : Z :=
  match keys with
  | [] => lastKey
  | key :: keys' =>
      if key =? current_action_time then lastKey
      else lastKeyBefore keys' current_action_time key
  end.

(** [this.actionMaps.get(key)] followed to the object. *)
Definition lookupAction (w : Controller) (key : Z) : option ActionMap.t :=
  match JsMap.get (actionMaps w) key with
  | Some ref => heap w !! ref
  | None => None
  end.

(** [None] is [undefined]. *)
Definition getLastAction (w : Controller) (actionMap : ActionMap.t)
  : option ActionMap.t :=
  let current_action_time := ActionJson.action_time (ActionMap.entries actionMap) in
  let lastKey := lastKeyBefore (JsMap.keys (actionMaps w)) current_action_time 0 in
  lookupAction w lastKey.

(** [this.actionMaps.get(key).get('executed')] as a condition. *)
Definition executedTruthy (o : option ActionMap.t) : bool :=
  match o with
  | Some m => match ActionMap.executed m with
              | Some true => true
              | _ => false
              end
  | None => false
  end.

Fixpoint lastExecutedKeyBefore (w : Controller) (keys : list Z)
  (current_action_time lastExecutedKey : Z) : Z :=
  match keys with
  | [] => lastExecutedKey
  | key :: keys' =>
      if key =? current_action_time then lastExecutedKey
      else lastExecutedKeyBefore w keys' current_action_time
             (if executedTruthy (lookupAction w key) then key else lastExecutedKey)
  end.

Definition getLastExecutedAction (w : Controller) (actionMap : ActionMap.t)
  : option ActionMap.t :=
  let current_action_time := ActionJson.action_time (ActionMap.entries actionMap) in
  let lastExecutedKey :=
    lastExecutedKeyBefore w (JsMap.keys (actionMaps w)) current_action_time 0 in
  lookupAction w lastExecutedKey.

Definition nonConcurrentType : list Z := [1; 4; 5; 6; 7; 8; 9; 10; 11; 101; 102].

Definition nonConcurrentKeyCode : list Z := [3; 4; 24; 25; 26; 187].

(** [judgeConcurrency(actionMap)]; the argument is [None] when the caller
    passes [undefined]. *)
Definition judgeConcurrency (w : Controller) (actionMap : option ActionMap.t)
  : Res bool :=
  match actionMap with
  | None => Throws TypeError
  | Some m =>
      let a := ActionMap.entries m in
      let actionType := ActionJson.type a in
      if existsb (Z.eqb actionType) nonConcurrentType then Val false
      else if actionType =? 0 then
        if eqNum (ActionJson.action a) 1 then Val true
        else if includes nonConcurrentKeyCode (ActionJson.keycode a) then Val false
        else
          match getLastAction w m with
          | None => Throws TypeError
          | Some lastAction =>
              let la := ActionMap.entries lastAction in
              if (ActionJson.type la =? 0) && eqNum (ActionJson.action la) 0
              then Val true else Val false
          end
      else
        let scrollOrOther :=
          if actionType =? 3 then
            match getLastAction w m with
            | None => Throws TypeError
            | Some lastAction =>
                if ActionJson.type (ActionMap.entries lastAction) =? 3
                then Val true else Val false
            end
          else Val false in
        if actionType =? 2 then
          if eqNum (ActionJson.action a) 0 then Val false
          else if eqNum (ActionJson.action a) 1 then Val true
          else if eqNum (ActionJson.action a) 2 then Val true
          else scrollOrOther
        else scrollOrOther
  end.

(** The [while] loop of [getLastNonConcurrencyAction], at most [fuel] tests
    of its condition. *)
Fixpoint walkBack (fuel : nat) (w : Controller) (lastAction : option ActionMap.t)
  : Res (option ActionMap.t) :=
  match fuel with
  | O => Loops
  | S fuel' =>
      match judgeConcurrency w lastAction with
      | Val true =>
          match lastAction with
          | Some m => walkBack fuel' w (getLastAction w m)
          | None => Throws TypeError
          end
      | Val false => Val lastAction
      | Throws e => Throws e
      | Loops => Loops
      end
  end.

(** The walk goes to an earlier record at each turn unless a lookup falls
    back on key 0, so more turns than there are records means it cycles. *)
Definition getLastNonConcurrencyAction (w : Controller) (actionMap : ActionMap.t)
  : Res (option ActionMap.t) :=
  walkBack (S (length (actionMaps w))) w (getLastAction w actionMap).

(** [sendActionEvent]: write to the open socket, or queue for replay. *)
Definition sendActionEvent (w : Controller) (event : ControlMessage.t)
  : Controller * list Effect :=
  if wsOpen w then (w, [ws_send event])
  else (with_events (fun q => q ++ [event]) w, []).

(** [actionMap.set('executed', b)] on the object at [self]. *)
Definition setExecuted (self : nat) (b : bool) (w : Controller) : Controller :=
  with_heap (alter (ActionMap.setExecuted b) self) w.

(** The first entry of [screenInfoMap], as the [for ... break] loop at the
    head of [sendEvent] takes it. *)
Definition firstContentRect (r : Receiver) : option Rect :=
  match screenInfoMap r with
  | [] => None
  | (_, value) :: _ => Some (contentRect value)
  end.

Definition make_action_json (r : Receiver) (event : ControlMessage.t)
  (currentTime : Z) : ActionJson.t :=
  {| ActionJson.action_time := currentTime;
     ActionJson.type := ControlMessage.type event;
     ActionJson.action := ControlMessage.action event;
     ActionJson.keycode := ControlMessage.keycode event;
     ActionJson.contentRect := firstContentRect r;
     ActionJson.device_name := deviceName r |}.

Definition newActionMap (action_json : ActionJson.t) : ActionMap.t :=
  {| ActionMap.entries := action_json; ActionMap.executed := None |}.

Definition sideEffectFree : list Z := [4; 8; 9; 10; 101; 102].

(** [this.actionMaps.set(currentTime, actionMap)], the new object taking
    the next free place of the heap. *)
Definition logAction (w : Controller) (actionMap : ActionMap.t) (currentTime : Z)
  : Controller :=
  with_actionMaps (fun m => JsMap.set m currentTime (length (heap w)))
    (with_heap (fun h => h ++ [actionMap]) w).

(** The tail of the concurrent branch, from
    [if (this.getLastAction(actionMap).get('executed'))] on. *)
Definition concurrentVerdict (w : Controller) (k : Locals) : Step :=
  match getLastAction w (newActionMap (action_json k)) with
  | None => {| world := w; effects := []; completion := Threw TypeError |}
  | Some lastAction =>
      if executedTruthy (Some lastAction) then
        let '(w1, sent) := sendActionEvent w (event k) in
        {| world := setExecuted (self k) true w1;
           effects := sent ++ [fetch_sendActionConcurrency (action_json k) true];
           completion := Returned |}
      else
        {| world := setExecuted (self k) false w;
           effects := [];
           completion := Returned |}
  end.

(** [sendEvent(event)] from its first statement to its first [await], or to
    its end if it reaches none; [currentTime] is what [Date.now()] answers. *)
Definition sendEvent (r : Receiver) (w : Controller) (event : ControlMessage.t)
  (currentTime : Z) : Step :=
  let action_json := make_action_json r event currentTime in
  let actionMap := newActionMap action_json in
  let self := length (heap w) in
  let k := {| self := self; event := event; action_json := action_json |} in
  let w := logAction w actionMap currentTime in
  if existsb (Z.eqb (ActionJson.type action_json)) sideEffectFree then
    let '(w1, sent) := sendActionEvent w event in
    {| world := setExecuted self true w1;
       effects := sent ++ [fetch_sendAction action_json false];
       completion := Returned |}
  else
    match judgeConcurrency w (Some actionMap) with
    | Throws e => {| world := w; effects := []; completion := Threw e |}
    | Loops => {| world := w; effects := []; completion := Diverged |}
    | Val true =>
        match getLastNonConcurrencyAction w actionMap with
        | Throws e => {| world := w; effects := []; completion := Threw e |}
        | Loops => {| world := w; effects := []; completion := Diverged |}
        | Val lastNonConcurrencyAction =>
            match getLastAction w actionMap with
            | None => {| world := w; effects := []; completion := Threw TypeError |}
            | Some lastAction =>
                match ActionMap.executed lastAction with
                | Some _ => concurrentVerdict w k
                | None =>
                    {| world := w; effects := [setTimeout 100];
                       completion := AwaitTimer k |}
                end
            end
        end
    | Val false =>
        match getLastExecutedAction w actionMap with
        | None => {| world := w; effects := []; completion := Threw TypeError |}
        | Some lastExecutedAction =>
            if currentTime
               - ActionJson.action_time (ActionMap.entries lastExecutedAction) >? 500
            then
              {| world := w; effects := [fetch_sendAction action_json false];
                 completion := AwaitAuthorization k |}
            else {| world := w; effects := []; completion := Returned |}
        end
    end.

(** [lastAction.has('executed')]. *)
Definition hasExecuted (m : ActionMap.t) : bool :=
  match ActionMap.executed m with
  | Some _ => true
  | None => false
  end.

(** The poll loop after its timer fired: from the statement after the
    [await] to the next [await] or to the end; [now] is [Date.now()]. *)
Definition afterTimeout (w : Controller) (k : Locals) (now : Z) : Step :=
  match getLastAction w (newActionMap (action_json k)) with
  | None => {| world := w; effects := []; completion := Threw TypeError |}
  | Some lastAction =>
      let executed := hasExecuted lastAction in
      if now - ActionJson.action_time (action_json k) >? 3000
      then concurrentVerdict w k
      else if executed then concurrentVerdict w k
      else {| world := w; effects := [setTimeout 100];
              completion := AwaitTimer k |}
  end.

(** The two callbacks on the promise of [fetch] in [sendAction]: [then]
    stores the answer, [catch] logs. *)
Definition sendAction_settled (w : Controller) (resp : Response) : Controller :=
  match resp with
  | ResponseJson flag time => with_response flag time w
  | ResponseRejected => w
  end.

(** The callbacks of [sendActionConcurrency] only log. *)
Definition sendActionConcurrency_settled (w : Controller) (resp : Response)
  : Controller := w.

(** The non-concurrent branch after [await this.sendAction(...)]. *)
Definition afterAuthorization (w : Controller) (k : Locals) : Step :=
  if looseEqNumber (action_time w) (ActionJson.action_time (action_json k)) then
    if looseEqTrue (action_flag w) then
      let '(w1, sent) := sendActionEvent w (event k) in
      {| world := setExecuted (self k) true w1; effects := sent;
         completion := Returned |}
    else
      {| world := setExecuted (self k) false w; effects := [];
         completion := Returned |}
  else
    {| world := setExecuted (self k) false w; effects := [];
       completion := Returned |}.

(** The awaited [fetch] settles: its callbacks run, then [sendAction]
    returns and the parked [sendEvent] goes on, with no other task in
    between. *)
Definition onAuthorizationSettled (w : Controller) (k : Locals) (resp : Response)
  : Step :=
  afterAuthorization (sendAction_settled w resp) k.

(** ** The event loop

    The pieces above are what JavaScript runs without interruption.  A
    machine is the controller and the [sendEvent] invocations parked at an
    [await]; a task is one thing the event loop runs next. *)

Inductive Await :=
| OnTimer     (* [await new Promise(resolve => setTimeout(resolve, 100))] *)
| OnRequest.  (* [await this.sendAction(action_json, false)] *)

Record Machine := {
  controller : Controller;
  parked : list (Await * Locals)
}.

Inductive Task :=
| callSendEvent (r : Receiver) (event : ControlMessage.t) (now : Z)
| replayQueued (r : Receiver) (now : Z)
| timerFires (i : nat) (now : Z)
| requestSettles (i : nat) (resp : Response)
| unawaitedRequestSettles (resp : Response)
| socketChanges (open : bool).

Definition parkedBy (c : Completion) : list (Await * Locals) :=
  match c with
  | AwaitTimer k => [(OnTimer, k)]
  | AwaitAuthorization k => [(OnRequest, k)]
  | _ => []
  end.

Definition with_wsOpen (b : bool) (w : Controller) : Controller :=
  {| heap := heap w; actionMaps := actionMaps w;
     action_time := action_time w; action_flag := action_flag w;
     wsOpen := b; events := events w |}.

(** One task: a call of [sendEvent]; one turn of the replay loop of
    [onSocketOpen] ([this.events.shift()], then [sendEvent]); the timer of
    the [i]-th parked invocation; the awaited request of the [i]-th parked
    invocation; the request of a [sendAction] that nobody awaits; the socket
    opening or closing.  A task that names no parked invocation of the right
    kind does nothing. *)
Definition runTask (m : Machine) (t : Task) : Machine * list Effect :=
  match t with
  | callSendEvent r event now =>
      let s := sendEvent r (controller m) event now in
      ({| controller := world s;
          parked := parked m ++ parkedBy (completion s) |}, effects s)
  | replayQueued r now =>
      match events (controller m) with
      | [] => (m, [])
      | e :: queue =>
          let s := sendEvent r (with_events (fun _ => queue) (controller m)) e now in
          ({| controller := world s;
              parked := parked m ++ parkedBy (completion s) |}, effects s)
      end
  | timerFires i now =>
      match parked m !! i with
      | Some (OnTimer, k) =>
          let s := afterTimeout (controller m) k now in
          ({| controller := world s;
              parked := delete i (parked m) ++ parkedBy (completion s) |},
           effects s)
      | _ => (m, [])
      end
  | requestSettles i resp =>
      match parked m !! i with
      | Some (OnRequest, k) =>
          let s := onAuthorizationSettled (controller m) k resp in
          ({| controller := world s;
              parked := delete i (parked m) ++ parkedBy (completion s) |},
           effects s)
      | _ => (m, [])
      end
  | unawaitedRequestSettles resp =>
      ({| controller := sendAction_settled (controller m) resp;
          parked := parked m |}, [])
  | socketChanges b =>
      ({| controller := with_wsOpen b (controller m); parked := parked m |}, [])
  end.

(** The machine after a list of tasks, in order. *)
Definition runTasks (m : Machine) (ts : list Task) : Machine :=
  fold_left (fun m t => fst (runTask m t)) ts m.

Definition newMachine : Machine :=
  {| controller := newController; parked := [] |}.

End Admission.


(** ** The rest of the class: getters, socket lifecycle, replay *)

Section Lifecycle.
Context `{Externals}.

(** [getDeviceName()]. *)
Definition getDeviceName (r : Receiver) : string := deviceName r.

(** [getDisplayInfo(displayId)]; [None] is [undefined]. *)
Definition getDisplayInfo (r : Receiver) (id : Z) : option DisplayInfo :=
  JsMap.get (displayInfoMap r) id.

(** [onSocketClose(ev)]. *)
Definition onSocketClose : M Receiver unit := emit disconnected.

(** [stop()]: the socket is closed if it is open, which leaves it not open,
    and the replay queue is emptied.  The boolean tells whether
    [this.ws.close()] was called. *)
Definition stop (w : Controller) : Controller * bool :=
  if wsOpen w then (with_events (fun _ => []) (with_wsOpen false w), true)
  else (with_events (fun _ => []) w, false).

(** The loop of [onSocketOpen], at most [fuel] tests of its condition:
    [this.events.shift()], then [this.sendEvent(e)], which is not awaited and
    so runs to its first [await] and parks there; an exception inside it
    rejects its promise and does not reach the loop.  [clock i] is what
    [Date.now()] answers to the [i]-th call.  [None]: the loop does not end
    within [fuel] turns, or a call of [sendEvent] spins. *)
Fixpoint replayLoop (fuel : nat) (r : Receiver) (m : Machine) (clock : nat -> Z)
  : option (Machine * list Effect) :=
  match fuel with
  | O => None
  | S fuel' =>
      match events (controller m) with
      | [] => Some (m, [])
      | e :: queue =>
          let s := sendEvent r (with_events (fun _ => queue) (controller m)) e
                     (clock O) in
          match completion s with
          | Diverged => None
          | c =>
              let m1 := {| controller := world s;
                           parked := parked m ++ parkedBy c |} in
              match replayLoop fuel' r m1 (fun i => clock (S i)) with
              | Some (m2, later) => Some (m2, effects s ++ later)
              | None => None
              end
          end
      end
  end.

(** [onSocketOpen()]: raise [connected], then replay the queue. *)
Definition onSocketOpen (fuel : nat) (r : Receiver) (m : Machine)
  (clock : nat -> Z) : option (Receiver * Machine * list Effect) :=
  let r1 := stateOf (emit connected r) in
  match replayLoop fuel r1 m clock with
  | Some (m', sent) => Some (r1, m', sent)
  | None => None
  end.

End Lifecycle.

(** ** The revision with the synchronous [sendEvent]

    [src/app/client/StreamReceiver.ts] as it stands in the repository
    differs from the revision above in [sendEvent] and [sendAction] only:
    nothing is awaited, the answers of the service are not stored (the
    fields [action_time] and [action_flag] do not exist and stay as they are
    here), the concurrent branch reports through [sendAction] with
    [concurrency] true, and the spacing is 3000 ms. *)
Module Synchronous.
Section Synchronous.
Context `{Externals}.

Definition sendEvent (r : Receiver) (w : Controller) (event : ControlMessage.t)
  (currentTime : Z) : Step :=
  let action_json := make_action_json r event currentTime in
  let actionMap := newActionMap action_json in
  let self := length (heap w) in
  let w := logAction w actionMap currentTime in
  if existsb (Z.eqb (ActionJson.type action_json)) sideEffectFree then
    let '(w1, sent) := sendActionEvent w event in
    {| world := setExecuted self true w1;
       effects := sent ++ [fetch_sendAction action_json false];
       completion := Returned |}
  else
    match judgeConcurrency w (Some actionMap) with
    | Throws e => {| world := w; effects := []; completion := Threw e |}
    | Loops => {| world := w; effects := []; completion := Diverged |}
    | Val true =>
        match getLastAction w actionMap with
        | None => {| world := w; effects := []; completion := Threw TypeError |}
        | Some lastAction =>
            if executedTruthy (Some lastAction) then
              let '(w1, sent) := sendActionEvent w event in
              {| world := setExecuted self true w1;
                 effects := sent ++ [fetch_sendAction action_json true];
                 completion := Returned |}
            else
              {| world := setExecuted self false w; effects := [];
                 completion := Returned |}
        end
    | Val false =>
        match getLastExecutedAction w actionMap with
        | None => {| world := w; effects := []; completion := Threw TypeError |}
        | Some lastExecutedAction =>
            if currentTime
               - ActionJson.action_time (ActionMap.entries lastExecutedAction)
               >? 3000
            then
              let '(w1, sent) := sendActionEvent w event in
              {| world := setExecuted self true w1;
                 effects := sent ++ [fetch_sendAction action_json false];
                 completion := Returned |}
            else {| world := w; effects := []; completion := Returned |}
        end
    end.

(** The callbacks of this revision's [sendAction] store nothing. *)
Definition sendAction_settled (w : Controller) (resp : Response) : Controller := w.

(** The loop of [onSocketOpen]: here each [sendEvent] runs to its end, and
    an exception it throws leaves the loop, the rest of the queue staying
    queued; the third component is that exception. *)
Fixpoint replayLoop (fuel : nat) (r : Receiver) (w : Controller) (clock : nat -> Z)
  : option (Controller * list Effect * option JsError) :=
  match fuel with
  | O => None
  | S fuel' =>
      match events w with
      | [] => Some (w, [], None)
      | e :: queue =>
          let s := sendEvent r (with_events (fun _ => queue) w) e (clock O) in
          match completion s with
          | Diverged => None
          | Threw err => Some (world s, effects s, Some err)
          | _ =>
              match replayLoop fuel' r (world s) (fun i => clock (S i)) with
              | Some (w2, later, err) => Some (w2, effects s ++ later, err)
              | None => None
              end
          end
      end
  end.

End Synchronous.
End Synchronous.
(** ** A stand-in for the imported codecs, to run the model on frames

    The display, screen and video records stay the raw bytes they were cut
    from; a display record is the 24 bytes of six 32-bit fields, the first
    of which is the display id. *)
Module Sample.

#[export] Instance types : ExternalTypes := {|
  DisplayInfo := bytes;
  ScreenInfo := bytes;
  VideoSettings := bytes;
  DeviceMessage := bytes;
  Rect := bytes
|}.

#[export] Instance codecs : Externals := {|
  displayId := fun b => default 0 (Buffer.readInt32BE b);
  contentRect := firstn 16;
  DisplayInfo_BUFFER_LENGTH := 24;
  DisplayInfo_fromBuffer := fun b => if (length b <? 24)%nat then None else Some b;
  ScreenInfo_fromBuffer := Some;
  VideoSettings_fromBuffer := Some;
  DeviceMessage_fromBuffer := Some;
  MAGIC_BYTES_MESSAGE := list_byte_of_string "scrcpy_message";
  utf8ByteArrayToString := string_of_list_byte
|}.

(** Four bytes, big endian, of a small non-negative number. *)
Definition int32 (n : N) : bytes :=
  match Byte.of_N n with
  | Some b => [x00; x00; x00; b]
  | None => [x00; x00; x00; x00]
  end.

Definition displayRecord (id : N) : bytes := int32 id ++ repeat x00 20.

Definition nameField : bytes :=
  list_byte_of_string "Pixel" ++ repeat x00 59.

(** A handshake with one display (id 0, one connection, no screen info, no
    video settings), the encoder "h264" and client id 7. *)
Definition goodFrame : bytes :=
  MAGIC_BYTES_INITIAL ++ nameField ++ int32 1
  ++ displayRecord 0 ++ int32 1 ++ int32 0 ++ int32 0
  ++ int32 1 ++ int32 4 ++ list_byte_of_string "h264"
  ++ int32 7.

(** A handshake cut short after a display count of zero: the encoder count
    is missing. *)
Definition truncatedFrame : bytes :=
  MAGIC_BYTES_INITIAL ++ nameField ++ int32 0.

(** The receiver after [goodFrame]. *)
Definition connectedReceiver : Receiver :=
  Eval vm_compute in stateOf (handleInitialInfo goodFrame newReceiver).

Definition openController : Controller :=
  {| heap := []; actionMaps := JsMap.clear;
     action_time := JsEmptyString; action_flag := JsBool false;
     wsOpen := true; events := [] |}.

(** A "back or screen on" command (type 4), a touch down, a touch move, and
    key presses and releases. *)
Definition backOrScreenOn : ControlMessage.t :=
  {| ControlMessage.type := 4; ControlMessage.action := None;
     ControlMessage.keycode := None |}.

Definition touch (action : Z) : ControlMessage.t :=
  {| ControlMessage.type := Android.TYPE_TOUCH;
     ControlMessage.action := Some action;
     ControlMessage.keycode := None |}.

Definition key (action keycode : Z) : ControlMessage.t :=
  {| ControlMessage.type := Android.TYPE_KEYCODE;
     ControlMessage.action := Some action;
     ControlMessage.keycode := Some keycode |}.

Definition KEYCODE_HOME : Z := 3.

Definition KEYCODE_A : Z := 29.

(** The log after one fast-path command at time 1000. *)
Definition afterFirst : Step :=
  Eval vm_compute in sendEvent connectedReceiver openController backOrScreenOn 1000.

(** The record of an event as [sendEvent] logs it at time [now]. *)
Definition recordOf (event : ControlMessage.t) (now : Z) : ActionMap.t :=
  newActionMap (make_action_json connectedReceiver event now).

(** The controller once [event] is logged at [now] after the first command. *)
Definition secondLogged (event : ControlMessage.t) (now : Z) : Controller :=
  logAction (world afterFirst) (recordOf event now) now.

(** A key press logged just after another key press. *)
Definition twoKeyPresses : Controller :=
  logAction
    (logAction (world afterFirst)
       (recordOf (key Android.KEY_ACTION_DOWN KEYCODE_A) 2000) 2000)
    (recordOf (key Android.KEY_ACTION_DOWN KEYCODE_A) 2010) 2010.

(** Two commands submitted in one millisecond, time 2000, after the first
    command: a fast-path one, then a touch down, which parks at its
    authorization request. *)
Definition fastAt2000 : Step :=
  sendEvent connectedReceiver (world afterFirst) backOrScreenOn 2000.

Definition downAt2000 : Step :=
  sendEvent connectedReceiver (world fastAt2000)
    (touch Android.MOTION_ACTION_DOWN) 2000.

Definition downLocals : Locals :=
  {| self := 2; event := touch Android.MOTION_ACTION_DOWN;
     action_json :=
       make_action_json connectedReceiver (touch Android.MOTION_ACTION_DOWN) 2000 |}.

(** The service allows the fast-path command, echoing its time 2000; then
    the request of the touch down is rejected. *)
Definition downAfterRejection : Step :=
  onAuthorizationSettled
    (sendAction_settled (world downAt2000)
       (ResponseJson (JsBool true) (JsNumber 2000)))
    downLocals ResponseRejected.

(** Tasks for the event loop: the first command, then a touch down 200 ms
    later, then the answer to the first command's request. *)
Definition firstTasks : list Task :=
  [socketChanges true; callSendEvent connectedReceiver backOrScreenOn 1000].

Definition laterTasks : list Task :=
  [callSendEvent connectedReceiver (touch Android.MOTION_ACTION_DOWN) 1200;
   unawaitedRequestSettles (ResponseJson (JsBool true) (JsNumber 1000));
   callSendEvent connectedReceiver (touch Android.MOTION_ACTION_MOVE) 1210;
   timerFires 0 1310].

(** A log whose only record was never resolved: the first command of the
    session was a touch down, and [sendEvent] threw. *)
Definition afterThrow : Step :=
  Eval vm_compute in
    sendEvent connectedReceiver openController (touch Android.MOTION_ACTION_DOWN) 1000.

End Sample.


(** ** Vocabulary of the statements about the frame handlers *)

Section ReceiverVocabulary.
Context `{Externals}.

(** A triple for a statement [m]: from a state in [P] it completes in [Q]
    or throws in [E]. *)
Definition hoare {A} (P : Receiver -> Prop) (m : M Receiver A)
  (Q : A -> Receiver -> Prop) (E : JsError -> Receiver -> Prop) : Prop :=
  forall r, P r ->
    match m r with
    | Normal a s => Q a s
    | Thrown e s => E e s
    end.

(** The fields that the handshake assigns only after its last read, and the
    event log, are those of [r]. *)
Definition identityKept (r s : Receiver) : Prop :=
  clientId s = clientId r /\ deviceName s = deviceName r
  /\ hasInitialInfo s = hasInitialInfo r /\ emitted s = emitted r.

(** The first [k] session fields, in the order [handleInitialInfo] writes
    them, are the same in the two states. *)
Definition agree (k : nat) (r1 r2 : Receiver) : Prop :=
  ((1 <= k)%nat -> displayInfoMap r1 = displayInfoMap r2)
  /\ ((2 <= k)%nat -> connectionCountMap r1 = connectionCountMap r2)
  /\ ((3 <= k)%nat -> screenInfoMap r1 = screenInfoMap r2)
  /\ ((4 <= k)%nat -> videoSettingsMap r1 = videoSettingsMap r2)
  /\ ((5 <= k)%nat -> encodersSet r1 = encodersSet r2)
  /\ ((6 <= k)%nat -> clientId r1 = clientId r2)
  /\ ((7 <= k)%nat -> deviceName r1 = deviceName r2)
  /\ ((8 <= k)%nat -> hasInitialInfo r1 = hasInitialInfo r2).

(** Run from two states related by [P], the statement completes in both
    with one result and states related by [Q], or throws the same error in
    both. *)
Definition alike {A} (P Q : Receiver -> Receiver -> Prop) (m : M Receiver A)
  : Prop :=
  forall r1 r2, P r1 r2 ->
    match m r1, m r2 with
    | Normal a s1, Normal b s2 => a = b /\ Q s1 s2
    | Thrown e1 _, Thrown e2 _ => e1 = e2
    | _, _ => False
    end.

(** A statement that keeps an invariant whatever its outcome. *)
Definition keeps {A} (I : Receiver -> Prop) (m : M Receiver A) : Prop :=
  hoare I m (fun _ => I) (fun _ => I).

(** After its last read, [handleInitialInfo] assigns three fields and
    raises the events; nothing there throws. *)
Definition handshakeTail (id : Z) (nameBytes : bytes) : M Receiver unit :=
  bind (modify (with_clientId id)) (fun _ =>
  bind (modify (with_deviceName (utf8ByteArrayToString (filterTrailingZeroes nameBytes))))
    (fun _ =>
  bind (modify (with_hasInitialInfo true)) (fun _ => triggerInitialInfoEvents))).

(** The three lifecycle events, as [triggerInitialInfoEvents] derives them
    from the state. *)
Definition lifecycleEvents (r : Receiver) : list Emitted :=
  [encoders (getEncoders r); clientsStats (clientId r) (deviceName r);
   displayInfo (infoArray r)].

End ReceiverVocabulary.

(** ** Vocabulary of the statements about the admission controller *)

Section AdmissionVocabulary.
Context `{Externals}.

(** What [actionMap.get('executed')] of the object at [self] is after a
    step: [Some None] is a record still unset. *)
Definition resolution (s : Step) (self : nat) : option (option bool) :=
  ActionMap.executed <$> (heap (world s) !! self).

(** What [sendActionEvent] leaves behind: a write on an open socket, or the
    event at the end of the replay queue. *)
Definition forwarded (w : Controller) (event : ControlMessage.t) (s : Step)
  : Prop :=
  if wsOpen w then In (ws_send event) (effects s) /\ events (world s) = events w
  else events (world s) = events w ++ [event].

Definition notForwarded (w : Controller) (s : Step) : Prop :=
  (forall e, ~ In (ws_send e) (effects s)) /\ events (world s) = events w.

(** No request to the authorization service among the effects. *)
Definition noAuthorizationCall (s : Step) : Prop :=
  forall a c, ~ In (fetch_sendAction a c) (effects s)
              /\ ~ In (fetch_sendActionConcurrency a c) (effects s).

(** How the concurrent branch ends once it stops waiting, [predecessor]
    being the record logged just before: when that one is executed, the
    command is forwarded, the request of [sendActionConcurrency] is issued
    and the record is marked [true]; otherwise nothing leaves and the record
    is marked [false].  Either way the invocation returns, and the log, the
    other records and the stored answer of the service are as they were. *)
Definition verdictOf (w : Controller) (k : Locals) (predecessor : ActionMap.t)
  (s : Step) : Prop :=
  completion s = Returned
  /\ actionMaps (world s) = actionMaps w
  /\ (forall j, j <> self k -> heap (world s) !! j = heap w !! j)
  /\ action_time (world s) = action_time w
  /\ action_flag (world s) = action_flag w
  /\ match ActionMap.executed predecessor with
     | Some true =>
         forwarded w (event k) s
         /\ effects s
            = (if wsOpen w then [ws_send (event k)] else [])
              ++ [fetch_sendActionConcurrency (action_json k) true]
         /\ resolution s (self k) = Some (Some true)
     | _ =>
         notForwarded w s
         /\ effects s = []
         /\ resolution s (self k) = Some (Some false)
     end.


(** [p] is the record logged just before [m]: their keys are neighbours in
    [actionMaps], in this order, and the key of [p] leads to [p]. *)
Definition immediatelyPrecedes (w : Controller) (p m : ActionMap.t) : Prop :=
  exists before after kp refp refm,
    actionMaps w
    = before ++ (kp, refp)
        :: (ActionJson.action_time (ActionMap.entries m), refm) :: after
    /\ ~ In (ActionJson.action_time (ActionMap.entries m)) (JsMap.keys before)
    /\ ~ In kp (JsMap.keys before)
    /\ kp <> ActionJson.action_time (ActionMap.entries m)
    /\ heap w !! refp = Some p.

(** A key event that presses a key. *)
Definition isKeyPress (p : ActionMap.t) : bool :=
  (ActionJson.type (ActionMap.entries p) =? Android.TYPE_KEYCODE)
  && eqNum (ActionJson.action (ActionMap.entries p)) Android.KEY_ACTION_DOWN.

(** The record at [i] exists and its [executed] is unset. *)
Definition pending (w : Controller) (i : nat) : Prop :=
  exists m, heap w !! i = Some m /\ ActionMap.executed m = None.

(** The record at [i] has [executed] set to [b]. *)
Definition resolved (w : Controller) (i : nat) (b : bool) : Prop :=
  exists m, heap w !! i = Some m /\ ActionMap.executed m = Some b.

(** Every record of the log is stored under its own [action_time]. *)
Definition keyed (w : Controller) : Prop :=
  forall k ref, JsMap.get (actionMaps w) k = Some ref ->
    exists m, heap w !! ref = Some m
              /\ ActionJson.action_time (ActionMap.entries m) = k.

(** The clock never answered 0 to a call of [sendEvent]. *)
Definition clockNotZero (t : Task) : Prop :=
  match t with
  | callSendEvent _ _ now => now <> 0
  | replayQueued _ now => now <> 0
  | _ => True
  end.

(** How many keys come before the first occurrence of [t]. *)
Fixpoint rank (keys : list Z) (t : Z) : nat :=
  match keys with
  | [] => O
  | k :: keys' => if k =? t then O else S (rank keys' t)
  end.

(** What a piece of [sendEvent] may do to the heap: leave it, or write
    [executed] of its own record. *)
Definition heapStep (w w' : Controller) (own : nat) : Prop :=
  heap w' = heap w \/ exists b, heap w' = alter (ActionMap.setExecuted b) own (heap w).

(** Every parked invocation waits with its own record unset, and no two
    share a record. *)
Definition consistent (m : Machine) : Prop :=
  NoDup (map (fun p => self (snd p)) (parked m))
  /\ Forall (fun p => pending (controller m) (self (snd p))) (parked m).

End AdmissionVocabulary.

(** ** The handshake layout, as the decoder reads it

    Modelled from the spec: the frames are written by the device-side
    server, which is not among the sources; section 6 of the spec gives the
    layout.  These definitions only build inputs for the decoder. *)

(** The byte of a number below 256. *)
Definition byteOfZ (z : Z) : byte :=
  default x00 (Byte.of_N (Z.to_N (z mod 256))).

(** Four bytes, big endian, two's complement. *)
Definition int32BE (v : Z) : bytes :=
  let u := v mod 2 ^ 32 in
  [byteOfZ (u / 2 ^ 24); byteOfZ (u / 2 ^ 16); byteOfZ (u / 2 ^ 8); byteOfZ u].

Definition isInt32 (v : Z) : Prop := - 2 ^ 31 <= v < 2 ^ 31.

Definition byteLength (b : bytes) : Z := Z.of_nat (length b).

Section HandshakeLayout.
Context `{Externals}.

(** One display of a handshake: the bytes of its three records and what the
    imported decoders make of them.  An empty screen-info or video-settings
    record is a record left out. *)
Record DisplayRecord := {
  dr_bytes : bytes;
  dr_info : DisplayInfo;
  dr_connectionCount : Z;
  dr_screenBytes : bytes;
  dr_screenInfo : option ScreenInfo;
  dr_videoBytes : bytes;
  dr_videoSettings : option VideoSettings
}.

Definition optionalRecord {A} (decode : bytes -> option A) (b : bytes)
  (v : option A) : Prop :=
  match b with
  | [] => v = None
  | _ => decode b = v /\ v <> None
  end.

Definition wellFormedDisplay (d : DisplayRecord) : Prop :=
  byteLength (dr_bytes d) = DisplayInfo_BUFFER_LENGTH
  /\ DisplayInfo_fromBuffer (dr_bytes d) = Some (dr_info d)
  /\ isInt32 (dr_connectionCount d)
  /\ isInt32 (byteLength (dr_screenBytes d))
  /\ isInt32 (byteLength (dr_videoBytes d))
  /\ optionalRecord ScreenInfo_fromBuffer (dr_screenBytes d) (dr_screenInfo d)
  /\ optionalRecord VideoSettings_fromBuffer (dr_videoBytes d) (dr_videoSettings d).

Definition layDisplay (d : DisplayRecord) : bytes :=
  dr_bytes d ++ int32BE (dr_connectionCount d)
  ++ int32BE (byteLength (dr_screenBytes d)) ++ dr_screenBytes d
  ++ int32BE (byteLength (dr_videoBytes d)) ++ dr_videoBytes d.

Definition layEncoder (name : bytes) : bytes :=
  int32BE (byteLength name) ++ name.

(** The whole frame; [trailing] is whatever follows the client id. *)
Definition layHandshake (nameField : bytes) (displays : list DisplayRecord)
  (encoderNames : list bytes) (id : Z) (trailing : bytes) : bytes :=
  MAGIC_BYTES_INITIAL ++ nameField
  ++ int32BE (Z.of_nat (length displays)) ++ concat (map layDisplay displays)
  ++ int32BE (Z.of_nat (length encoderNames)) ++ concat (map layEncoder encoderNames)
  ++ int32BE id ++ trailing.

Definition wellFormedHandshake (nameField : bytes) (displays : list DisplayRecord)
  (encoderNames : list bytes) (id : Z) : Prop :=
  length nameField = DEVICE_NAME_FIELD_LENGTH
  /\ isInt32 (Z.of_nat (length displays))
  /\ Forall wellFormedDisplay displays
  /\ isInt32 (Z.of_nat (length encoderNames))
  /\ Forall (fun name => isInt32 (byteLength name)) encoderNames
  /\ isInt32 id.

Definition displayIdOf (d : DisplayRecord) : Z := displayId (dr_info d).

(** No key of the four display maps is the id of one of [ds]. *)
Definition freshFor (r : Receiver) (ds : list DisplayRecord) : Prop :=
  forall d, In d ds ->
    ~ In (displayIdOf d) (JsMap.keys (displayInfoMap r))
    /\ ~ In (displayIdOf d) (JsMap.keys (connectionCountMap r))
    /\ ~ In (displayIdOf d) (JsMap.keys (screenInfoMap r))
    /\ ~ In (displayIdOf d) (JsMap.keys (videoSettingsMap r)).

(** The record [triggerInitialInfoEvents] should raise for a display. *)
Definition combinedOf (d : DisplayRecord) : DisplayCombinedInfo :=
  {| dci_displayInfo := dr_info d;
     dci_videoSettings := dr_videoSettings d;
     dci_screenInfo := dr_screenInfo d;
     dci_connectionCount := dr_connectionCount d |}.

(** What one turn of the display loop writes. *)
Definition installDisplay (r : Receiver) (d : DisplayRecord) : Receiver :=
  let id := displayId (dr_info d) in
  let r := with_displayInfoMap (fun m => JsMap.set m id (dr_info d)) r in
  let r := with_connectionCountMap
             (fun m => JsMap.set m id (dr_connectionCount d)) r in
  let r := match dr_screenInfo d with
           | Some si => with_screenInfoMap (fun m => JsMap.set m id si) r
           | None => r
           end in
  match dr_videoSettings d with
  | Some vs => with_videoSettingsMap (fun m => JsMap.set m id vs) r
  | None => r
  end.

Definition installEncoder (r : Receiver) (name : bytes) : Receiver :=
  with_encodersSet (fun s => JsSet.add s (utf8ByteArrayToString name)) r.

(** The receiver with its four display maps emptied. *)
Definition clearDisplays (r : Receiver) : Receiver :=
  with_videoSettingsMap (fun _ => JsMap.clear)
    (with_screenInfoMap (fun _ => JsMap.clear)
       (with_connectionCountMap (fun _ => JsMap.clear)
          (with_displayInfoMap (fun _ => JsMap.clear) r))).

(** The state a well-formed frame leaves, before the events are raised. *)
Definition decodedState (r : Receiver) (nameField : bytes)
  (displays : list DisplayRecord) (encoderNames : list bytes) (id : Z)
  : Receiver :=
  with_hasInitialInfo true
    (with_deviceName (utf8ByteArrayToString (filterTrailingZeroes nameField))
       (with_clientId id
          (fold_left installEncoder encoderNames
             (with_encodersSet (fun _ => JsSet.clear)
                (fold_left installDisplay displays (clearDisplays r)))))).

End HandshakeLayout.

(** ** The receiver over the calls it gets *)

Section SessionVocabulary.
Context `{Externals}.

(** What reaches the receiver side of the class: a frame, the socket
    opening (the [connected] event of [onSocketOpen]), the socket closing,
    and a call of [triggerInitialInfoEvents] from outside. *)
Inductive ReceiverCall :=
| messageArrives (d : MessageData)
| socketOpens
| socketCloses
| eventsRequested.

(** The fields after a call; a handler that throws leaves them as it wrote
    them before the throw. *)
Definition receiverCall (r : Receiver) (c : ReceiverCall) : Receiver :=
  match c with
  | messageArrives d => stateOf (onSocketMessage d r)
  | socketOpens => stateOf (emit connected r)
  | socketCloses => stateOf (onSocketClose r)
  | eventsRequested => stateOf (triggerInitialInfoEvents r)
  end.

Definition receiverRun (r : Receiver) (cs : list ReceiverCall) : Receiver :=
  fold_left receiverCall cs r.

(** A [displayInfo] event with no display id twice, an [encoders] event with
    no name twice. *)
Definition listsEachOnce (e : Emitted) : Prop :=
  match e with
  | displayInfo arr => NoDup (map (fun c => displayId (dci_displayInfo c)) arr)
  | encoders names => NoDup names
  | _ => True
  end.

(** One of the three events of [triggerInitialInfoEvents]. *)
Definition isLifecycleEvent (e : Emitted) : bool :=
  match e with
  | displayInfo _ | clientsStats _ _ | encoders _ => true
  | _ => false
  end.

(** The display map holds each display once, under its own id, and the
    encoder set each name once. *)
Definition indexed (r : Receiver) : Prop :=
  NoDup (JsMap.keys (displayInfoMap r))
  /\ Forall (fun kv => fst kv = displayId (snd kv)) (displayInfoMap r)
  /\ NoDup (encodersSet r).

(** The invariant of the receiver: [indexed], and every event raised so
    far lists each display and each encoder once. *)
Definition sound (r : Receiver) : Prop :=
  indexed r /\ Forall listsEachOnce (emitted r).


End SessionVocabulary.

(** ** The machine over its tasks *)

Section MachineVocabulary.
Context `{Externals}.

(** What leaves the class over a list of tasks, in order. *)
Fixpoint runTasksEffects (m : Machine) (ts : list Task) : list Effect :=
  match ts with
  | [] => []
  | t :: ts' => snd (runTask m t) ++ runTasksEffects (fst (runTask m t)) ts'
  end.

(** A task other than the socket opening, other than the socket closing. *)
Definition notOpening (t : Task) : Prop :=
  match t with
  | socketChanges true => False
  | _ => True
  end.

Definition notClosing (t : Task) : Prop :=
  match t with
  | socketChanges false => False
  | _ => True
  end.

(** [n] turns of the replay loop as tasks, the [i]-th at time [clock i]. *)
Definition replayTasks (r : Receiver) (clock : nat -> Z) (n : nat) : list Task :=
  map (fun i => replayQueued r (clock i)) (seq 0 n).

(** The machine once [stop()] has been called. *)
Definition stopped (m : Machine) : Machine :=
  {| controller := fst (stop (controller m)); parked := parked m |}.

(** What a piece run for the command [e] may do to the socket and to the
    replay queue: it writes nothing but [e], and only to an open socket; it
    queues nothing but [e], and only when the socket is not open. *)
Definition disciplined (w : Controller) (e : ControlMessage.t) (s : Step) : Prop :=
  wsOpen (world s) = wsOpen w
  /\ (forall e', In (ws_send e') (effects s) -> e' = e /\ wsOpen w = true)
  /\ (events (world s) = events w
      \/ (wsOpen w = false /\ events (world s) = events w ++ [e])).

(** The command of a piece leaves the class exactly when the piece marks
    its record executed: either the record at [self] is marked [true] and
    the command was forwarded, or the record is not marked [true] and nothing
    was written or queued. *)
Definition leavesIffExecuted (w : Controller) (e : ControlMessage.t)
  (self : nat) (s : Step) : Prop :=
  (resolution s self = Some (Some true) /\ forwarded w e s)
  \/ (resolution s self <> Some (Some true) /\ notForwarded w s).

End MachineVocabulary.

(** ** Two displays and two encoders, to lay out a handshake *)
Module MoreSample.
Import Sample.

(** Display 0: one connection, no screen info, no video settings. *)
Definition mainDisplay : DisplayRecord :=
  {| dr_bytes := displayRecord 0; dr_info := displayRecord 0;
     dr_connectionCount := 1;
     dr_screenBytes := []; dr_screenInfo := None;
     dr_videoBytes := []; dr_videoSettings := None |}.

(** Display 1: no connection, a screen-info record of four bytes and a
    video-settings record of one. *)
Definition secondDisplay : DisplayRecord :=
  {| dr_bytes := displayRecord 1; dr_info := displayRecord 1;
     dr_connectionCount := 0;
     dr_screenBytes := [x01; x02; x03; x04];
     dr_screenInfo := Some [x01; x02; x03; x04];
     dr_videoBytes := [x09]; dr_videoSettings := Some [x09] |}.

Definition encoderNames : list bytes :=
  [list_byte_of_string "h264"; list_byte_of_string "hevc"].


(** The socket closes, then a handshake that is cut short arrives. *)
Definition callsAfterHandshake : list ReceiverCall :=
  [socketCloses; messageArrives (ArrayBuffer truncatedFrame)].

(** A fast-path command submitted before the socket is open, which queues
    it; then the socket opens. *)
Definition queuedThenOpen : list Task :=
  [callSendEvent connectedReceiver backOrScreenOn 1000; socketChanges true].

Definition replayClock (i : nat) : Z := 2000 + Z.of_nat i.

(** A machine with an open socket. *)
Definition openMachine : Machine :=
  {| controller := openController; parked := [] |}.


(** A touch down 1000 ms after the first command: not concurrent, it parks
    at its authorization request.  A touch move 10 ms later: concurrent, and
    its predecessor, the touch down, is not resolved yet. *)
Definition downParked : Step :=
  Eval vm_compute in
    sendEvent connectedReceiver (world afterFirst)
      (touch Android.MOTION_ACTION_DOWN) 2000.

Definition downParkedLocals : Locals :=
  {| self := 1; event := touch Android.MOTION_ACTION_DOWN;
     action_json :=
       make_action_json connectedReceiver (touch Android.MOTION_ACTION_DOWN) 2000 |}.

Definition moveParked : Step :=
  Eval vm_compute in
    sendEvent connectedReceiver (world downParked)
      (touch Android.MOTION_ACTION_MOVE) 2010.

Definition moveLocals : Locals :=
  {| self := 2; event := touch Android.MOTION_ACTION_MOVE;
     action_json :=
       make_action_json connectedReceiver (touch Android.MOTION_ACTION_MOVE) 2010 |}.

(** The service allows the touch down, but only 3040 ms after the touch
    move was logged. *)
Definition downAllowedLate : Step :=
  Eval vm_compute in
    onAuthorizationSettled (world moveParked) downParkedLocals
      (ResponseJson (JsBool true) (JsNumber 2000)).

(** The first command of a session is a key press, on which [sendEvent]
    throws; the release of the key follows 100 ms later. *)
Definition firstPress : Step :=
  Eval vm_compute in
    sendEvent connectedReceiver openController
      (key Android.KEY_ACTION_DOWN KEYCODE_A) 1000.

Definition releaseAfterFirstPress : Step :=
  sendEvent connectedReceiver (world firstPress)
    (key Android.KEY_ACTION_UP KEYCODE_A) 1100.

End MoreSample.

(** ** What a handshake leaves behind, and frames it does not reject *)

Section HandshakeOutcome.
Context `{Externals}.

(** [handleInitialInfo] from its first write on, that is after
    [const displaysCount = rest.readInt32BE(0)]: the locals it starts from
    are [nameBytes], [rest] and [displaysCount]. *)
Definition decodeAfterCount (nameBytes rest : bytes) (displaysCount : Z)
  : M Receiver unit :=
  (run modify (with_displayInfoMap (fun _ => JsMap.clear)) in
   run modify (with_connectionCountMap (fun _ => JsMap.clear)) in
   run modify (with_screenInfoMap (fun _ => JsMap.clear)) in
   run modify (with_videoSettingsMap (fun _ => JsMap.clear)) in
   let rest := Buffer.slice rest 4 in
   let* rest := forLoop (Z.to_nat displaysCount) displayTurn rest in
   run modify (with_encodersSet (fun _ => JsSet.clear)) in
   let* encodersCount := orThrow RangeError (Buffer.readInt32BE rest) in
   let rest := Buffer.slice rest 4 in
   let* rest := forLoop (Z.to_nat encodersCount) encoderTurn rest in
   let* id := orThrow RangeError (Buffer.readInt32BE rest) in
   run modify (with_clientId id) in
   let nameBytes := filterTrailingZeroes nameBytes in
   run modify (with_deviceName (utf8ByteArrayToString nameBytes)) in
   run modify (with_hasInitialInfo true) in
   triggerInitialInfoEvents)%js.

(** The four maps of the displays. *)
Definition displayMaps (r : Receiver) :=
  (displayInfoMap r, connectionCountMap r, screenInfoMap r, videoSettingsMap r).

(** Run from two states related by [P], the statement completes in both
    with one result and states related by [Q], or throws the same error in
    both, in states related by [E]. *)
Definition alikeStates {A} (P Q E : Receiver -> Receiver -> Prop)
  (m : M Receiver A) : Prop :=
  forall r1 r2, P r1 r2 ->
    match m r1, m r2 with
    | Normal a s1, Normal b s2 => a = b /\ Q s1 s2
    | Thrown e1 s1, Thrown e2 s2 => e1 = e2 /\ E s1 s2
    | _, _ => False
    end.

(** The display maps of [s1] and [s2], reached from [r1] and [r2], hold the
    same entries, and the encoder sets are both as they were in [r1] and
    [r2], or both the same. *)
Definition rebuilt (r1 r2 s1 s2 : Receiver) : Prop :=
  displayMaps s1 = displayMaps s2
  /\ ((encodersSet s1 = encodersSet r1 /\ encodersSet s2 = encodersSet r2)
      \/ encodersSet s1 = encodersSet s2).

(** The display maps agree and the encoder sets are still those of [r1] and
    [r2]: as far as the display loop goes. *)
Definition displaysRebuilt (r1 r2 s1 s2 : Receiver) : Prop :=
  displayMaps s1 = displayMaps s2
  /\ encodersSet s1 = encodersSet r1 /\ encodersSet s2 = encodersSet r2.

(** The display maps and the encoder sets agree: from the end of the
    display loop on. *)
Definition allRebuilt (s1 s2 : Receiver) : Prop :=
  displayMaps s1 = displayMaps s2 /\ encodersSet s1 = encodersSet s2.

(** A turn of a loop of the decoder that cannot go on: it throws, or it
    leaves nothing to read. *)
Definition starved (out : Outcome Receiver bytes) : Prop :=
  match out with
  | Normal rest _ => rest = []
  | Thrown _ _ => True
  end.

(** A frame that declares [n] displays and [m] encoders and holds none: the
    client id follows the two counts. *)
Definition layCounts (nameField : bytes) (n m id : Z) (trailing : bytes) : bytes :=
  MAGIC_BYTES_INITIAL ++ nameField
  ++ int32BE n ++ int32BE m ++ int32BE id ++ trailing.

(** A frame with no display and one encoder, whose name is declared -4
    bytes long; [body] and the four bytes of [id] end the frame. *)
Definition layNegativeLength (nameField body : bytes) (id : Z) : bytes :=
  MAGIC_BYTES_INITIAL ++ nameField
  ++ int32BE 0 ++ int32BE 1 ++ int32BE (-4) ++ body ++ int32BE id.

End HandshakeOutcome.
(** * Part II: properties *)

(** ** The monad *)

Lemma bind_Normal {S A B} (m : M S A) (k : A -> M S B) s a s' :
  m s = Normal a s' -> bind m k s = k a s'.
Proof. intros E. unfold bind. now rewrite E. Qed.

Lemma bind_Thrown {S A B} (m : M S A) (k : A -> M S B) s e s' :
  m s = Thrown e s' -> bind m k s = Thrown e s'.
Proof. intros E. unfold bind. now rewrite E. Qed.

Lemma bind_Normal_inv {S A B} (m : M S A) (k : A -> M S B) s b s2 :
  bind m k s = Normal b s2 ->
  exists a s1, m s = Normal a s1 /\ k a s1 = Normal b s2.
Proof.
  unfold bind. destruct (m s) as [a s1|e s1]; intros E; [|discriminate].
  now exists a, s1.
Qed.

(** ** [EqualArrays] is equality of the two byte sequences *)

Lemma strictNe_false (x y : option byte) : strictNe x y = false <-> x = y.
Proof.
  destruct x as [a|], y as [b|]; simpl; split; intros E;
    try discriminate; try reflexivity.
  - apply negb_false_iff, Byte.byte_dec_bl in E. now subst.
  - injection E as ->. apply negb_false_iff, Byte.byte_dec_lb. reflexivity.
Qed.

Lemma EqualArrays_from_true (a b : bytes) (todo i : nat) :
  EqualArrays_from a b i todo = true <->
  (forall j, (i <= j < i + todo)%nat -> a !! j = b !! j).
Proof.
  revert i. induction todo as [|todo IH]; intros i; simpl.
  - split; [intros _ j Hj; lia | reflexivity].
  - destruct (strictNe (a !! i) (b !! i)) eqn:E.
    + split; [discriminate|]. intros Hall.
      assert (a !! i = b !! i) as Hi by (apply Hall; lia).
      apply strictNe_false in Hi. congruence.
    + apply strictNe_false in E. rewrite IH. split; intros Hall j Hj.
      * destruct (Nat.eq_dec j i) as [->|]; [exact E|]. apply Hall. lia.
      * apply Hall. lia.
Qed.

Lemma EqualArrays_true (a b : bytes) : EqualArrays a b = true <-> a = b.
Proof.
  unfold EqualArrays. destruct (length a =? length b)%nat eqn:El; simpl.
  - apply Nat.eqb_eq in El. rewrite EqualArrays_from_true. split.
    + intros Hall. apply list_eq. intros j.
      destruct (Nat.lt_ge_cases j (length a)) as [Hlt|Hge].
      * apply Hall. lia.
      * rewrite !lookup_ge_None_2 by lia. reflexivity.
    + intros -> j _. reflexivity.
  - apply Nat.eqb_neq in El. split; [discriminate|]. intros ->. lia.
Qed.

Lemma EqualArrays_false (a b : bytes) : EqualArrays a b = false <-> a <> b.
Proof.
  rewrite <- EqualArrays_true. destruct (EqualArrays a b); split; congruence.
Qed.

(** ** Triples for the statements of the frame handlers *)

Section ReceiverProofs.
Context `{Externals}.

Lemma hoare_bind {A B} P (m : M Receiver A) (k : A -> M Receiver B) Q' Q E :
  hoare P m Q' E -> (forall a, hoare (Q' a) (k a) Q E) -> hoare P (bind m k) Q E.
Proof.
  intros Hm Hk r HP. unfold bind. specialize (Hm r HP).
  destruct (m r) as [a s|e s]; [|exact Hm]. exact (Hk a s Hm).
Qed.

Lemma hoare_conseq {A} (P P' : Receiver -> Prop) (m : M Receiver A)
  (Q Q' : A -> Receiver -> Prop) (E E' : JsError -> Receiver -> Prop) :
  hoare P' m Q' E' ->
  (forall r, P r -> P' r) -> (forall a r, Q' a r -> Q a r) ->
  (forall e r, E' e r -> E e r) ->
  hoare P m Q E.
Proof.
  intros Hm HP HQ HE r Hr. specialize (Hm r (HP r Hr)).
  destruct (m r); auto.
Qed.

Lemma hoare_ret {A} (P : Receiver -> Prop) (a : A) E :
  hoare P (ret a) (fun _ => P) E.
Proof. intros r HP. exact HP. Qed.

Lemma hoare_throw {A} (P : Receiver -> Prop) e (Q : A -> Receiver -> Prop) :
  hoare P (throw e) Q (fun _ => P).
Proof. intros r HP. exact HP. Qed.

Lemma hoare_orThrow {A} (P : Receiver -> Prop) e (o : option A) :
  hoare P (orThrow e o) (fun _ => P) (fun _ => P).
Proof. intros r HP. destruct o; exact HP. Qed.

Lemma hoare_gets {A} (P : Receiver -> Prop) (f : Receiver -> A) E :
  hoare P (gets f) (fun a s => P s /\ a = f s) E.
Proof. intros r HP. simpl. auto. Qed.

Lemma hoare_modify (P Q : Receiver -> Prop) (f : Receiver -> Receiver) E :
  (forall r, P r -> Q (f r)) -> hoare P (modify f) (fun _ => Q) E.
Proof. intros Hf r HP. simpl. auto. Qed.

Lemma hoare_forLoop {A} (I : Receiver -> Prop) (body : A -> M Receiver A) n a :
  (forall x, hoare I (body x) (fun _ => I) (fun _ => I)) ->
  hoare I (forLoop n body a) (fun _ => I) (fun _ => I).
Proof.
  intros Hbody. revert a. induction n as [|n IH]; intros a; simpl.
  - apply hoare_ret.
  - eapply hoare_bind; [apply Hbody|]. intros a'. apply IH.
Qed.

Lemma hoare_Uint8Array3 (P : Receiver -> Prop) data offset len :
  hoare P (Uint8Array3 data offset len) (fun _ => P) (fun _ => P).
Proof. intros r HP. unfold Uint8Array3. destruct (_ <? _)%nat; exact HP. Qed.

Lemma hoare_Uint8Array2 (P : Receiver -> Prop) data offset :
  hoare P (Uint8Array2 data offset) (fun _ => P) (fun _ => P).
Proof. intros r HP. unfold Uint8Array2. destruct (_ <? _)%nat; exact HP. Qed.

Lemma keeps_bind {A B} I (m : M Receiver A) (k : A -> M Receiver B) :
  keeps I m -> (forall a, keeps I (k a)) -> keeps I (bind m k).
Proof. intros Hm Hk. eapply hoare_bind; [exact Hm|exact Hk]. Qed.

Lemma keeps_modify I (f : Receiver -> Receiver) :
  (forall r, I r -> I (f r)) -> keeps I (modify f).
Proof. intros Hf. apply hoare_modify. exact Hf. Qed.

Lemma keeps_if {A} I (c : bool) (m1 m2 : M Receiver A) :
  keeps I m1 -> keeps I m2 -> keeps I (if c then m1 else m2).
Proof. destruct c; auto. Qed.

Ltac keeps_step :=
  lazy zeta;
  first
    [ apply keeps_bind; [|intros ?]
    | apply keeps_if
    | apply hoare_ret
    | apply hoare_orThrow
    | apply hoare_Uint8Array3
    | apply hoare_Uint8Array2
    | apply hoare_forLoop; intros ? ].

(** The statements of the handshake before its last read leave the
    identity fields and the event log alone. *)
Lemma identityKept_with_displayInfoMap r0 f :
  keeps (identityKept r0) (modify (with_displayInfoMap f)).
Proof. apply keeps_modify. intros r Hr. exact Hr. Qed.

Lemma identityKept_with_connectionCountMap r0 f :
  keeps (identityKept r0) (modify (with_connectionCountMap f)).
Proof. apply keeps_modify. intros r Hr. exact Hr. Qed.

Lemma identityKept_with_screenInfoMap r0 f :
  keeps (identityKept r0) (modify (with_screenInfoMap f)).
Proof. apply keeps_modify. intros r Hr. exact Hr. Qed.

Lemma identityKept_with_videoSettingsMap r0 f :
  keeps (identityKept r0) (modify (with_videoSettingsMap f)).
Proof. apply keeps_modify. intros r Hr. exact Hr. Qed.

Lemma identityKept_with_encodersSet r0 f :
  keeps (identityKept r0) (modify (with_encodersSet f)).
Proof. apply keeps_modify. intros r Hr. exact Hr. Qed.

Ltac identity_step :=
  first
    [ apply identityKept_with_displayInfoMap
    | apply identityKept_with_connectionCountMap
    | apply identityKept_with_screenInfoMap
    | apply identityKept_with_videoSettingsMap
    | apply identityKept_with_encodersSet
    | keeps_step ].

Lemma displayTurn_identityKept r0 rest : keeps (identityKept r0) (displayTurn rest).
Proof. unfold displayTurn. repeat identity_step. Qed.

Lemma encoderTurn_identityKept r0 rest : keeps (identityKept r0) (encoderTurn rest).
Proof. unfold encoderTurn. repeat identity_step. Qed.

Lemma handshakeTail_run id nameBytes r :
  handshakeTail id nameBytes r =
  let s := with_hasInitialInfo true
             (with_deviceName (utf8ByteArrayToString (filterTrailingZeroes nameBytes))
                (with_clientId id r)) in
  Normal tt
    (stateOf (emit (displayInfo (infoArray s))
       (stateOf (emit (clientsStats (clientId s) (deviceName s))
          (stateOf (emit (encoders (getEncoders s)) s)))))).
Proof. reflexivity. Qed.

(** [handleInitialInfo] as a triple: when it throws, the identity fields
    and the event log are as before; when it completes, the three lifecycle
    events have been added to the log. *)
Lemma handleInitialInfo_triple data r0 :
  hoare (identityKept r0) (handleInitialInfo data)
    (fun _ s => emitted s = emitted r0 ++ lifecycleEvents s
                /\ hasInitialInfo s = true)
    (fun _ => identityKept r0).
Proof.
  unfold handleInitialInfo. lazy zeta.
  eapply hoare_bind; [apply hoare_Uint8Array3|intros nameBytes].
  eapply hoare_bind; [apply hoare_Uint8Array2|intros rest].
  eapply hoare_bind; [apply hoare_orThrow|intros displaysCount].
  eapply hoare_bind; [apply identityKept_with_displayInfoMap|intros ?].
  eapply hoare_bind; [apply identityKept_with_connectionCountMap|intros ?].
  eapply hoare_bind; [apply identityKept_with_screenInfoMap|intros ?].
  eapply hoare_bind; [apply identityKept_with_videoSettingsMap|intros ?].
  eapply hoare_bind;
    [apply hoare_forLoop; intros x; apply displayTurn_identityKept|intros rest1].
  eapply hoare_bind; [apply identityKept_with_encodersSet|intros ?].
  eapply hoare_bind; [apply hoare_orThrow|intros encodersCount].
  eapply hoare_bind;
    [apply hoare_forLoop; intros x; apply encoderTurn_identityKept|intros rest2].
  eapply hoare_bind; [apply hoare_orThrow|intros id].
  change (hoare (identityKept r0) (handshakeTail id nameBytes)
            (fun _ s => emitted s = emitted r0 ++ lifecycleEvents s
                        /\ hasInitialInfo s = true)
            (fun _ => identityKept r0)).
  intros r (_ & _ & _ & Hr). rewrite handshakeTail_run. simpl. rewrite Hr.
  rewrite <- !app_assoc. split; reflexivity.
Qed.

(** ** Two runs of the handshake from different states *)

Lemma alike_bind {A B} P Q R (m : M Receiver A) (k : A -> M Receiver B) :
  alike P Q m -> (forall a, alike Q R (k a)) -> alike P R (bind m k).
Proof.
  intros Hm Hk r1 r2 HP. unfold bind. specialize (Hm r1 r2 HP).
  destruct (m r1) as [a1 s1|e1 s1], (m r2) as [a2 s2|e2 s2]; try easy.
  destruct Hm as [<- HQ]. exact (Hk a1 s1 s2 HQ).
Qed.

Lemma alike_ret {A} P (a : A) : alike P P (ret a).
Proof. intros r1 r2 HP. simpl. auto. Qed.

Lemma alike_orThrow {A} P e (o : option A) : alike P P (orThrow e o).
Proof. intros r1 r2 HP. destruct o; simpl; auto. Qed.

Lemma alike_Uint8Array3 P data offset len : alike P P (Uint8Array3 data offset len).
Proof.
  intros r1 r2 HP. unfold Uint8Array3. destruct (_ <? _)%nat; simpl; auto.
Qed.

Lemma alike_Uint8Array2 P data offset : alike P P (Uint8Array2 data offset).
Proof.
  intros r1 r2 HP. unfold Uint8Array2. destruct (_ <? _)%nat; simpl; auto.
Qed.

Lemma alike_modify (P Q : Receiver -> Receiver -> Prop) f :
  (forall r1 r2, P r1 r2 -> Q (f r1) (f r2)) -> alike P Q (modify f).
Proof. intros Hf r1 r2 HP. simpl. auto. Qed.

Lemma alike_if {A} P Q (c : bool) (m1 m2 : M Receiver A) :
  alike P Q m1 -> alike P Q m2 -> alike P Q (if c then m1 else m2).
Proof. destruct c; auto. Qed.

Lemma alike_forLoop {A} P (body : A -> M Receiver A) n a :
  (forall x, alike P P (body x)) -> alike P P (forLoop n body a).
Proof.
  intros Hbody. revert a. induction n as [|n IH]; intros a; simpl.
  - apply alike_ret.
  - eapply alike_bind; [apply Hbody|]. intros a'. apply IH.
Qed.

Ltac agree_modify :=
  apply alike_modify;
  let r1 := fresh "r1" in
  let r2 := fresh "r2" in
  intros r1 r2 (? & ? & ? & ? & ? & ? & ? & ?);
  unfold agree; simpl; repeat split; intros ?;
  first
    [ lia
    | reflexivity
    | match goal with
      | Hx : (_ <= _)%nat -> _ = _ |- _ => rewrite (Hx ltac:(lia)); reflexivity
      end ].

Lemma alike_seq {A B} P (m : M Receiver A) (k : A -> M Receiver B) :
  alike P P m -> (forall a, alike P P (k a)) -> alike P P (bind m k).
Proof. apply alike_bind. Qed.

Ltac alike_step :=
  lazy zeta;
  first
    [ apply alike_seq; [|intros ?]
    | apply alike_if
    | apply alike_ret
    | apply alike_orThrow
    | agree_modify ].

Lemma displayTurn_alike k rest : alike (agree k) (agree k) (displayTurn rest).
Proof. unfold displayTurn. repeat alike_step. Qed.

Lemma encoderTurn_alike k rest : alike (agree k) (agree k) (encoderTurn rest).
Proof. unfold encoderTurn. repeat alike_step. Qed.

Lemma infoArray_agree r1 r2 : agree 8 r1 r2 -> infoArray r1 = infoArray r2.
Proof.
  intros (Hd & Hc & Hs & Hv & _). unfold infoArray.
  rewrite (Hd ltac:(lia)). apply map_ext. intros [id info].
  unfold combinedInfo, connectionCountOr0.
  rewrite (Hc ltac:(lia)), (Hs ltac:(lia)), (Hv ltac:(lia)). reflexivity.
Qed.

Lemma handshakeTail_alike id nameBytes :
  alike (agree 5) (agree 8) (handshakeTail id nameBytes).
Proof.
  intros r1 r2 Hag. rewrite !handshakeTail_run. lazy zeta. split; [reflexivity|].
  destruct Hag as (Hd & Hc & Hs & Hv & He & _).
  unfold agree; simpl; repeat split; intros _; auto with arith.
Qed.

(** The outcome of a handshake and the session fields it leaves on success
    do not depend on the state it starts from. *)
Lemma handleInitialInfo_alike data :
  alike (agree 0) (agree 8) (handleInitialInfo data).
Proof.
  unfold handleInitialInfo. lazy zeta.
  eapply alike_bind; [apply alike_Uint8Array3|intros nameBytes].
  eapply alike_bind; [apply alike_Uint8Array2|intros rest].
  eapply alike_bind; [apply alike_orThrow|intros displaysCount].
  eapply (alike_bind _ (agree 1)); [agree_modify|intros ?].
  eapply (alike_bind _ (agree 2)); [agree_modify|intros ?].
  eapply (alike_bind _ (agree 3)); [agree_modify|intros ?].
  eapply (alike_bind _ (agree 4)); [agree_modify|intros ?].
  eapply alike_bind;
    [apply alike_forLoop; intros x; apply displayTurn_alike|intros rest1].
  eapply (alike_bind _ (agree 5)); [agree_modify|intros ?].
  eapply alike_bind; [apply alike_orThrow|intros encodersCount].
  eapply alike_bind;
    [apply alike_forLoop; intros x; apply encoderTurn_alike|intros rest2].
  eapply alike_bind; [apply alike_orThrow|intros id].
  apply handshakeTail_alike.
Qed.

Lemma agree_8_sessionState r1 r2 :
  agree 8 r1 r2 -> sessionState r1 = sessionState r2.
Proof.
  intros (Hd & Hc & Hs & Hv & He & Hi & Hn & _). unfold sessionState.
  rewrite (Hd ltac:(lia)), (Hc ltac:(lia)), (Hs ltac:(lia)), (Hv ltac:(lia)),
    (He ltac:(lia)), (Hi ltac:(lia)), (Hn ltac:(lia)). reflexivity.
Qed.

Lemma readInt32BE_short (b : bytes) :
  (length b < 4)%nat -> Buffer.readInt32BE b = None.
Proof.
  destruct b as [|b0 [|b1 [|b2 [|b3 b]]]]; simpl; intros Hl;
    try reflexivity; lia.
Qed.

Lemma magic_length : length MAGIC_BYTES_INITIAL = 14%nat.
Proof. reflexivity. Qed.

(** A frame too short to hold the display count throws before any field is
    written. *)
Lemma handleInitialInfo_short data r :
  (length data < 82)%nat -> handleInitialInfo data r = Thrown RangeError r.
Proof.
  intros Hl. unfold handleInitialInfo, Uint8Array3, Uint8Array2,
    DEVICE_NAME_FIELD_LENGTH.
  rewrite magic_length. lazy zeta.
  destruct (length data <? 14 + 64)%nat eqn:E1; [reflexivity|].
  apply Nat.ltb_ge in E1.
  unfold bind at 1. unfold ret at 1.
  destruct (length data <? 14 + 64)%nat eqn:E2;
    [apply Nat.ltb_lt in E2; lia|].
  unfold bind at 1. unfold ret at 1.
  rewrite readInt32BE_short; [reflexivity|].
  rewrite length_skipn. lia.
Qed.

(** Whatever the imported decoders are: a frame that declares no display
    and ends there throws at the read of the encoder count, after the four
    display maps and the encoder set have been emptied. *)
Lemma handleInitialInfo_cut_after_display_count (name : bytes) (r : Receiver) :
  length name = DEVICE_NAME_FIELD_LENGTH ->
  handleInitialInfo (MAGIC_BYTES_INITIAL ++ name ++ [x00; x00; x00; x00]) r
  = Thrown RangeError
      (with_encodersSet (fun _ => JsSet.clear)
         (with_videoSettingsMap (fun _ => JsMap.clear)
            (with_screenInfoMap (fun _ => JsMap.clear)
               (with_connectionCountMap (fun _ => JsMap.clear)
                  (with_displayInfoMap (fun _ => JsMap.clear) r))))).
Proof.
  intros Hname. unfold handleInitialInfo, Uint8Array3, Uint8Array2. lazy zeta.
  rewrite !length_app, Hname, magic_length.
  change (14 + (DEVICE_NAME_FIELD_LENGTH + length [x00; x00; x00; x00])
          <? 14 + DEVICE_NAME_FIELD_LENGTH)%nat with false.
  cbv iota.
  assert (Hrest : drop (14 + DEVICE_NAME_FIELD_LENGTH)
                    (MAGIC_BYTES_INITIAL ++ name ++ [x00; x00; x00; x00])
                  = [x00; x00; x00; x00]).
  { rewrite <- drop_drop. rewrite <- magic_length at 1.
    rewrite drop_app_length. rewrite <- Hname. apply drop_app_length. }
  unfold bind at 1. unfold ret at 1. rewrite Hrest. reflexivity.
Qed.

Lemma emit_run e r :
  exists r', emit e r = Normal tt r'
    /\ emitted r' = emitted r ++ [e]
    /\ sessionState r' = sessionState r
    /\ hasInitialInfo r' = hasInitialInfo r.
Proof. eexists. split; [reflexivity|]. simpl. auto. Qed.

End ReceiverProofs.

(** ** Insertion-ordered maps *)

Lemma JsMap_get_set_eq {V} (m : JsMap.t V) k v :
  JsMap.get (JsMap.set m k v) k = Some v.
Proof.
  induction m as [|[k' v'] m IH]; simpl.
  - now rewrite Z.eqb_refl.
  - destruct (k' =? k) eqn:E; simpl.
    + now rewrite Z.eqb_refl.
    + now rewrite E.
Qed.

Lemma JsMap_get_set_ne {V} (m : JsMap.t V) k v k' :
  k <> k' -> JsMap.get (JsMap.set m k v) k' = JsMap.get m k'.
Proof.
  intros Hne. induction m as [|[k0 v0] m IH]; simpl.
  - destruct (k =? k') eqn:E; [apply Z.eqb_eq in E; contradiction|reflexivity].
  - destruct (k0 =? k) eqn:E; simpl.
    + apply Z.eqb_eq in E. subst k0.
      destruct (k =? k') eqn:E'; [apply Z.eqb_eq in E'; contradiction|reflexivity].
    + destruct (k0 =? k'); [reflexivity|exact IH].
Qed.

Lemma JsMap_get_app_notin {V} (m1 m2 : JsMap.t V) k :
  ~ In k (JsMap.keys m1) -> JsMap.get (m1 ++ m2) k = JsMap.get m2 k.
Proof.
  induction m1 as [|[k' v'] m1 IH]; simpl; intros Hnot; [reflexivity|].
  destruct (k' =? k) eqn:E.
  - apply Z.eqb_eq in E. tauto.
  - apply IH. tauto.
Qed.

(** ** The lookups of the action log *)

Section AdmissionProofs.
Context `{Externals}.

Lemma lastKeyBefore_neighbour before kp t after lastKey :
  ~ In t before -> kp <> t ->
  lastKeyBefore (before ++ kp :: t :: after) t lastKey = kp.
Proof.
  revert lastKey. induction before as [|k before IH]; simpl; intros lastKey Hnot Hne.
  - destruct (kp =? t) eqn:E; [apply Z.eqb_eq in E; contradiction|].
    now rewrite Z.eqb_refl.
  - destruct (k =? t) eqn:E; [apply Z.eqb_eq in E; tauto|].
    apply IH; tauto.
Qed.

(** [getLastAction] answers the record logged just before its argument. *)
Lemma getLastAction_immediatelyPrecedes w p m :
  immediatelyPrecedes w p m -> getLastAction w m = Some p.
Proof.
  intros (before & after & kp & refp & refm & Hlog & Hnot & Hkp & Hne & Hp).
  unfold getLastAction, lookupAction, JsMap.keys. rewrite Hlog.
  rewrite map_app. simpl.
  rewrite lastKeyBefore_neighbour by assumption.
  rewrite JsMap_get_app_notin by assumption.
  simpl. rewrite Z.eqb_refl. exact Hp.
Qed.

(** The first record of a log: no key comes before its own, the lookups
    fall back on key 0, and key 0 is not in the log. *)
Lemma first_record_lookups w actionMap now :
  actionMaps w = [] -> now <> 0 ->
  ActionJson.action_time (ActionMap.entries actionMap) = now ->
  getLastAction (logAction w actionMap now) actionMap = None
  /\ getLastExecutedAction (logAction w actionMap now) actionMap = None.
Proof.
  intros Hempty Hnow Htime.
  unfold getLastAction, getLastExecutedAction, lookupAction, logAction.
  simpl. rewrite Hempty, Htime. simpl. rewrite Z.eqb_refl.
  simpl. destruct (now =? 0) eqn:E; [apply Z.eqb_eq in E; contradiction|].
  split; reflexivity.
Qed.

Lemma existsb_eqb_In (x : Z) (l : list Z) :
  existsb (Z.eqb x) l = true <-> In x l.
Proof.
  rewrite existsb_exists. split.
  - intros (y & Hy & E). apply Z.eqb_eq in E. now subst.
  - intros Hx. exists x. split; [exact Hx|apply Z.eqb_refl].
Qed.

Lemma existsb_eqb_not_In (x : Z) (l : list Z) :
  existsb (Z.eqb x) l = false <-> ~ In x l.
Proof.
  rewrite <- existsb_eqb_In. destruct (existsb _ _); split; congruence.
Qed.

(** ** Classification *)

(** C2 (as amended).  For a touch event (type 2) [judgeConcurrency] answers
    non-concurrent when the action is down (0) and concurrent when it is up
    (1) or move (2); with any other action, or none, it answers
    non-concurrent. *)
Theorem judgeConcurrency_touch (w : Controller) (m : ActionMap.t) :
  ActionJson.type (ActionMap.entries m) = Android.TYPE_TOUCH ->
  (ActionJson.action (ActionMap.entries m) = Some Android.MOTION_ACTION_DOWN ->
   judgeConcurrency w (Some m) = Val false)
  /\ (ActionJson.action (ActionMap.entries m) = Some Android.MOTION_ACTION_UP ->
      judgeConcurrency w (Some m) = Val true)
  /\ (ActionJson.action (ActionMap.entries m) = Some Android.MOTION_ACTION_MOVE ->
      judgeConcurrency w (Some m) = Val true)
  /\ (includes [Android.MOTION_ACTION_DOWN; Android.MOTION_ACTION_UP;
                Android.MOTION_ACTION_MOVE]
        (ActionJson.action (ActionMap.entries m)) = false ->
      judgeConcurrency w (Some m) = Val false).
Proof.
  intros Htype. unfold judgeConcurrency. rewrite Htype.
  change (existsb (Z.eqb Android.TYPE_TOUCH) nonConcurrentType) with false.
  change (Android.TYPE_TOUCH =? 0) with false.
  change (Android.TYPE_TOUCH =? 2) with true.
  change (Android.TYPE_TOUCH =? 3) with false.
  lazy zeta. cbv iota.
  repeat split; intros Hact.
  - rewrite Hact. reflexivity.
  - rewrite Hact. reflexivity.
  - rewrite Hact. reflexivity.
  - destruct (ActionJson.action (ActionMap.entries m)) as [a|]; [|reflexivity].
    simpl in Hact. unfold eqNum.
    destruct (a =? Android.MOTION_ACTION_DOWN) eqn:E0; [discriminate|].
    destruct (a =? Android.MOTION_ACTION_UP) eqn:E1; [discriminate|].
    destruct (a =? Android.MOTION_ACTION_MOVE) eqn:E2; [discriminate|].
    unfold Android.MOTION_ACTION_DOWN, Android.MOTION_ACTION_UP,
      Android.MOTION_ACTION_MOVE in *.
    rewrite E0, E1, E2. reflexivity.
Qed.

(** C8.  For a key event (type 0) [judgeConcurrency] answers concurrent
    when the action is release; otherwise non-concurrent when the keycode
    is one of 3, 4, 24, 25, 26, 187; otherwise, [p] being the record logged
    just before, concurrent exactly when [p] is a key press. *)
Theorem judgeConcurrency_key_event (w : Controller) (m : ActionMap.t) :
  ActionJson.type (ActionMap.entries m) = Android.TYPE_KEYCODE ->
  (ActionJson.action (ActionMap.entries m) = Some Android.KEY_ACTION_UP ->
   judgeConcurrency w (Some m) = Val true)
  /\ (ActionJson.action (ActionMap.entries m) <> Some Android.KEY_ACTION_UP ->
      (exists c, ActionJson.keycode (ActionMap.entries m) = Some c
                 /\ In c [3; 4; 24; 25; 26; 187]) ->
      judgeConcurrency w (Some m) = Val false)
  /\ (ActionJson.action (ActionMap.entries m) <> Some Android.KEY_ACTION_UP ->
      (forall c, ActionJson.keycode (ActionMap.entries m) = Some c ->
                 ~ In c [3; 4; 24; 25; 26; 187]) ->
      forall p, immediatelyPrecedes w p m ->
      judgeConcurrency w (Some m) = Val (isKeyPress p)).
Proof.
  intros Htype. unfold judgeConcurrency. rewrite Htype.
  change (existsb (Z.eqb Android.TYPE_KEYCODE) nonConcurrentType) with false.
  change (Android.TYPE_KEYCODE =? 0) with true.
  cbv iota.
  assert (Hrelease : ActionJson.action (ActionMap.entries m)
                     <> Some Android.KEY_ACTION_UP ->
                     eqNum (ActionJson.action (ActionMap.entries m)) 1 = false).
  { intros Hne. destruct (ActionJson.action (ActionMap.entries m)) as [a|];
      [|reflexivity].
    simpl. apply Z.eqb_neq. intros ->. apply Hne. reflexivity. }
  repeat split.
  - intros Hact. rewrite Hact. reflexivity.
  - intros Hne (c & Hc & Hin). rewrite (Hrelease Hne), Hc.
    unfold includes, nonConcurrentKeyCode.
    apply existsb_eqb_In in Hin. rewrite Hin. reflexivity.
  - intros Hne Hout p Hp. rewrite (Hrelease Hne).
    assert (includes nonConcurrentKeyCode
              (ActionJson.keycode (ActionMap.entries m)) = false) as ->.
    { destruct (ActionJson.keycode (ActionMap.entries m)) as [c|];
        [|reflexivity].
      unfold includes, nonConcurrentKeyCode.
      apply existsb_eqb_not_In. apply Hout. reflexivity. }
    rewrite (getLastAction_immediatelyPrecedes w p m Hp).
    unfold isKeyPress, Android.TYPE_KEYCODE, Android.KEY_ACTION_DOWN.
    destruct ((ActionJson.type (ActionMap.entries p) =? 0)
              && eqNum (ActionJson.action (ActionMap.entries p)) 0);
      reflexivity.
Qed.

(** ** The fast path *)

Lemma logAction_heap w actionMap now :
  heap (logAction w actionMap now) = heap w ++ [actionMap].
Proof. reflexivity. Qed.

Lemma logAction_own_record w actionMap now :
  lookupAction (logAction w actionMap now) now = Some actionMap.
Proof.
  unfold lookupAction, logAction. simpl. rewrite JsMap_get_set_eq.
  apply list_lookup_middle. reflexivity.
Qed.

Lemma setExecuted_own_record w actionMap now b :
  heap (setExecuted (length (heap w)) b (logAction w actionMap now))
  = heap w ++ [ActionMap.setExecuted b actionMap].
Proof.
  unfold setExecuted, logAction. simpl.
  rewrite alter_app_r_alt by lia. rewrite Nat.sub_diag. reflexivity.
Qed.

(** C6.  A command whose type is one of 4, 8, 9, 10, 101, 102 is forwarded
    in the call of [sendEvent] itself, the authorization request is issued
    with [concurrency] false and not awaited (the call returns), the record
    is marked [executed = true]; the stored answer of the service is not
    read. *)
Theorem fast_path_forwards_at_once (r : Receiver) (w : Controller)
  (event : ControlMessage.t) (now : Z) :
  In (ControlMessage.type event) [4; 8; 9; 10; 101; 102] ->
  let action_json := make_action_json r event now in
  let s := sendEvent r w event now in
  completion s = Returned
  /\ forwarded w event s
  /\ effects s
     = (if wsOpen w then [ws_send event] else [])
       ++ [fetch_sendAction action_json false]
  /\ resolution s (length (heap w)) = Some (Some true)
  /\ lookupAction (world s) now
     = Some (ActionMap.setExecuted true (newActionMap action_json))
  /\ action_time (world s) = action_time w
  /\ action_flag (world s) = action_flag w.
Proof.
  intros Hfast action_json s.
  assert (Hs : s = let '(w1, sent) :=
                     sendActionEvent (logAction w (newActionMap action_json) now)
                       event in
                   {| world := setExecuted (length (heap w)) true w1;
                      effects := sent ++ [fetch_sendAction action_json false];
                      completion := Returned |}).
  { subst s. unfold sendEvent. lazy zeta.
    change (ActionJson.type (make_action_json r event now))
      with (ControlMessage.type event).
    apply existsb_eqb_In in Hfast. unfold sideEffectFree. rewrite Hfast.
    reflexivity. }
  rewrite Hs. unfold sendActionEvent, forwarded, resolution, lookupAction.
  change (wsOpen (logAction w (newActionMap action_json) now)) with (wsOpen w).
  destruct (wsOpen w) eqn:Hopen; simpl.
  - repeat split; auto.
    + rewrite alter_app_r_alt by lia. rewrite Nat.sub_diag. simpl.
      rewrite list_lookup_middle by reflexivity. reflexivity.
    + rewrite JsMap_get_set_eq. rewrite alter_app_r_alt by lia.
      rewrite Nat.sub_diag. simpl. apply list_lookup_middle. reflexivity.
  - repeat split; auto.
    + rewrite alter_app_r_alt by lia. rewrite Nat.sub_diag. simpl.
      rewrite list_lookup_middle by reflexivity. reflexivity.
    + rewrite JsMap_get_set_eq. rewrite alter_app_r_alt by lia.
      rewrite Nat.sub_diag. simpl. apply list_lookup_middle. reflexivity.
Qed.

(** ** The first command *)

(** C10.  For the first record of the log, not on the fast path and
    logged at a time other than 0, key 0 is not in [actionMaps], both
    predecessor lookups answer [undefined], and [sendEvent] throws a
    [TypeError], the record logged and left unresolved, nothing forwarded and
    no request sent. *)
Theorem first_command_throws (r : Receiver) (w : Controller)
  (event : ControlMessage.t) (now : Z) :
  actionMaps w = [] -> now <> 0 ->
  ~ In (ControlMessage.type event) sideEffectFree ->
  let actionMap := newActionMap (make_action_json r event now) in
  let logged := logAction w actionMap now in
  JsMap.get (actionMaps logged) 0 = None
  /\ getLastAction logged actionMap = None
  /\ getLastExecutedAction logged actionMap = None
  /\ sendEvent r w event now
     = {| world := logged; effects := []; completion := Threw TypeError |}
  /\ lookupAction logged now = Some actionMap
  /\ ActionMap.executed actionMap = None.
Proof.
  intros Hempty Hnow Hslow actionMap logged.
  destruct (first_record_lookups w actionMap now Hempty Hnow eq_refl)
    as [Hla Hle].
  fold logged in Hla, Hle.
  split; [|split; [exact Hla|split; [exact Hle|split; [|split]]]].
  - subst logged. unfold logAction. simpl. rewrite Hempty. simpl.
    destruct (now =? 0) eqn:E; [apply Z.eqb_eq in E; contradiction|reflexivity].
  - unfold sendEvent. lazy zeta. fold actionMap. fold logged.
    change (ActionJson.type (make_action_json r event now))
      with (ControlMessage.type event).
    apply existsb_eqb_not_In in Hslow. rewrite Hslow.
    unfold getLastNonConcurrencyAction. rewrite Hla, Hle.
    unfold judgeConcurrency. rewrite Hla. simpl.
    repeat match goal with
           | |- context [if ?c then _ else _] => destruct c
           end; reflexivity.
  - apply logAction_own_record.
  - reflexivity.
Qed.

(** ** The concurrent path *)

Lemma setExecuted_lookup w i b :
  heap (setExecuted i b w) !! i = ActionMap.setExecuted b <$> heap w !! i.
Proof. unfold setExecuted. simpl. apply list_lookup_alter_eq. Qed.

Lemma setExecuted_lookup_ne w i j b :
  j <> i -> heap (setExecuted i b w) !! j = heap w !! j.
Proof.
  intros Hne. unfold setExecuted. simpl. apply list_lookup_alter_ne. auto.
Qed.

Lemma concurrentVerdict_verdictOf w k p :
  getLastAction w (newActionMap (action_json k)) = Some p ->
  is_Some (heap w !! self k) ->
  verdictOf w k p (concurrentVerdict w k).
Proof.
  intros Hp [own Hown]. unfold concurrentVerdict, verdictOf. rewrite Hp.
  unfold executedTruthy, sendActionEvent, forwarded, notForwarded, resolution.
  destruct (ActionMap.executed p) as [[|]|]; simpl.
  - destruct (wsOpen w) eqn:Hopen; simpl;
      rewrite ?Hopen; repeat split; auto;
      try (intros j Hj; apply list_lookup_alter_ne; auto);
      try (rewrite list_lookup_alter_eq, Hown; reflexivity).
  - repeat split; auto;
      try (intros j Hj; apply list_lookup_alter_ne; auto);
      try (rewrite list_lookup_alter_eq, Hown; reflexivity).
  - repeat split; auto;
      try (intros j Hj; apply list_lookup_alter_ne; auto);
      try (rewrite list_lookup_alter_eq, Hown; reflexivity).
Qed.

(** ** The non-concurrent path *)

(** The spacing gate: with [p] the last executed record before the
    command, more than 500 ms after [p] the authorization request is issued
    and awaited; otherwise [sendEvent] returns and has written nothing, not
    even [executed]. *)
Lemma spacing_gate (r : Receiver) (w : Controller) (event : ControlMessage.t)
  (now : Z) (p : ActionMap.t) :
  let aj := make_action_json r event now in
  let logged := logAction w (newActionMap aj) now in
  let k := {| self := length (heap w); event := event; action_json := aj |} in
  ~ In (ControlMessage.type event) sideEffectFree ->
  judgeConcurrency logged (Some (newActionMap aj)) = Val false ->
  getLastExecutedAction logged (newActionMap aj) = Some p ->
  (now - ActionJson.action_time (ActionMap.entries p) > 500 ->
   sendEvent r w event now
   = {| world := logged; effects := [fetch_sendAction aj false];
        completion := AwaitAuthorization k |})
  /\ (now - ActionJson.action_time (ActionMap.entries p) <= 500 ->
      sendEvent r w event now
      = {| world := logged; effects := []; completion := Returned |}
      /\ resolution (sendEvent r w event now) (length (heap w)) = Some None).
Proof.
  intros aj logged k Hslow Hjudge Hp.
  assert (Hcall : sendEvent r w event now
                  = if now - ActionJson.action_time (ActionMap.entries p) >? 500
                    then {| world := logged;
                            effects := [fetch_sendAction aj false];
                            completion := AwaitAuthorization k |}
                    else {| world := logged; effects := [];
                            completion := Returned |}).
  { unfold sendEvent. lazy zeta. fold aj. fold logged.
    change (ActionJson.type aj) with (ControlMessage.type event).
    apply existsb_eqb_not_In in Hslow. rewrite Hslow.
    rewrite Hjudge, Hp. reflexivity. }
  split; intros Hgap; rewrite Hcall.
  - destruct (_ >? 500) eqn:E; [reflexivity|].
    rewrite Z.gtb_ltb in E. apply Z.ltb_ge in E. lia.
  - destruct (_ >? 500) eqn:E.
    + rewrite Z.gtb_ltb in E. apply Z.ltb_lt in E. lia.
    + split; [reflexivity|]. unfold resolution, logged, logAction. simpl.
      rewrite list_lookup_middle by reflexivity. reflexivity.
Qed.


(** [v == n] holds exactly when [v] is neither [undefined] nor [null] and
    converts to the number [n]. *)
Lemma looseEqNumber_cases (v : JsVal) (n : Z) :
  looseEqNumber v n = true
  <-> v <> JsUndefined /\ v <> JsNull /\ toNumber v = Some n.
Proof.
  destruct v as [|b|m| | | |[m|]|[m|]]; cbn [looseEqNumber toNumber];
    rewrite ?Z.eqb_eq;
    (split;
     [intros Heq; try discriminate;
      (split; [discriminate|split; [discriminate|congruence]])
     |intros (Hu & Hn & Heq); try congruence]).
Qed.


(** ** Which submissions end with the record resolved *)

Lemma lastExecutedKeyBefore_none (w : Controller) (keys : list Z) (t lastKey : Z) :
  (forall key, In key keys -> executedTruthy (lookupAction w key) = false) ->
  lastExecutedKeyBefore w keys t lastKey = lastKey.
Proof.
  revert lastKey. induction keys as [|key keys IH]; intros lastKey Hnone; simpl.
  - reflexivity.
  - destruct (key =? t); [reflexivity|].
    rewrite (Hnone key) by (simpl; auto). apply IH.
    intros key' Hin. apply Hnone. simpl. auto.
Qed.

(** The spacing check needs an executed record: a non-concurrent command
    logged when no record of the log is executed, and none is under key 0,
    makes [sendEvent] throw. *)
Lemma spacing_check_needs_executed_record (r : Receiver) (w : Controller)
  (event : ControlMessage.t) (now : Z) :
  let aj := make_action_json r event now in
  let logged := logAction w (newActionMap aj) now in
  ~ In (ControlMessage.type event) sideEffectFree ->
  judgeConcurrency logged (Some (newActionMap aj)) = Val false ->
  (forall key, In key (JsMap.keys (actionMaps logged)) ->
               executedTruthy (lookupAction logged key) = false) ->
  JsMap.get (actionMaps logged) 0 = None ->
  sendEvent r w event now
  = {| world := logged; effects := []; completion := Threw TypeError |}.
Proof.
  intros aj logged Hslow Hjudge Hnone Hzero.
  unfold sendEvent. lazy zeta. fold aj. fold logged.
  change (ActionJson.type aj) with (ControlMessage.type event).
  apply existsb_eqb_not_In in Hslow. rewrite Hslow, Hjudge.
  unfold getLastExecutedAction.
  rewrite (lastExecutedKeyBefore_none logged _ _ 0 Hnone).
  unfold lookupAction. rewrite Hzero. reflexivity.
Qed.

Lemma concurrentVerdict_resolves (w : Controller) (k : Locals) :
  is_Some (heap w !! self k) ->
  completion (concurrentVerdict w k) = Returned ->
  exists b, resolution (concurrentVerdict w k) (self k) = Some (Some b).
Proof.
  intros [own Hown]. unfold concurrentVerdict, resolution.
  destruct (getLastAction w _) as [la|]; [|discriminate].
  destruct (executedTruthy (Some la)).
  - unfold sendActionEvent. destruct (wsOpen w); simpl; intros _;
      exists true; rewrite list_lookup_alter_eq, Hown; reflexivity.
  - simpl. intros _. exists false.
    rewrite list_lookup_alter_eq, Hown. reflexivity.
Qed.

(** A call of [sendEvent] that returns has resolved its record, unless it
    returned from the spacing check: then the record is unset. *)
Lemma sendEvent_returned (r : Receiver) (w : Controller)
  (event : ControlMessage.t) (now : Z) :
  let aj := make_action_json r event now in
  let logged := logAction w (newActionMap aj) now in
  let s := sendEvent r w event now in
  completion s = Returned ->
  (exists b, resolution s (length (heap w)) = Some (Some b))
  \/ (resolution s (length (heap w)) = Some None
      /\ s = {| world := logged; effects := []; completion := Returned |}
      /\ judgeConcurrency logged (Some (newActionMap aj)) = Val false
      /\ exists p, getLastExecutedAction logged (newActionMap aj) = Some p
                   /\ now - ActionJson.action_time (ActionMap.entries p) <= 500).
Proof.
  intros aj logged s. subst s. unfold sendEvent. lazy zeta.
  fold aj. fold logged.
  set (k := {| self := length (heap w); event := event; action_json := aj |}).
  assert (Hown : is_Some (heap logged !! self k)).
  { unfold logged, logAction. simpl.
    rewrite list_lookup_middle by reflexivity. eauto. }
  destruct (existsb _ sideEffectFree).
  - intros _. left. exists true. unfold resolution, sendActionEvent.
    destruct (wsOpen logged); simpl;
      rewrite alter_app_r_alt by lia; rewrite Nat.sub_diag; simpl;
      rewrite list_lookup_middle by reflexivity; reflexivity.
  - destruct (judgeConcurrency logged _) as [[|]|e|] eqn:Hj; simpl;
      try discriminate.
    + destruct (getLastNonConcurrencyAction logged _) as [anc|e|]; simpl;
        try discriminate.
      destruct (getLastAction logged _) as [la|]; simpl; try discriminate.
      destruct (ActionMap.executed la); simpl; try discriminate.
      intros Hret. left.
      apply (concurrentVerdict_resolves logged k Hown Hret).
    + destruct (getLastExecutedAction logged _) as [p|] eqn:Hp; simpl;
        try discriminate.
      destruct (_ >? 500) eqn:E; simpl; try discriminate.
      intros _. right. split; [|split; [reflexivity|split; [reflexivity|]]].
      * unfold resolution, logged, logAction. simpl.
        rewrite list_lookup_middle by reflexivity. reflexivity.
      * exists p. split; [reflexivity|].
        rewrite Z.gtb_ltb in E. apply Z.ltb_ge in E. lia.
Qed.

End AdmissionProofs.

(** ** A record is resolved at most once *)

Section MachineProofs.
Context `{Externals}.

Lemma sendActionEvent_heap w event :
  heap (fst (sendActionEvent w event)) = heap w.
Proof. unfold sendActionEvent. destruct (wsOpen w); reflexivity. Qed.

Lemma concurrentVerdict_heap w k :
  heapStep w (world (concurrentVerdict w k)) (self k)
  /\ parkedBy (completion (concurrentVerdict w k)) = [].
Proof.
  unfold concurrentVerdict, heapStep.
  destruct (getLastAction w _) as [la|]; [|simpl; auto].
  destruct (executedTruthy (Some la)).
  - pose proof (sendActionEvent_heap w (event k)) as Hh.
    destruct (sendActionEvent w (event k)) as [w1 sent]. simpl in *.
    split; [|reflexivity]. right. exists true. now rewrite Hh.
  - simpl. split; [|reflexivity]. right. exists false. reflexivity.
Qed.

Lemma afterTimeout_heap w k now :
  let s := afterTimeout w k now in
  (world s = w /\ (parkedBy (completion s) = [] \/ parkedBy (completion s) = [(OnTimer, k)]))
  \/ (heapStep w (world s) (self k) /\ parkedBy (completion s) = []).
Proof.
  unfold afterTimeout. lazy zeta.
  destruct (getLastAction w _) as [la|]; [|simpl; auto].
  destruct (_ >? 3000); [right; apply concurrentVerdict_heap|].
  destruct (hasExecuted la); [right; apply concurrentVerdict_heap|].
  left. simpl. auto.
Qed.

Lemma afterAuthorization_heap w k :
  heapStep w (world (afterAuthorization w k)) (self k)
  /\ parkedBy (completion (afterAuthorization w k)) = [].
Proof.
  unfold afterAuthorization, heapStep.
  destruct (looseEqNumber _ _); [destruct (looseEqTrue _)|]; simpl.
  - pose proof (sendActionEvent_heap w (event k)) as Hh.
    destruct (sendActionEvent w (event k)) as [w1 sent]. simpl in *.
    split; [|reflexivity]. right. exists true. now rewrite Hh.
  - split; [|reflexivity]. right. exists false. reflexivity.
  - split; [|reflexivity]. right. exists false. reflexivity.
Qed.

Lemma onAuthorizationSettled_heap w k resp :
  heapStep w (world (onAuthorizationSettled w k resp)) (self k)
  /\ parkedBy (completion (onAuthorizationSettled w k resp)) = [].
Proof.
  unfold onAuthorizationSettled.
  destruct (afterAuthorization_heap (sendAction_settled w resp) k) as [Hh Hp].
  split; [|exact Hp]. destruct resp; exact Hh.
Qed.

(** [sendEvent] appends one record; if it parks, it parks as that record's
    invocation, the record unset. *)
Lemma sendEvent_heap r w event now :
  let s := sendEvent r w event now in
  let own := newActionMap (make_action_json r event now) in
  (heap (world s) = heap w ++ [own]
   /\ (parkedBy (completion s) = []
       \/ exists a k, parkedBy (completion s) = [(a, k)]
                      /\ self k = length (heap w)))
  \/ (exists b, heap (world s) = heap w ++ [ActionMap.setExecuted b own])
     /\ parkedBy (completion s) = [].
Proof.
  unfold sendEvent. lazy zeta.
  set (aj := make_action_json r event now).
  set (logged := logAction w (newActionMap aj) now).
  set (k := {| self := length (heap w); event := event; action_json := aj |}).
  assert (Hverdict :
    (heap (world (concurrentVerdict logged k)) = heap w ++ [newActionMap aj]
     /\ (parkedBy (completion (concurrentVerdict logged k)) = []
         \/ exists a k', parkedBy (completion (concurrentVerdict logged k)) = [(a, k')]
                         /\ self k' = length (heap w)))
    \/ (exists b, heap (world (concurrentVerdict logged k))
                  = heap w ++ [ActionMap.setExecuted b (newActionMap aj)])
       /\ parkedBy (completion (concurrentVerdict logged k)) = []).
  { destruct (concurrentVerdict_heap logged k) as [[Hh|[b Hh]] Hp].
    - left. split; [exact Hh|left; exact Hp].
    - right. split; [|exact Hp]. exists b. rewrite Hh. simpl.
      rewrite alter_app_r_alt by lia. rewrite Nat.sub_diag. reflexivity. }
  destruct (existsb _ sideEffectFree).
  - pose proof (sendActionEvent_heap logged event) as Hh.
    destruct (sendActionEvent logged event) as [w1 sent]. simpl in *.
    right. split; [|reflexivity]. exists true. rewrite Hh. simpl.
    rewrite alter_app_r_alt by lia. rewrite Nat.sub_diag. reflexivity.
  - destruct (judgeConcurrency logged _) as [[|]|e|]; simpl; auto.
    + destruct (getLastNonConcurrencyAction logged _) as [anc|e|]; simpl; auto.
      destruct (getLastAction logged _) as [la|]; simpl; auto.
      destruct (ActionMap.executed la); [exact Hverdict|].
      simpl. left. split; [reflexivity|]. right. exists OnTimer, k. auto.
    + destruct (getLastExecutedAction logged _) as [le|]; simpl; auto.
      destruct (_ >? 500); simpl; auto.
      left. split; [reflexivity|]. right. exists OnRequest, k. auto.
Qed.

Lemma pending_lt w i : pending w i -> (i < length (heap w))%nat.
Proof. intros (m & Hm & _). apply lookup_lt_Some in Hm. exact Hm. Qed.

Lemma resolved_not_pending w i b : resolved w i b -> ~ pending w i.
Proof. intros (m & Hm & Hb) (m' & Hm' & Hn). congruence. Qed.

(** Facts carried from one controller to the next when the heap is left
    alone, grows at its end, or is written at a pending record. *)
Lemma pending_same_heap w w' i :
  heap w' = heap w -> pending w i -> pending w' i.
Proof. unfold pending. intros ->. auto. Qed.

Lemma resolved_same_heap w w' i b :
  heap w' = heap w -> resolved w i b -> resolved w' i b.
Proof. unfold resolved. intros ->. auto. Qed.

Lemma pending_grow w w' x i :
  heap w' = heap w ++ [x] -> pending w i -> pending w' i.
Proof.
  intros Hh (m & Hm & Hn). exists m. rewrite Hh.
  split; [|exact Hn]. apply lookup_app_l_Some. exact Hm.
Qed.

Lemma resolved_grow w w' x i b :
  heap w' = heap w ++ [x] -> resolved w i b -> resolved w' i b.
Proof.
  intros Hh (m & Hm & Hn). exists m. rewrite Hh.
  split; [|exact Hn]. apply lookup_app_l_Some. exact Hm.
Qed.

Lemma pending_write_other w w' own c i :
  heap w' = alter (ActionMap.setExecuted c) own (heap w) ->
  i <> own -> pending w i -> pending w' i.
Proof.
  intros Hh Hne (m & Hm & Hn). exists m. rewrite Hh.
  split; [|exact Hn]. rewrite list_lookup_alter_ne by auto. exact Hm.
Qed.

Lemma resolved_write_other w w' own c i b :
  heap w' = alter (ActionMap.setExecuted c) own (heap w) ->
  i <> own -> resolved w i b -> resolved w' i b.
Proof.
  intros Hh Hne (m & Hm & Hn). exists m. rewrite Hh.
  split; [|exact Hn]. rewrite list_lookup_alter_ne by auto. exact Hm.
Qed.

Lemma parked_split (m : Machine) i a k :
  parked m !! i = Some (a, k) -> consistent m ->
  ~ In (self k) (map (fun p => self (snd p)) (delete i (parked m)))
  /\ NoDup (map (fun p => self (snd p)) (delete i (parked m)))
  /\ pending (controller m) (self k)
  /\ Forall (fun p => pending (controller m) (self (snd p))) (delete i (parked m)).
Proof.
  intros Hi [Hnd Hall].
  pose proof (delete_Permutation _ _ _ Hi) as Hperm.
  assert (Hperm' : map (fun p => self (snd p)) (parked m)
                   ≡ₚ self k :: map (fun p => self (snd p)) (delete i (parked m))).
  { rewrite Hperm at 1. reflexivity. }
  rewrite Hperm' in Hnd. apply NoDup_cons in Hnd as [Hnotin Hnd'].
  rewrite Hperm in Hall. apply Forall_cons in Hall as [Hk Hrest].
  split; [|auto]. intros Hin. apply Hnotin. apply list_elem_of_In. exact Hin.
Qed.

(** A parked invocation goes on and ends: the others stay as they are, and
    whatever was resolved stays resolved. *)
Lemma finish_parked (m : Machine) i a k w' :
  parked m !! i = Some (a, k) -> consistent m ->
  heapStep (controller m) w' (self k) ->
  consistent {| controller := w'; parked := delete i (parked m) |}
  /\ forall j b, resolved (controller m) j b -> resolved w' j b.
Proof.
  intros Hi Hcons Hstep.
  destruct (parked_split m i a k Hi Hcons) as (Hnotin & Hnd & Hk & Hrest).
  destruct Hstep as [Hh|[c Hh]].
  - split.
    + split; [exact Hnd|]. simpl.
      eapply Forall_impl; [exact Hrest|]. intros p Hp.
      apply (pending_same_heap _ _ _ Hh Hp).
    + intros j b. apply resolved_same_heap. exact Hh.
  - split.
    + split; [exact Hnd|]. simpl.
      apply Forall_forall. intros p Hp.
      apply (pending_write_other _ _ _ _ _ Hh).
      * intros Heq. apply Hnotin. rewrite <- Heq.
        apply in_map_iff. exists p. split; [reflexivity|].
        apply list_elem_of_In. exact Hp.
      * rewrite Forall_forall in Hrest. apply Hrest. exact Hp.
    + intros j b Hres. apply (resolved_write_other _ _ _ _ _ _ Hh); [|exact Hres].
      intros ->. exact (resolved_not_pending _ _ _ Hres Hk).
Qed.

(** A parked invocation goes on and parks again, the controller untouched. *)
Lemma park_again (m : Machine) i a k :
  parked m !! i = Some (a, k) -> consistent m ->
  consistent {| controller := controller m;
                parked := delete i (parked m) ++ [(a, k)] |}.
Proof.
  intros Hi Hcons.
  destruct (parked_split m i a k Hi Hcons) as (Hnotin & Hnd & Hk & Hrest).
  split; simpl.
  - rewrite map_app. simpl. apply NoDup_app. split; [exact Hnd|].
    split; [|apply NoDup_singleton].
    intros x Hx Hx'. apply list_elem_of_singleton in Hx'. subst x.
    apply Hnotin. apply list_elem_of_In. exact Hx.
  - apply Forall_app. split; [exact Hrest|]. apply Forall_singleton. exact Hk.
Qed.

(** [sendEvent] has run: one record more, and perhaps one parked
    invocation more, that of the new record. *)
Lemma add_record (m : Machine) w' x added :
  heap w' = heap (controller m) ++ [x] ->
  (added = []
   \/ exists a k, added = [(a, k)]
                  /\ self k = length (heap (controller m))
                  /\ ActionMap.executed x = None) ->
  consistent m ->
  consistent {| controller := w'; parked := parked m ++ added |}
  /\ forall j b, resolved (controller m) j b -> resolved w' j b.
Proof.
  intros Hh Hadded [Hnd Hall]. split.
  - assert (Hold : Forall (fun p => pending w' (self (snd p))) (parked m)).
    { eapply Forall_impl; [exact Hall|]. intros p Hp.
      apply (pending_grow _ _ _ _ Hh Hp). }
    destruct Hadded as [->|(a & k & -> & Hself & Hx)].
    + rewrite app_nil_r. split; assumption.
    + split; simpl.
      * rewrite map_app. simpl. apply NoDup_app. split; [exact Hnd|].
        split; [|apply NoDup_singleton].
        intros i Hi Hi'. apply list_elem_of_singleton in Hi'. subst i.
        apply list_elem_of_In, in_map_iff in Hi as (p & Hp & Hin).
        rewrite Forall_forall in Hall.
        apply list_elem_of_In in Hin.
        specialize (Hall p Hin). apply pending_lt in Hall. lia.
      * apply Forall_app. split; [exact Hold|]. apply Forall_singleton.
        exists x. simpl. rewrite Hh, Hself. split; [|exact Hx].
        apply list_lookup_middle. reflexivity.
  - intros j b. apply (resolved_grow _ _ _ _ _ Hh).
Qed.

Lemma sendEvent_task (m : Machine) r w event now :
  heap w = heap (controller m) -> consistent m ->
  let s := sendEvent r w event now in
  consistent {| controller := world s;
                parked := parked m ++ parkedBy (completion s) |}
  /\ forall j b, resolved (controller m) j b -> resolved (world s) j b.
Proof.
  intros Hw Hcons s.
  destruct (sendEvent_heap r w event now) as [[Hh Hp]|[[b Hh] Hp]];
    fold s in Hh, Hp; rewrite Hw in Hh.
  - apply (add_record m (world s) _ _ Hh); [|exact Hcons].
    destruct Hp as [->|(a & k & -> & Hself)]; [left; reflexivity|].
    right. exists a, k. rewrite <- Hw. auto.
  - rewrite Hp. apply (add_record m (world s) _ [] Hh); [left; reflexivity|].
    exact Hcons.
Qed.

(** Each task keeps the machine consistent and every resolved record as it
    is. *)
Lemma runTask_keeps (m : Machine) (t : Task) :
  consistent m ->
  consistent (fst (runTask m t))
  /\ forall j b, resolved (controller m) j b ->
                 resolved (controller (fst (runTask m t))) j b.
Proof.
  intros Hcons. destruct t as [r event now|r now|i now|i resp|resp|b]; simpl.
  - apply sendEvent_task; [reflexivity|exact Hcons].
  - destruct (events (controller m)) as [|e queue]; simpl; [auto|].
    apply sendEvent_task; [reflexivity|exact Hcons].
  - destruct (parked m !! i) as [[[|] k]|] eqn:Hi; simpl; auto.
    destruct (afterTimeout_heap (controller m) k now) as [[Hw Hp]|[Hstep Hp]].
    + rewrite Hw. split; [|auto].
      destruct Hp as [->| ->].
      * rewrite app_nil_r.
        apply (finish_parked m i OnTimer k (controller m) Hi Hcons).
        left. reflexivity.
      * apply (park_again m i OnTimer k Hi Hcons).
    + rewrite Hp, app_nil_r.
      apply (finish_parked m i OnTimer k _ Hi Hcons Hstep).
  - destruct (parked m !! i) as [[[|] k]|] eqn:Hi; simpl; auto.
    destruct (onAuthorizationSettled_heap (controller m) k resp) as [Hstep Hp].
    rewrite Hp, app_nil_r.
    apply (finish_parked m i OnRequest k _ Hi Hcons Hstep).
  - destruct Hcons as [Hnd Hall]. split; [split; [exact Hnd|]|].
    + simpl. eapply Forall_impl; [exact Hall|]. intros p Hp.
      apply (pending_same_heap (controller m)); [|exact Hp].
      destruct resp; reflexivity.
    + intros j c. apply resolved_same_heap. destruct resp; reflexivity.
  - destruct Hcons as [Hnd Hall]. split; [split; [exact Hnd|]|]; auto.
Qed.

Lemma runTasks_keeps (ts : list Task) (m : Machine) :
  consistent m ->
  consistent (runTasks m ts)
  /\ forall j b, resolved (controller m) j b ->
                 resolved (controller (runTasks m ts)) j b.
Proof.
  revert m. induction ts as [|t ts IH]; intros m Hcons; simpl; [auto|].
  destruct (runTask_keeps m t Hcons) as [Hcons' Hres].
  destruct (IH _ Hcons') as [Hcons'' Hres'].
  split; [exact Hcons''|]. intros j b Hjb. apply Hres', Hres, Hjb.
Qed.

(** However the event loop schedules calls, timers and answers: once
    [executed] of a record is set, it keeps that value for good. *)
Theorem executed_is_written_at_most_once (before after : list Task)
  (j : nat) (b : bool) :
  resolved (controller (runTasks newMachine before)) j b ->
  resolved (controller (runTasks newMachine (before ++ after))) j b.
Proof.
  intros Hres. unfold runTasks. rewrite fold_left_app.
  assert (Hcons : consistent newMachine).
  { split; simpl; [apply NoDup_nil_2|apply Forall_nil_2]. }
  destruct (runTasks_keeps before newMachine Hcons) as [Hmid _].
  apply (runTasks_keeps after _ Hmid). exact Hres.
Qed.

(** ** The walk of [getLastNonConcurrencyAction] ends *)

Lemma rank_lt_of_In_firstn (keys : list Z) (x : Z) (n : nat) :
  In x (firstn n keys) -> (rank keys x < n)%nat.
Proof.
  revert n. induction keys as [|k keys IH]; intros [|n]; simpl; try tauto.
  intros [->|Hin].
  - rewrite Z.eqb_refl. lia.
  - destruct (k =? x); [lia|]. apply IH in Hin. lia.
Qed.

Lemma lastKeyBefore_rank (keys : list Z) (t lastKey : Z) :
  (rank keys t = O /\ lastKeyBefore keys t lastKey = lastKey)
  \/ In (lastKeyBefore keys t lastKey) (firstn (rank keys t) keys).
Proof.
  revert lastKey. induction keys as [|k keys IH]; intros lastKey; simpl.
  - left. auto.
  - destruct (k =? t); [left; auto|]. right.
    destruct (IH k) as [[Hr ->]|Hin]; simpl; auto.
Qed.

Lemma JsMap_get_Some_In {V} (m : JsMap.t V) k v :
  JsMap.get m k = Some v -> In k (JsMap.keys m).
Proof.
  induction m as [|[k' v'] m IH]; simpl; [discriminate|].
  destruct (k' =? k) eqn:E; [apply Z.eqb_eq in E; auto|auto].
Qed.

(** With every record under its own key and no record under key 0, the
    record before [m] stands earlier in the log than [m]. *)
Lemma getLastAction_earlier (w : Controller) (m m' : ActionMap.t) :
  keyed w -> ~ In 0 (JsMap.keys (actionMaps w)) ->
  getLastAction w m = Some m' ->
  (rank (JsMap.keys (actionMaps w)) (ActionJson.action_time (ActionMap.entries m'))
   < rank (JsMap.keys (actionMaps w)) (ActionJson.action_time (ActionMap.entries m)))%nat.
Proof.
  intros Hkeyed Hzero Hla. unfold getLastAction in Hla.
  set (t := ActionJson.action_time (ActionMap.entries m)) in *.
  set (keys := JsMap.keys (actionMaps w)) in *.
  unfold lookupAction in Hla.
  destruct (JsMap.get (actionMaps w) (lastKeyBefore keys t 0)) as [ref|] eqn:Hget;
    [|discriminate].
  destruct (Hkeyed _ _ Hget) as (m0 & Hm0 & Htime).
  assert (m0 = m') as -> by congruence. rewrite Htime.
  assert (Hin : In (lastKeyBefore keys t 0) keys)
    by (apply JsMap_get_Some_In in Hget; exact Hget).
  destruct (lastKeyBefore_rank keys t 0) as [[_ Hfallback]|Hfirst].
  - rewrite Hfallback in Hin. contradiction.
  - apply rank_lt_of_In_firstn. exact Hfirst.
Qed.

Lemma walkBack_ends (w : Controller) (fuel : nat) (la : option ActionMap.t) :
  keyed w -> ~ In 0 (JsMap.keys (actionMaps w)) ->
  match la with
  | None => (1 <= fuel)%nat
  | Some m =>
      (rank (JsMap.keys (actionMaps w))
         (ActionJson.action_time (ActionMap.entries m)) + 2 <= fuel)%nat
  end ->
  walkBack fuel w la <> Loops.
Proof.
  intros Hkeyed Hzero. revert la.
  induction fuel as [|fuel IH]; intros la Hfuel.
  - destruct la; lia.
  - simpl. destruct la as [m|]; [|simpl; discriminate].
    destruct (judgeConcurrency w (Some m)) as [[|]|e|] eqn:Hj;
      try discriminate.
    + destruct (getLastAction w m) as [m'|] eqn:Hla.
      * apply IH. pose proof (getLastAction_earlier w m m' Hkeyed Hzero Hla). lia.
      * apply IH. lia.
    + exfalso. unfold judgeConcurrency in Hj.
      repeat match type of Hj with
             | context [match ?c with _ => _ end] => destruct c
             end; discriminate.
Qed.

Lemma rank_le_length (keys : list Z) (t : Z) : (rank keys t <= length keys)%nat.
Proof.
  induction keys as [|k keys IH]; simpl; [lia|]. destruct (k =? t); lia.
Qed.

Lemma rank_lt_length (keys : list Z) (t : Z) :
  In t keys -> (rank keys t < length keys)%nat.
Proof.
  induction keys as [|k keys IH]; simpl; [tauto|].
  destruct (k =? t) eqn:E; [lia|]. intros [->|Hin].
  - rewrite Z.eqb_refl in E. discriminate.
  - apply IH in Hin. lia.
Qed.

(** The fuel of [getLastNonConcurrencyAction] is enough: in a log with
    every record under its own key and none under key 0, the walk from a
    logged record returns or throws. *)
Lemma getLastNonConcurrencyAction_ends (w : Controller) (m : ActionMap.t) :
  keyed w -> ~ In 0 (JsMap.keys (actionMaps w)) ->
  In (ActionJson.action_time (ActionMap.entries m)) (JsMap.keys (actionMaps w)) ->
  getLastNonConcurrencyAction w m <> Loops.
Proof.
  intros Hkeyed Hzero Hin. unfold getLastNonConcurrencyAction.
  apply walkBack_ends; [exact Hkeyed|exact Hzero|].
  pose proof (rank_lt_length _ _ Hin) as Hlt.
  unfold JsMap.keys in *. rewrite length_map in Hlt.
  destruct (getLastAction w m) as [m'|] eqn:Hla; [|lia].
  pose proof (getLastAction_earlier w m m' Hkeyed Hzero Hla) as Hearlier.
  unfold JsMap.keys in *. lia.
Qed.

Lemma judgeConcurrency_never_loops (w : Controller) (la : option ActionMap.t) :
  judgeConcurrency w la <> Loops.
Proof.
  unfold judgeConcurrency. destruct la as [m|]; [|discriminate].
  lazy zeta.
  repeat match goal with
         | |- context [match ?c with _ => _ end] => destruct c
         end; discriminate.
Qed.

Lemma JsMap_keys_set {V} (m : JsMap.t V) k v k' :
  In k' (JsMap.keys (JsMap.set m k v)) <-> k' = k \/ In k' (JsMap.keys m).
Proof.
  induction m as [|[k0 v0] m IH]; simpl.
  - intuition.
  - destruct (k0 =? k) eqn:E; simpl.
    + apply Z.eqb_eq in E. subst k0. intuition.
    + rewrite IH. intuition.
Qed.

Lemma keyed_logAction (w : Controller) (m : ActionMap.t) (now : Z) :
  keyed w -> ActionJson.action_time (ActionMap.entries m) = now ->
  keyed (logAction w m now).
Proof.
  intros Hkeyed Htime k ref. unfold logAction. simpl.
  destruct (Z.eq_dec now k) as [<-|Hne].
  - rewrite JsMap_get_set_eq. intros [= <-]. exists m.
    split; [apply list_lookup_middle; reflexivity|exact Htime].
  - rewrite JsMap_get_set_ne by exact Hne. intros Hget.
    destruct (Hkeyed _ _ Hget) as (m0 & Hm0 & Ht). exists m0.
    split; [apply lookup_app_l_Some; exact Hm0|exact Ht].
Qed.

Lemma keyed_same (w w' : Controller) :
  actionMaps w' = actionMaps w ->
  heap w' = heap w \/ (exists b i, heap w' = alter (ActionMap.setExecuted b) i (heap w)) ->
  keyed w -> keyed w'.
Proof.
  intros Hlog Hheap Hkeyed k ref. rewrite Hlog. intros Hget.
  destruct (Hkeyed _ _ Hget) as (m0 & Hm0 & Ht).
  destruct Hheap as [->|(b & i & ->)]; [eauto|].
  destruct (Nat.eq_dec ref i) as [->|Hne].
  - exists (ActionMap.setExecuted b m0).
    rewrite list_lookup_alter_eq, Hm0. auto.
  - exists m0. rewrite list_lookup_alter_ne by auto. auto.
Qed.

Lemma sendActionEvent_log w event :
  actionMaps (fst (sendActionEvent w event)) = actionMaps w.
Proof. unfold sendActionEvent. destruct (wsOpen w); reflexivity. Qed.

Lemma concurrentVerdict_keyed w k :
  keyed w -> keyed (world (concurrentVerdict w k))
  /\ actionMaps (world (concurrentVerdict w k)) = actionMaps w.
Proof.
  intros Hkeyed. unfold concurrentVerdict.
  destruct (getLastAction w _) as [la|]; [|simpl; auto].
  destruct (executedTruthy (Some la)).
  - pose proof (sendActionEvent_heap w (event k)) as Hh.
    pose proof (sendActionEvent_log w (event k)) as Hl.
    destruct (sendActionEvent w (event k)) as [w1 sent]. simpl in *.
    split; [|exact Hl].
    apply (keyed_same w); [exact Hl| |exact Hkeyed].
    right. exists true, (self k). simpl. now rewrite Hh.
  - simpl. split; [|reflexivity].
    apply (keyed_same w); [reflexivity| |exact Hkeyed].
    right. exists false, (self k). reflexivity.
Qed.

Lemma afterTimeout_keyed w k now :
  keyed w -> keyed (world (afterTimeout w k now))
  /\ actionMaps (world (afterTimeout w k now)) = actionMaps w.
Proof.
  intros Hkeyed. unfold afterTimeout. lazy zeta.
  destruct (getLastAction w _) as [la|]; [|simpl; auto].
  destruct (_ >? 3000); [apply concurrentVerdict_keyed; exact Hkeyed|].
  destruct (hasExecuted la); [apply concurrentVerdict_keyed; exact Hkeyed|].
  simpl. auto.
Qed.

Lemma afterAuthorization_keyed w k :
  keyed w -> keyed (world (afterAuthorization w k))
  /\ actionMaps (world (afterAuthorization w k)) = actionMaps w.
Proof.
  intros Hkeyed. unfold afterAuthorization.
  destruct (looseEqNumber _ _); [destruct (looseEqTrue _)|]; simpl.
  - pose proof (sendActionEvent_heap w (event k)) as Hh.
    pose proof (sendActionEvent_log w (event k)) as Hl.
    destruct (sendActionEvent w (event k)) as [w1 sent]. simpl in *.
    split; [|exact Hl].
    apply (keyed_same w); [exact Hl| |exact Hkeyed].
    right. exists true, (self k). simpl. now rewrite Hh.
  - split; [|reflexivity].
    apply (keyed_same w); [reflexivity| |exact Hkeyed].
    right. exists false, (self k). reflexivity.
  - split; [|reflexivity].
    apply (keyed_same w); [reflexivity| |exact Hkeyed].
    right. exists false, (self k). reflexivity.
Qed.

(** [sendEvent] keeps the log keyed, adds its own key and no other, and
    does not spin in the walk. *)
Lemma sendEvent_keyed (r : Receiver) (w : Controller)
  (event : ControlMessage.t) (now : Z) :
  keyed w -> ~ In 0 (JsMap.keys (actionMaps w)) -> now <> 0 ->
  let s := sendEvent r w event now in
  keyed (world s)
  /\ ~ In 0 (JsMap.keys (actionMaps (world s)))
  /\ completion s <> Diverged.
Proof.
  intros Hkeyed Hzero Hnow. unfold sendEvent. lazy zeta.
  set (aj := make_action_json r event now).
  set (logged := logAction w (newActionMap aj) now).
  set (k := {| self := length (heap w); event := event; action_json := aj |}).
  assert (Hlogged : keyed logged) by (apply keyed_logAction; auto).
  assert (Hzero' : ~ In 0 (JsMap.keys (actionMaps logged))).
  { unfold logged, logAction. simpl. rewrite JsMap_keys_set. intuition. }
  assert (Hown : In now (JsMap.keys (actionMaps logged))).
  { unfold logged, logAction. simpl. rewrite JsMap_keys_set. auto. }
  assert (Hverdict : keyed (world (concurrentVerdict logged k))
                     /\ ~ In 0 (JsMap.keys (actionMaps (world (concurrentVerdict logged k))))
                     /\ completion (concurrentVerdict logged k) <> Diverged).
  { destruct (concurrentVerdict_keyed logged k Hlogged) as [Hk Hl].
    rewrite Hl. split; [exact Hk|split; [exact Hzero'|]].
    unfold concurrentVerdict.
    destruct (getLastAction logged _); [|simpl; discriminate].
    destruct (executedTruthy _); [|simpl; discriminate].
    destruct (sendActionEvent logged _). simpl. discriminate. }
  destruct (existsb _ sideEffectFree).
  - pose proof (sendActionEvent_heap logged event) as Hh.
    pose proof (sendActionEvent_log logged event) as Hl.
    destruct (sendActionEvent logged event) as [w1 sent]. simpl in *.
    rewrite Hl. split; [|split; [exact Hzero'|discriminate]].
    apply (keyed_same logged); [exact Hl| |exact Hlogged].
    right. exists true, (length (heap w)). simpl. now rewrite Hh.
  - destruct (judgeConcurrency logged _) as [[|]|e|] eqn:Hj; simpl.
    + destruct (getLastNonConcurrencyAction logged _) as [anc|e|] eqn:Hwalk;
        simpl.
      * destruct (getLastAction logged _) as [la|]; simpl;
          [|repeat split; auto; discriminate].
        destruct (ActionMap.executed la); [exact Hverdict|].
        simpl. repeat split; auto; discriminate.
      * repeat split; auto; discriminate.
      * exfalso.
        apply (getLastNonConcurrencyAction_ends logged (newActionMap aj));
          auto.
    + destruct (getLastExecutedAction logged _) as [le|]; simpl;
        [|repeat split; auto; discriminate].
      destruct (_ >? 500); simpl; repeat split; auto; discriminate.
    + repeat split; auto; discriminate.
    + exfalso. apply (judgeConcurrency_never_loops _ _ Hj).
Qed.

(** The log of the machine stays keyed, and free of key 0 while the clock
    never answers 0. *)
Lemma runTask_keyed (m : Machine) (t : Task) :
  clockNotZero t ->
  keyed (controller m) /\ ~ In 0 (JsMap.keys (actionMaps (controller m))) ->
  keyed (controller (fst (runTask m t)))
  /\ ~ In 0 (JsMap.keys (actionMaps (controller (fst (runTask m t))))).
Proof.
  intros Hclock [Hkeyed Hzero].
  destruct t as [r event now|r now|i now|i resp|resp|b]; simpl in *.
  - destruct (sendEvent_keyed r (controller m) event now Hkeyed Hzero Hclock)
      as (Hk & Hz & _).
    auto.
  - destruct (events (controller m)) as [|e queue] eqn:Hq; simpl; [auto|].
    assert (Hkeyed' : keyed (with_events (fun _ => queue) (controller m))).
    { apply (keyed_same (controller m)); auto. }
    destruct (sendEvent_keyed r _ e now Hkeyed' Hzero Hclock) as (Hk & Hz & _).
    auto.
  - destruct (parked m !! i) as [[[|] k]|]; simpl; auto.
    destruct (afterTimeout_keyed (controller m) k now Hkeyed) as [Hk Hl].
    rewrite Hl. auto.
  - destruct (parked m !! i) as [[[|] k]|]; simpl; auto.
    unfold onAuthorizationSettled.
    assert (Hkeyed' : keyed (sendAction_settled (controller m) resp)).
    { apply (keyed_same (controller m)); auto; destruct resp; auto. }
    destruct (afterAuthorization_keyed _ k Hkeyed') as [Hk Hl].
    rewrite Hl. split; [exact Hk|]. destruct resp; exact Hzero.
  - split.
    + apply (keyed_same (controller m)); auto; destruct resp; auto.
    + destruct resp; exact Hzero.
  - split; [|exact Hzero]. apply (keyed_same (controller m)); auto.
Qed.

Lemma runTasks_keyed (ts : list Task) (m : Machine) :
  Forall clockNotZero ts ->
  keyed (controller m) /\ ~ In 0 (JsMap.keys (actionMaps (controller m))) ->
  keyed (controller (runTasks m ts))
  /\ ~ In 0 (JsMap.keys (actionMaps (controller (runTasks m ts)))).
Proof.
  revert m. induction ts as [|t ts IH]; intros m Hclock Hinv; simpl; [exact Hinv|].
  apply Forall_cons in Hclock as [Ht Hts].
  apply IH; [exact Hts|]. apply runTask_keyed; assumption.
Qed.

(** In a machine reached from the start while the clock never answers 0, no
    call of [sendEvent] spins in the walk to the last non-concurrent
    record. *)
Theorem sendEvent_never_diverges (ts : list Task) (r : Receiver)
  (event : ControlMessage.t) (now : Z) :
  Forall clockNotZero ts -> now <> 0 ->
  completion (sendEvent r (controller (runTasks newMachine ts)) event now)
  <> Diverged.
Proof.
  intros Hclock Hnow.
  assert (Hstart : keyed (controller newMachine)
                   /\ ~ In 0 (JsMap.keys (actionMaps (controller newMachine)))).
  { split; [intros k ref; simpl; discriminate|simpl; tauto]. }
  destruct (runTasks_keyed ts newMachine Hclock Hstart) as [Hk Hz].
  apply (sendEvent_keyed r _ event now Hk Hz Hnow).
Qed.

End MachineProofs.

(** * Part III: the model run on concrete inputs *)

Module Examples.
Import Sample.

(** C3, the claim as it stands fails: a handshake frame that is cut short
    after its display count throws, and by then the display maps and the
    encoder set of the earlier handshake are gone. *)
Lemma truncated_handshake_clears_session :
  threw (handleInitialInfo truncatedFrame connectedReceiver) = true
  /\ JsMap.keys (displayInfoMap connectedReceiver) = [0]
  /\ encodersSet connectedReceiver = ["h264"%string]
  /\ displayInfoMap (stateOf (handleInitialInfo truncatedFrame connectedReceiver))
     = []
  /\ connectionCountMap
       (stateOf (handleInitialInfo truncatedFrame connectedReceiver)) = []
  /\ encodersSet (stateOf (handleInitialInfo truncatedFrame connectedReceiver))
     = []
  /\ sessionState (stateOf (handleInitialInfo truncatedFrame connectedReceiver))
     <> sessionState connectedReceiver.
Proof.
  repeat split; try (vm_compute; reflexivity).
  vm_compute. discriminate.
Qed.

(** The same frame against the amended statement: the event log, the client
    id and the device name survive the throw. *)
Lemma truncated_handshake_keeps_identity :
  let r' := stateOf (handleInitialInfo truncatedFrame connectedReceiver) in
  emitted r' = emitted connectedReceiver
  /\ clientId r' = 7 /\ deviceName r' = "Pixel"%string.
Proof. vm_compute. repeat split. Qed.

(** *** Classification on a short log *)

(** C2, the claim as it stands fails: a touch down is classified
    non-concurrent and a touch move concurrent.  Logged 10 ms apart after an
    executed command, the down goes to the authorization round trip and the
    move waits on the down. *)
Lemma touch_down_serialized_move_concurrent :
  judgeConcurrency (secondLogged (touch Android.MOTION_ACTION_DOWN) 2000)
    (Some (recordOf (touch Android.MOTION_ACTION_DOWN) 2000)) = Val false
  /\ judgeConcurrency (secondLogged (touch Android.MOTION_ACTION_MOVE) 2000)
       (Some (recordOf (touch Android.MOTION_ACTION_MOVE) 2000)) = Val true
  /\ (let down :=
        sendEvent connectedReceiver (world afterFirst)
          (touch Android.MOTION_ACTION_DOWN) 2000 in
      let move :=
        sendEvent connectedReceiver (world down)
          (touch Android.MOTION_ACTION_MOVE) 2010 in
      effects down
      = [fetch_sendAction
           (make_action_json connectedReceiver
              (touch Android.MOTION_ACTION_DOWN) 2000) false]
      /\ effects move = [setTimeout 100]
      /\ completion move
         = AwaitTimer
             {| self := 2; event := touch Android.MOTION_ACTION_MOVE;
                action_json :=
                  make_action_json connectedReceiver
                    (touch Android.MOTION_ACTION_MOVE) 2010 |}).
Proof. vm_compute. repeat split. Qed.

Lemma judgeConcurrency_touch_witness :
  ActionJson.type
    (ActionMap.entries (recordOf (touch Android.MOTION_ACTION_DOWN) 2000))
  = Android.TYPE_TOUCH
  /\ judgeConcurrency (secondLogged (touch Android.MOTION_ACTION_DOWN) 2000)
       (Some (recordOf (touch Android.MOTION_ACTION_DOWN) 2000)) = Val false.
Proof.
  split; [reflexivity|].
  apply (proj1 (judgeConcurrency_touch
                  (secondLogged (touch Android.MOTION_ACTION_DOWN) 2000)
                  (recordOf (touch Android.MOTION_ACTION_DOWN) 2000) eq_refl)).
  reflexivity.
Defined.

Lemma judgeConcurrency_key_event_witness :
  ActionJson.type
    (ActionMap.entries (recordOf (key Android.KEY_ACTION_DOWN KEYCODE_A) 2010))
  = Android.TYPE_KEYCODE
  /\ immediatelyPrecedes twoKeyPresses
       (recordOf (key Android.KEY_ACTION_DOWN KEYCODE_A) 2000)
       (recordOf (key Android.KEY_ACTION_DOWN KEYCODE_A) 2010)
  /\ judgeConcurrency twoKeyPresses
       (Some (recordOf (key Android.KEY_ACTION_DOWN KEYCODE_A) 2010))
     = Val true.
Proof.
  assert (Hp : immediatelyPrecedes twoKeyPresses
                 (recordOf (key Android.KEY_ACTION_DOWN KEYCODE_A) 2000)
                 (recordOf (key Android.KEY_ACTION_DOWN KEYCODE_A) 2010)).
  { exists [(1000, 0%nat)], [], 2000, 1%nat, 2%nat.
    repeat split; try reflexivity; simpl; intuition discriminate. }
  split; [reflexivity|split; [exact Hp|]].
  destruct (judgeConcurrency_key_event twoKeyPresses
              (recordOf (key Android.KEY_ACTION_DOWN KEYCODE_A) 2010) eq_refl)
    as (_ & _ & Hthird).
  change (Val true)
    with (Val (isKeyPress (recordOf (key Android.KEY_ACTION_DOWN KEYCODE_A) 2000))).
  apply Hthird.
  - simpl. discriminate.
  - intros c Hc. simpl in Hc. injection Hc as <-.
    unfold KEYCODE_A. simpl. intuition discriminate.
  - exact Hp.
Defined.

(** *** The fast path and the first command *)

Lemma fast_path_witness :
  In (ControlMessage.type backOrScreenOn) [4; 8; 9; 10; 101; 102]
  /\ completion afterFirst = Returned
  /\ effects afterFirst
     = [ws_send backOrScreenOn;
        fetch_sendAction
          (make_action_json connectedReceiver backOrScreenOn 1000) false]
  /\ resolution afterFirst 0 = Some (Some true).
Proof.
  assert (Hfast : In (ControlMessage.type backOrScreenOn) [4; 8; 9; 10; 101; 102])
    by (simpl; auto).
  split; [exact Hfast|].
  pose proof (fast_path_forwards_at_once connectedReceiver openController
                backOrScreenOn 1000 Hfast) as Hpath.
  lazy zeta in Hpath.
  destruct Hpath as (Hc & _ & He & Hr & _).
  split; [exact Hc|split; [exact He|exact Hr]].
Defined.

Lemma first_command_witness :
  actionMaps openController = []
  /\ 1000 <> 0
  /\ ~ In (ControlMessage.type (touch Android.MOTION_ACTION_DOWN)) sideEffectFree
  /\ completion
       (sendEvent connectedReceiver openController
          (touch Android.MOTION_ACTION_DOWN) 1000)
     = Threw TypeError.
Proof.
  assert (H0 : 1000 <> 0) by discriminate.
  assert (Hslow : ~ In (ControlMessage.type (touch Android.MOTION_ACTION_DOWN))
                    sideEffectFree) by (simpl; intuition discriminate).
  split; [reflexivity|split; [exact H0|split; [exact Hslow|]]].
  pose proof (first_command_throws connectedReceiver openController
                (touch Android.MOTION_ACTION_DOWN) 1000 eq_refl H0 Hslow)
    as Hthrows.
  lazy zeta in Hthrows.
  destruct Hthrows as (_ & _ & _ & Hcall & _).
  rewrite Hcall. reflexivity.
Defined.

(** *** The non-concurrent path on inputs the claims are wrong about *)

(** C1, the code at the failing input: a touch down 200 ms after an
    executed command is classified non-concurrent and fails the spacing
    check; [sendEvent] returns with nothing forwarded and no request sent,
    and with [executed] of the record still unset rather than [false]. *)
Theorem rate_limited_command_left_unset :
  let s := sendEvent connectedReceiver (world afterFirst)
             (touch Android.MOTION_ACTION_DOWN) 1200 in
  resolution afterFirst 0 = Some (Some true)
  /\ judgeConcurrency (secondLogged (touch Android.MOTION_ACTION_DOWN) 1200)
       (Some (recordOf (touch Android.MOTION_ACTION_DOWN) 1200)) = Val false
  /\ completion s = Returned
  /\ effects s = []
  /\ lookupAction (world s) 1200
     = Some (recordOf (touch Android.MOTION_ACTION_DOWN) 1200)
  /\ resolution s 1 = Some None.
Proof. vm_compute. repeat split. Qed.

(** C4, the code at the failing input: a press of the home key 300 ms
    after an executed command.  The submission is over, [sendEvent] has
    returned, and the record was never resolved. *)
Theorem home_key_inside_spacing_never_resolved :
  let s := sendEvent connectedReceiver (world afterFirst)
             (key Android.KEY_ACTION_DOWN KEYCODE_HOME) 1300 in
  completion s = Returned
  /\ effects s = []
  /\ ActionMap.executed
       (recordOf (key Android.KEY_ACTION_DOWN KEYCODE_HOME) 1300) = None
  /\ heap (world s)
     = heap (world afterFirst)
       ++ [recordOf (key Android.KEY_ACTION_DOWN KEYCODE_HOME) 1300].
Proof. vm_compute. repeat split. Qed.

(** C7, the code at the failing input: the request of the touch down
    failed, yet the touch down is forwarded and marked [executed = true],
    on the answer the service gave to the other command. *)
Theorem rejected_request_forwarded_on_stale_answer :
  effects fastAt2000
  = [ws_send backOrScreenOn;
     fetch_sendAction (make_action_json connectedReceiver backOrScreenOn 2000)
       false]
  /\ completion downAt2000 = AwaitAuthorization downLocals
  /\ effects downAt2000 = [fetch_sendAction (action_json downLocals) false]
  /\ completion downAfterRejection = Returned
  /\ effects downAfterRejection = [ws_send (touch Android.MOTION_ACTION_DOWN)]
  /\ resolution downAfterRejection 2 = Some (Some true).
Proof. vm_compute. repeat split. Qed.

(** *** The lemmas about the non-concurrent path and the event loop, run *)

Lemma spacing_gate_witness :
  ~ In (ControlMessage.type (touch Android.MOTION_ACTION_DOWN)) sideEffectFree
  /\ getLastExecutedAction (secondLogged (touch Android.MOTION_ACTION_DOWN) 1200)
       (recordOf (touch Android.MOTION_ACTION_DOWN) 1200)
     = Some (ActionMap.setExecuted true (recordOf backOrScreenOn 1000))
  /\ sendEvent connectedReceiver (world afterFirst)
       (touch Android.MOTION_ACTION_DOWN) 1200
     = {| world := secondLogged (touch Android.MOTION_ACTION_DOWN) 1200;
          effects := []; completion := Returned |}.
Proof.
  assert (Hslow : ~ In (ControlMessage.type (touch Android.MOTION_ACTION_DOWN))
                    sideEffectFree) by (simpl; intuition discriminate).
  assert (Hp : getLastExecutedAction
                 (secondLogged (touch Android.MOTION_ACTION_DOWN) 1200)
                 (recordOf (touch Android.MOTION_ACTION_DOWN) 1200)
               = Some (ActionMap.setExecuted true (recordOf backOrScreenOn 1000)))
    by reflexivity.
  split; [exact Hslow|split; [exact Hp|]].
  apply (spacing_gate connectedReceiver (world afterFirst)
           (touch Android.MOTION_ACTION_DOWN) 1200 _ Hslow eq_refl Hp).
  simpl. lia.
Defined.


Lemma spacing_check_witness :
  resolution afterThrow 0 = Some None
  /\ completion
       (sendEvent connectedReceiver (world afterThrow)
          (touch Android.MOTION_ACTION_DOWN) 2000)
     = Threw TypeError.
Proof.
  split; [reflexivity|].
  rewrite (spacing_check_needs_executed_record connectedReceiver
             (world afterThrow) (touch Android.MOTION_ACTION_DOWN) 2000).
  - reflexivity.
  - simpl. intuition discriminate.
  - reflexivity.
  - intros key Hin. simpl in Hin.
    destruct Hin as [<-|[<-|[]]]; reflexivity.
  - reflexivity.
Defined.

Lemma sendEvent_returned_witness :
  completion afterFirst = Returned
  /\ exists b, resolution afterFirst 0 = Some (Some b).
Proof.
  assert (Hret : completion
                   (sendEvent connectedReceiver openController backOrScreenOn 1000)
                 = Returned) by reflexivity.
  split; [reflexivity|].
  destruct (sendEvent_returned connectedReceiver openController
              backOrScreenOn 1000 Hret) as [[b Hb]|[Hunset _]].
  - exists b. exact Hb.
  - vm_compute in Hunset. discriminate.
Defined.

Lemma at_most_once_witness :
  resolved (controller (runTasks newMachine firstTasks)) 0 true
  /\ resolved (controller (runTasks newMachine (firstTasks ++ laterTasks))) 0 true.
Proof.
  assert (Hfirst : resolved (controller (runTasks newMachine firstTasks)) 0 true)
    by (eexists; split; reflexivity).
  split; [exact Hfirst|].
  apply (executed_is_written_at_most_once firstTasks laterTasks 0 true Hfirst).
Defined.

Lemma never_diverges_witness :
  Forall clockNotZero (firstTasks ++ laterTasks)
  /\ 1320 <> 0
  /\ completion
       (sendEvent connectedReceiver
          (controller (runTasks newMachine (firstTasks ++ laterTasks)))
          (key Android.KEY_ACTION_UP KEYCODE_A) 1320)
     <> Diverged.
Proof.
  assert (Hclock : Forall clockNotZero (firstTasks ++ laterTasks)).
  { repeat constructor; simpl; discriminate. }
  assert (Hnow : 1320 <> 0) by discriminate.
  split; [exact Hclock|split; [exact Hnow|]].
  apply (sendEvent_never_diverges (firstTasks ++ laterTasks) connectedReceiver
           (key Android.KEY_ACTION_UP KEYCODE_A) 1320 Hclock Hnow).
Defined.

End Examples.

(** * Part IV: the rest of the class *)

(** ** Reading 32-bit integers *)

Lemma byteZ_range (b : byte) : 0 <= byteZ b < 256.
Proof.
  unfold byteZ. pose proof (Byte.to_N_bounded b) as Hb. lia.
Qed.

Lemma byteZ_byteOfZ_mod (z : Z) : byteZ (byteOfZ z) = z mod 256.
Proof.
  unfold byteOfZ, byteZ.
  pose proof (Z.mod_pos_bound z 256 ltac:(lia)) as Hz.
  destruct (Byte.of_N (Z.to_N (z mod 256))) as [b|] eqn:E.
  - apply Byte.to_of_N in E. simpl. rewrite E. lia.
  - apply Byte.of_N_None_iff in E. lia.
Qed.

Lemma byteZ_byteOfZ (z : Z) : 0 <= z < 256 -> byteZ (byteOfZ z) = z.
Proof. intros Hz. rewrite byteZ_byteOfZ_mod. apply Z.mod_small. exact Hz. Qed.

Lemma byteOfZ_byteZ (b : byte) : byteOfZ (byteZ b) = b.
Proof.
  unfold byteOfZ. rewrite Z.mod_small by apply byteZ_range.
  unfold byteZ. rewrite N2Z.id, Byte.of_to_N. reflexivity.
Qed.

Lemma land_shiftl_small (a b n : Z) :
  0 <= n -> 0 <= b < 2 ^ n -> Z.land (Z.shiftl a n) b = 0.
Proof.
  intros Hn Hb. apply Z.bits_inj'. intros i Hi.
  rewrite Z.land_spec, Z.bits_0.
  destruct (Z.lt_ge_cases i n) as [Hlt|Hge].
  - rewrite Z.shiftl_spec_low by lia. reflexivity.
  - destruct (Z.eq_dec b 0) as [->|Hb0].
    + rewrite Z.bits_0. apply andb_false_r.
    + assert (Hlog : Z.log2 b < n) by (apply Z.log2_lt_pow2; lia).
      rewrite (Z.bits_above_log2 b i) by lia. apply andb_false_r.
Qed.

Lemma lor_shiftl_small (a b n : Z) :
  0 <= n -> 0 <= b < 2 ^ n -> Z.lor (Z.shiftl a n) b = a * 2 ^ n + b.
Proof.
  intros Hn Hb. pose proof (land_shiftl_small a b n Hn Hb) as Hland.
  rewrite <- Z.lxor_lor by exact Hland.
  rewrite <- Z.add_nocarry_lxor by exact Hland.
  rewrite Z.shiftl_mul_pow2 by lia. reflexivity.
Qed.

(** The unsigned value of four bytes, big endian. *)
Lemma unsigned_of_bytes (b0 b1 b2 b3 : byte) :
  Z.lor (Z.shiftl (byteZ b0) 24)
    (Z.lor (Z.shiftl (byteZ b1) 16) (Z.lor (Z.shiftl (byteZ b2) 8) (byteZ b3)))
  = byteZ b0 * 2 ^ 24 + byteZ b1 * 2 ^ 16 + byteZ b2 * 2 ^ 8 + byteZ b3.
Proof.
  pose proof (byteZ_range b0). pose proof (byteZ_range b1).
  pose proof (byteZ_range b2). pose proof (byteZ_range b3).
  rewrite (lor_shiftl_small (byteZ b2) (byteZ b3) 8) by lia.
  rewrite (lor_shiftl_small (byteZ b1) _ 16) by lia.
  rewrite (lor_shiftl_small (byteZ b0) _ 24) by lia.
  lia.
Qed.

Lemma toInt32_spec (u : Z) :
  0 <= u < 2 ^ 32 ->
  Buffer.toInt32 u = if u <? 2 ^ 31 then u else u - 2 ^ 32.
Proof.
  intros Hu. unfold Buffer.toInt32.
  destruct (Z.testbit u 31) eqn:Hbit.
  - apply Z.testbit_true in Hbit; [|lia].
    destruct (u <? 2 ^ 31) eqn:E; [|reflexivity].
    apply Z.ltb_lt in E. rewrite Z.div_small in Hbit by lia. discriminate.
  - destruct (u <? 2 ^ 31) eqn:E; [reflexivity|].
    apply Z.ltb_ge in E. exfalso.
    assert (Hq : u / 2 ^ 31 = 1).
    { symmetry. apply Z.div_unique with (r := u - 2 ^ 31); lia. }
    assert (Htrue : Z.testbit u 31 = true).
    { apply Z.testbit_true; [lia|]. rewrite Hq. reflexivity. }
    congruence.
Qed.

(** [readInt32BE] answers a 32-bit two's-complement number. *)
Lemma readInt32BE_range (b : bytes) (v : Z) :
  Buffer.readInt32BE b = Some v -> - 2 ^ 31 <= v < 2 ^ 31.
Proof.
  destruct b as [|b0 [|b1 [|b2 [|b3 b]]]]; simpl; try discriminate.
  intros [= <-]. rewrite unsigned_of_bytes.
  pose proof (byteZ_range b0). pose proof (byteZ_range b1).
  pose proof (byteZ_range b2). pose proof (byteZ_range b3).
  rewrite toInt32_spec by lia.
  destruct (_ <? 2 ^ 31) eqn:E;
    [apply Z.ltb_lt in E|apply Z.ltb_ge in E]; lia.
Qed.

(** [readInt32BE] reads back what [int32BE] laid out. *)
Lemma readInt32BE_int32BE (v : Z) (rest : bytes) :
  isInt32 v -> Buffer.readInt32BE (int32BE v ++ rest) = Some v.
Proof.
  intros Hv. unfold isInt32 in Hv. unfold int32BE. lazy zeta.
  set (u := v mod 2 ^ 32).
  assert (Hu : 0 <= u < 2 ^ 32) by (apply Z.mod_pos_bound; lia).
  simpl app. unfold Buffer.readInt32BE. f_equal.
  rewrite unsigned_of_bytes.
  assert (H0 : 0 <= u / 2 ^ 24 < 256).
  { split; [apply Z.div_pos; lia|apply Z.div_lt_upper_bound; lia]. }
  rewrite (byteZ_byteOfZ (u / 2 ^ 24)) by exact H0.
  rewrite !byteZ_byteOfZ_mod.
  assert (Hsum : u / 2 ^ 24 * 2 ^ 24 + (u / 2 ^ 16) mod 256 * 2 ^ 16
                 + (u / 2 ^ 8) mod 256 * 2 ^ 8 + u mod 256 = u).
  { pose proof (Z.div_mod u 256 ltac:(lia)) as E0.
    pose proof (Z.div_mod (u / 256) 256 ltac:(lia)) as E1.
    pose proof (Z.div_mod (u / 256 / 256) 256 ltac:(lia)) as E2.
    rewrite !Z.div_div in E1, E2 by lia.
    change (2 ^ 8) with 256. change (2 ^ 16) with (256 * 256).
    change (2 ^ 24) with (256 * 256 * 256).
    change (256 * 256 * 256) with 16777216 in *.
    change (256 * 256) with 65536 in *.
    rewrite Z.div_div in E2 by lia. simpl in E2.
    change (65536 * 256) with 16777216 in E2.
    lia. }
  rewrite Hsum. rewrite toInt32_spec by exact Hu.
  subst u. destruct (v mod 2 ^ 32 <? 2 ^ 31) eqn:E.
  - apply Z.ltb_lt in E.
    destruct (Z.lt_ge_cases v 0) as [Hneg|Hpos].
    + rewrite <- (Z.mod_add v 1) in E by lia.
      rewrite Z.mod_small in E by lia. lia.
    + apply Z.mod_small. lia.
  - apply Z.ltb_ge in E.
    destruct (Z.lt_ge_cases v 0) as [Hneg|Hpos].
    + rewrite <- (Z.mod_add v 1) by lia. rewrite Z.mod_small by lia. lia.
    + rewrite Z.mod_small in E by lia. lia.
Qed.

Lemma int32BE_length (v : Z) : length (int32BE v) = 4%nat.
Proof. reflexivity. Qed.

(** ** Slices of a buffer *)

Lemma slice_app (a b : bytes) : Buffer.slice (a ++ b) (byteLength a) = b.
Proof.
  unfold Buffer.slice, Buffer.slice2, Buffer.clampIndex, byteLength.
  lazy zeta. rewrite length_app.
  destruct (Z.of_nat (length a) <? 0) eqn:E1; [apply Z.ltb_lt in E1; lia|].
  destruct (Z.of_nat (length a + length b)%nat <? 0) eqn:E2;
    [apply Z.ltb_lt in E2; lia|].
  rewrite ?Z.min_l by lia.
  destruct (Z.of_nat (length a + length b)%nat <? Z.of_nat (length a)) eqn:E3;
    [apply Z.ltb_lt in E3; lia|].
  rewrite Nat2Z.id. rewrite drop_app_length.
  apply take_ge. lia.
Qed.

Lemma slice2_app (a b : bytes) : Buffer.slice2 (a ++ b) 0 (byteLength a) = a.
Proof.
  unfold Buffer.slice2, Buffer.clampIndex, byteLength.
  lazy zeta. rewrite length_app.
  change (0 <? 0) with false. cbv iota.
  destruct (Z.of_nat (length a) <? 0) eqn:E1; [apply Z.ltb_lt in E1; lia|].
  rewrite ?Z.min_l by lia.
  destruct (Z.of_nat (length a) <? 0) eqn:E3; [apply Z.ltb_lt in E3; lia|].
  rewrite Z.sub_0_r, Nat2Z.id. simpl. apply take_app_length.
Qed.

Lemma slice_int32BE (v : Z) (rest : bytes) :
  Buffer.slice (int32BE v ++ rest) 4 = rest.
Proof. apply (slice_app (int32BE v) rest). Qed.

(** ** Maps filled under pairwise different keys *)

Lemma JsMap_get_None {V} (m : JsMap.t V) (k : Z) :
  ~ In k (JsMap.keys m) -> JsMap.get m k = None.
Proof.
  induction m as [|[k' v] m IH]; simpl; [reflexivity|]. intros Hnot.
  destruct (k' =? k) eqn:E; [apply Z.eqb_eq in E; tauto|]. apply IH. tauto.
Qed.

Lemma JsMap_set_fresh {V} (m : JsMap.t V) (k : Z) (v : V) :
  ~ In k (JsMap.keys m) -> JsMap.set m k v = m ++ [(k, v)].
Proof.
  induction m as [|[k' v'] m IH]; simpl; [reflexivity|]. intros Hnot.
  destruct (k' =? k) eqn:E; [apply Z.eqb_eq in E; tauto|].
  rewrite IH by tauto. reflexivity.
Qed.

Lemma JsMap_get_app {V} (m1 m2 : JsMap.t V) (k : Z) :
  JsMap.get (m1 ++ m2) k
  = match JsMap.get m1 k with
    | Some v => Some v
    | None => JsMap.get m2 k
    end.
Proof.
  induction m1 as [|[k' v] m1 IH]; simpl; [reflexivity|].
  destruct (k' =? k); [reflexivity|exact IH].
Qed.

Section KeyedLists.
Context {A V : Type} (key : A -> Z).

Lemma keys_map_pairs (f : A -> V) (l : list A) :
  JsMap.keys (map (fun a => (key a, f a)) l) = map key l.
Proof. unfold JsMap.keys. rewrite map_map. reflexivity. Qed.

Lemma keys_omap_pairs (g : A -> option V) (l : list A) (k : Z) :
  In k (JsMap.keys (omap (fun a => pair (key a) <$> g a) l)) -> In k (map key l).
Proof.
  induction l as [|a l IH]; simpl; [tauto|].
  destruct (g a) as [v|]; simpl; intuition.
Qed.

Lemma get_map_pairs (f : A -> V) (l : list A) (a : A) :
  NoDup (map key l) -> In a l ->
  JsMap.get (map (fun a => (key a, f a)) l) (key a) = Some (f a).
Proof.
  induction l as [|b l IH]; simpl; [tauto|].
  intros Hnd [->|Hin].
  - rewrite Z.eqb_refl. reflexivity.
  - apply NoDup_cons in Hnd as [Hnot Hnd].
    destruct (key b =? key a) eqn:E; [|apply IH; assumption].
    apply Z.eqb_eq in E. exfalso. apply Hnot. rewrite E.
    apply list_elem_of_In, in_map. exact Hin.
Qed.

Lemma get_omap_pairs (g : A -> option V) (l : list A) (a : A) :
  NoDup (map key l) -> In a l ->
  JsMap.get (omap (fun a => pair (key a) <$> g a) l) (key a) = g a.
Proof.
  induction l as [|b l IH]; simpl; [tauto|].
  intros Hnd Hin. apply NoDup_cons in Hnd as [Hnot Hnd].
  assert (Hfresh : forall x, ~ In (key x) (map key l) ->
            JsMap.get (omap (fun a => pair (key a) <$> g a) l) (key x) = None).
  { intros x Hx. apply JsMap_get_None. intros Hk.
    apply Hx. apply (keys_omap_pairs g l). exact Hk. }
  assert (Hnot' : ~ In (key b) (map key l))
    by (intros Hk; apply Hnot, list_elem_of_In; exact Hk).
  destruct Hin as [->|Hin].
  - destruct (g a) as [v|] eqn:Hg; simpl.
    + rewrite Z.eqb_refl. reflexivity.
    + apply Hfresh. exact Hnot'.
  - assert (Hne : key b <> key a).
    { intros E. apply Hnot'. rewrite E. apply in_map. exact Hin. }
    destruct (g b) as [v|]; simpl.
    + apply Z.eqb_neq in Hne. rewrite Hne. apply IH; assumption.
    + apply IH; assumption.
Qed.

End KeyedLists.

(** ** The handshake decoder on a frame laid out as it expects *)

Section LayoutProofs.
Context `{Externals}.

Lemma byteLength_nonneg (b : bytes) : 0 <= byteLength b.
Proof. unfold byteLength. lia. Qed.

Lemma byteLength_zero (b : bytes) : byteLength b = 0 <-> b = [].
Proof.
  unfold byteLength. destruct b; simpl; split; intros E;
    try reflexivity; try discriminate; lia.
Qed.

Lemma displayTurn_layDisplay (d : DisplayRecord) (tail : bytes) (r : Receiver) :
  wellFormedDisplay d ->
  displayTurn (layDisplay d ++ tail) r = Normal tail (installDisplay r d).
Proof.
  intros (Hlen & Hinfo & Hcount & Hslen & Hvlen & Hscreen & Hvideo).
  unfold displayTurn, layDisplay. lazy zeta.
  rewrite <- !app_assoc. rewrite <- Hlen.
  rewrite slice2_app, slice_app. rewrite Hinfo.
  unfold bind at 1. unfold orThrow at 1, ret at 1.
  unfold bind at 1. unfold modify at 1.
  rewrite (readInt32BE_int32BE _ _ Hcount).
  unfold bind at 1. unfold orThrow at 1, ret at 1.
  unfold bind at 1. unfold modify at 1.
  rewrite slice_int32BE.
  rewrite (readInt32BE_int32BE _ _ Hslen).
  unfold bind at 1. unfold orThrow at 1, ret at 1.
  rewrite slice_int32BE.
  unfold installDisplay. lazy zeta.
  destruct (dr_screenBytes d) as [|sb0 sbs] eqn:Hsb.
  - simpl in Hscreen. rewrite Hscreen.
    change (byteLength [] =? 0) with true. cbv iota.
    unfold bind at 1. unfold ret at 1. rewrite app_nil_l.
    rewrite (readInt32BE_int32BE _ _ Hvlen).
    unfold bind at 1. unfold orThrow at 1, ret at 1.
    rewrite slice_int32BE.
    destruct (dr_videoBytes d) as [|vb0 vbs] eqn:Hvb.
    + simpl in Hvideo. rewrite Hvideo. reflexivity.
    + destruct Hvideo as [Hdec Hsome].
      destruct (dr_videoSettings d) as [vs|]; [|contradiction].
      assert (Hnz : (byteLength (vb0 :: vbs) =? 0) = false)
        by (apply Z.eqb_neq; unfold byteLength; simpl; lia).
      rewrite Hnz. rewrite slice2_app, slice_app. rewrite Hdec. reflexivity.
  - destruct Hscreen as [Hdec Hsome].
    destruct (dr_screenInfo d) as [si|]; [|contradiction].
    assert (Hnz : (byteLength (sb0 :: sbs) =? 0) = false)
      by (apply Z.eqb_neq; unfold byteLength; simpl; lia).
    rewrite Hnz. rewrite slice2_app, slice_app. rewrite Hdec.
    unfold bind at 1. unfold bind at 1. unfold orThrow at 1, ret at 1.
    unfold bind at 1. unfold modify at 1. unfold ret at 1.
    rewrite (readInt32BE_int32BE _ _ Hvlen).
    unfold bind at 1. unfold orThrow at 1, ret at 1.
    rewrite slice_int32BE.
    destruct (dr_videoBytes d) as [|vb0 vbs] eqn:Hvb.
    + simpl in Hvideo. rewrite Hvideo. reflexivity.
    + destruct Hvideo as [Hdec' Hsome'].
      destruct (dr_videoSettings d) as [vs|]; [|contradiction].
      assert (Hnz' : (byteLength (vb0 :: vbs) =? 0) = false)
        by (apply Z.eqb_neq; unfold byteLength; simpl; lia).
      rewrite Hnz'. rewrite slice2_app, slice_app. rewrite Hdec'. reflexivity.
Qed.

Lemma forLoop_displays (ds : list DisplayRecord) (tail : bytes) (r : Receiver) :
  Forall wellFormedDisplay ds ->
  forLoop (length ds) displayTurn (concat (map layDisplay ds) ++ tail) r
  = Normal tail (fold_left installDisplay ds r).
Proof.
  intros Hall. revert r. induction Hall as [|d ds Hd Hds IH]; intros r.
  - reflexivity.
  - cbn [length map concat forLoop]. rewrite <- app_assoc. unfold bind.
    rewrite (displayTurn_layDisplay d _ r Hd). apply IH.
Qed.

Lemma encoderTurn_layEncoder (name tail : bytes) (r : Receiver) :
  isInt32 (byteLength name) ->
  encoderTurn (layEncoder name ++ tail) r = Normal tail (installEncoder r name).
Proof.
  intros Hlen. unfold encoderTurn, layEncoder. lazy zeta.
  rewrite <- app_assoc. rewrite (readInt32BE_int32BE _ _ Hlen).
  unfold bind at 1. unfold orThrow at 1, ret at 1.
  rewrite slice_int32BE, slice2_app, slice_app. reflexivity.
Qed.

Lemma forLoop_encoders (names : list bytes) (tail : bytes) (r : Receiver) :
  Forall (fun name => isInt32 (byteLength name)) names ->
  forLoop (length names) encoderTurn (concat (map layEncoder names) ++ tail) r
  = Normal tail (fold_left installEncoder names r).
Proof.
  intros Hall. revert r. induction Hall as [|name names Hn Hns IH]; intros r.
  - reflexivity.
  - cbn [length map concat forLoop]. rewrite <- app_assoc. unfold bind.
    rewrite (encoderTurn_layEncoder name _ r Hn). apply IH.
Qed.

Lemma handleInitialInfo_layHandshake (nameField : bytes)
  (displays : list DisplayRecord) (encoderNames : list bytes) (id : Z)
  (trailing : bytes) (r : Receiver) :
  wellFormedHandshake nameField displays encoderNames id ->
  handleInitialInfo (layHandshake nameField displays encoderNames id trailing) r
  = handshakeTail id nameField
      (fold_left installEncoder encoderNames
         (with_encodersSet (fun _ => JsSet.clear)
            (fold_left installDisplay displays (clearDisplays r)))).
Proof.
  intros (Hname & Hn & Hds & Hm & Hnames & Hid).
  unfold handleInitialInfo, layHandshake, Uint8Array3, Uint8Array2. lazy zeta.
  assert (Hlong : forall rest : bytes,
             (length (MAGIC_BYTES_INITIAL ++ nameField ++ rest)
              <? length MAGIC_BYTES_INITIAL + DEVICE_NAME_FIELD_LENGTH)%nat
             = false).
  { intros rest. apply Nat.ltb_ge. rewrite !length_app, Hname. lia. }
  assert (Hrest : forall rest : bytes,
             drop (length MAGIC_BYTES_INITIAL + DEVICE_NAME_FIELD_LENGTH)
               (MAGIC_BYTES_INITIAL ++ nameField ++ rest) = rest).
  { intros rest. rewrite <- drop_drop, drop_app_length, <- Hname.
    apply drop_app_length. }
  assert (Hfield : forall rest : bytes,
             take DEVICE_NAME_FIELD_LENGTH
               (drop (length MAGIC_BYTES_INITIAL)
                  (MAGIC_BYTES_INITIAL ++ nameField ++ rest)) = nameField).
  { intros rest. rewrite drop_app_length, <- Hname. apply take_app_length. }
  rewrite !Hlong. cbv iota.
  unfold bind at 1. unfold ret at 1.
  unfold bind at 1. unfold ret at 1.
  rewrite Hrest, Hfield.
  rewrite (readInt32BE_int32BE _ _ Hn).
  unfold bind at 1. unfold orThrow at 1, ret at 1.
  unfold bind at 1. unfold modify at 1.
  unfold bind at 1. unfold modify at 1.
  unfold bind at 1. unfold modify at 1.
  unfold bind at 1. unfold modify at 1.
  rewrite slice_int32BE, Nat2Z.id.
  unfold bind at 1. rewrite (forLoop_displays displays _ _ Hds).
  unfold bind at 1. unfold modify at 1.
  rewrite (readInt32BE_int32BE _ _ Hm).
  unfold bind at 1. unfold orThrow at 1, ret at 1.
  rewrite slice_int32BE, Nat2Z.id.
  unfold bind at 1. rewrite (forLoop_encoders encoderNames _ _ Hnames).
  rewrite (readInt32BE_int32BE _ _ Hid).
  unfold bind at 1. unfold orThrow at 1, ret at 1.
  reflexivity.
Qed.

Lemma keys_snoc {V} (m : JsMap.t V) (k : Z) (v : V) (x : Z) :
  In x (JsMap.keys (m ++ [(k, v)])) <-> In x (JsMap.keys m) \/ x = k.
Proof.
  unfold JsMap.keys. rewrite map_app, in_app_iff. simpl. intuition.
Qed.

Lemma installDisplay_fresh (r : Receiver) (d : DisplayRecord) :
  freshFor r [d] ->
  let r1 := installDisplay r d in
  displayInfoMap r1 = displayInfoMap r ++ [(displayIdOf d, dr_info d)]
  /\ connectionCountMap r1
     = connectionCountMap r ++ [(displayIdOf d, dr_connectionCount d)]
  /\ screenInfoMap r1
     = screenInfoMap r ++ omap (fun d => pair (displayIdOf d) <$> dr_screenInfo d) [d]
  /\ videoSettingsMap r1
     = videoSettingsMap r
       ++ omap (fun d => pair (displayIdOf d) <$> dr_videoSettings d) [d]
  /\ encodersSet r1 = encodersSet r /\ clientId r1 = clientId r
  /\ deviceName r1 = deviceName r /\ hasInitialInfo r1 = hasInitialInfo r
  /\ emitted r1 = emitted r.
Proof.
  intros Hfresh. destruct (Hfresh d (or_introl eq_refl)) as (Hd & Hc & Hs & Hv).
  unfold installDisplay, displayIdOf in *. lazy zeta.
  change (omap ?f [d]) with (match f d with Some y => [y] | None => [] end).
  lazy beta.
  destruct (dr_screenInfo d) as [si|], (dr_videoSettings d) as [vs|]; simpl;
    rewrite ?JsMap_set_fresh by assumption; rewrite ?app_nil_r;
    repeat split; reflexivity.
Qed.

Lemma fold_installDisplay (ds : list DisplayRecord) (r : Receiver) :
  NoDup (map displayIdOf ds) -> freshFor r ds ->
  let r' := fold_left installDisplay ds r in
  displayInfoMap r'
  = displayInfoMap r ++ map (fun d => (displayIdOf d, dr_info d)) ds
  /\ connectionCountMap r'
     = connectionCountMap r
       ++ map (fun d => (displayIdOf d, dr_connectionCount d)) ds
  /\ screenInfoMap r'
     = screenInfoMap r
       ++ omap (fun d => pair (displayIdOf d) <$> dr_screenInfo d) ds
  /\ videoSettingsMap r'
     = videoSettingsMap r
       ++ omap (fun d => pair (displayIdOf d) <$> dr_videoSettings d) ds
  /\ encodersSet r' = encodersSet r /\ clientId r' = clientId r
  /\ deviceName r' = deviceName r /\ hasInitialInfo r' = hasInitialInfo r
  /\ emitted r' = emitted r.
Proof.
  revert r. induction ds as [|d ds IH]; intros r Hnd Hfresh.
  - simpl. rewrite !app_nil_r. repeat split; reflexivity.
  - apply NoDup_cons in Hnd as [Hnot Hnd].
    assert (Hd : freshFor r [d]).
    { intros x [<-|[]]. apply Hfresh. left. reflexivity. }
    destruct (installDisplay_fresh r d Hd)
      as (E1 & E2 & E3 & E4 & E5 & E6 & E7 & E8 & E9).
    assert (Hfresh' : freshFor (installDisplay r d) ds).
    { intros x Hx.
      destruct (Hfresh x (or_intror Hx)) as (F1 & F2 & F3 & F4).
      assert (Hne : displayIdOf x <> displayIdOf d).
      { intros E. apply Hnot. rewrite <- E. apply list_elem_of_In, in_map. exact Hx. }
      rewrite E1, E2, E3, E4. simpl.
      destruct (dr_screenInfo d), (dr_videoSettings d); simpl;
        rewrite ?app_nil_r, ?keys_snoc; intuition. }
    destruct (IH (installDisplay r d) Hnd Hfresh')
      as (I1 & I2 & I3 & I4 & I5 & I6 & I7 & I8 & I9).
    cbn [fold_left]. lazy zeta.
    rewrite I1, I2, I3, I4, I5, I6, I7, I8, I9.
    rewrite E1, E2, E3, E4, E5, E6, E7, E8, E9.
    cbn [map omap]. rewrite <- !app_assoc.
    repeat split; try reflexivity.
    + simpl. destruct (dr_screenInfo d); reflexivity.
    + simpl. destruct (dr_videoSettings d); reflexivity.
Qed.

Lemma JsSet_has_snoc (s : JsSet.t) (x y : string) :
  JsSet.has (s ++ [x]) y = JsSet.has s y || String.eqb y x.
Proof.
  unfold JsSet.has. rewrite existsb_app. simpl. rewrite orb_false_r. reflexivity.
Qed.

Lemma JsSet_has_false (s : JsSet.t) (y : string) :
  JsSet.has s y = false <-> ~ In y s.
Proof.
  unfold JsSet.has. split.
  - intros Hf Hin. assert (Ht : existsb (String.eqb y) s = true).
    { apply existsb_exists. exists y. split; [exact Hin|apply String.eqb_refl]. }
    congruence.
  - intros Hnot. destruct (existsb (String.eqb y) s) eqn:E; [|reflexivity].
    apply existsb_exists in E as (x & Hin & Hx). apply String.eqb_eq in Hx.
    subst x. contradiction.
Qed.

Lemma fold_installEncoder (names : list bytes) (r : Receiver) :
  NoDup (map utf8ByteArrayToString names) ->
  (forall n, In n names -> ~ In (utf8ByteArrayToString n) (encodersSet r)) ->
  let r' := fold_left installEncoder names r in
  encodersSet r' = encodersSet r ++ map utf8ByteArrayToString names
  /\ displayInfoMap r' = displayInfoMap r
  /\ connectionCountMap r' = connectionCountMap r
  /\ screenInfoMap r' = screenInfoMap r
  /\ videoSettingsMap r' = videoSettingsMap r
  /\ clientId r' = clientId r /\ deviceName r' = deviceName r
  /\ hasInitialInfo r' = hasInitialInfo r /\ emitted r' = emitted r.
Proof.
  revert r. induction names as [|n names IH]; intros r Hnd Hfresh.
  - simpl. rewrite app_nil_r. repeat split; reflexivity.
  - cbn [map] in Hnd. apply NoDup_cons in Hnd as [Hnot Hnd].
    assert (Hset : encodersSet (installEncoder r n)
                   = encodersSet r ++ [utf8ByteArrayToString n]).
    { unfold installEncoder, JsSet.add. simpl.
      assert (Hhas : JsSet.has (encodersSet r) (utf8ByteArrayToString n) = false).
      { apply JsSet_has_false. apply Hfresh. left. reflexivity. }
      rewrite Hhas. reflexivity. }
    assert (Hfresh' : forall m, In m names ->
              ~ In (utf8ByteArrayToString m) (encodersSet (installEncoder r n))).
    { intros m Hm. rewrite Hset, in_app_iff. intros [Hin|[E|[]]].
      - exact (Hfresh m (or_intror Hm) Hin).
      - apply Hnot. rewrite E. apply list_elem_of_In, in_map. exact Hm. }
    destruct (IH (installEncoder r n) Hnd Hfresh')
      as (I1 & I2 & I3 & I4 & I5 & I6 & I7 & I8 & I9).
    cbn [fold_left map]. lazy zeta.
    rewrite I1, I2, I3, I4, I5, I6, I7, I8, I9, Hset, <- app_assoc.
    repeat split; reflexivity.
Qed.

Lemma combinedInfo_decoded (ds : list DisplayRecord) (r : Receiver) :
  NoDup (map displayIdOf ds) ->
  displayInfoMap r = map (fun d => (displayIdOf d, dr_info d)) ds ->
  connectionCountMap r = map (fun d => (displayIdOf d, dr_connectionCount d)) ds ->
  screenInfoMap r = omap (fun d => pair (displayIdOf d) <$> dr_screenInfo d) ds ->
  videoSettingsMap r = omap (fun d => pair (displayIdOf d) <$> dr_videoSettings d) ds ->
  infoArray r = map combinedOf ds.
Proof.
  intros Hnd Hd Hc Hs Hv. unfold infoArray. rewrite Hd, map_map.
  apply map_ext_in. intros d Hin. unfold combinedInfo, combinedOf, connectionCountOr0.
  rewrite Hc, Hs, Hv.
  rewrite (get_map_pairs displayIdOf dr_connectionCount ds d Hnd Hin).
  rewrite (get_omap_pairs displayIdOf dr_screenInfo ds d Hnd Hin).
  rewrite (get_omap_pairs displayIdOf dr_videoSettings ds d Hnd Hin).
  f_equal. destruct (dr_connectionCount d =? 0) eqn:E; [|reflexivity].
  apply Z.eqb_eq in E. symmetry. exact E.
Qed.

Lemma decodedState_fields (nameField : bytes) (displays : list DisplayRecord)
  (encoderNames : list bytes) (id : Z) (r : Receiver) :
  NoDup (map displayIdOf displays) ->
  NoDup (map utf8ByteArrayToString encoderNames) ->
  let s := decodedState r nameField displays encoderNames id in
  clientId s = id
  /\ deviceName s = utf8ByteArrayToString (filterTrailingZeroes nameField)
  /\ hasInitialInfo s = true
  /\ getEncoders s = map utf8ByteArrayToString encoderNames
  /\ infoArray s = map combinedOf displays
  /\ emitted s = emitted r.
Proof.
  intros Hids Hnames.
  assert (Hfresh : freshFor (clearDisplays r) displays).
  { intros d _. simpl. tauto. }
  destruct (fold_installDisplay displays (clearDisplays r) Hids Hfresh)
    as (D1 & D2 & D3 & D4 & D5 & D6 & D7 & D8 & D9).
  set (r1 := fold_left installDisplay displays (clearDisplays r)) in *.
  assert (Hfresh' : forall n, In n encoderNames ->
            ~ In (utf8ByteArrayToString n)
                (encodersSet (with_encodersSet (fun _ => JsSet.clear) r1))).
  { intros n _. simpl. tauto. }
  destruct (fold_installEncoder encoderNames
              (with_encodersSet (fun _ => JsSet.clear) r1) Hnames Hfresh')
    as (E1 & E2 & E3 & E4 & E5 & E6 & E7 & E8 & E9).
  unfold decodedState. fold r1.
  set (r2 := fold_left installEncoder encoderNames
               (with_encodersSet (fun _ => JsSet.clear) r1)) in *.
  lazy zeta. split; [reflexivity|]. split; [reflexivity|]. split; [reflexivity|].
  split; [|split].
  - unfold getEncoders, JsSet.values. simpl. rewrite E1. reflexivity.
  - apply combinedInfo_decoded; [exact Hids|simpl..].
    + rewrite E2. simpl. rewrite D1. reflexivity.
    + rewrite E3. simpl. rewrite D2. reflexivity.
    + rewrite E4. simpl. rewrite D3. reflexivity.
    + rewrite E5. simpl. rewrite D4. reflexivity.
  - simpl. rewrite E9. simpl. rewrite D9. reflexivity.
Qed.

(** A handshake frame laid out as the decoder reads it (the magic
    bytes, a name field of 64 bytes, the displays, the encoder names, the
    client id, then anything), whose counts, lengths and id fit 32 bits,
    whose records the imported decoders accept and whose display ids and
    encoder names are pairwise different, is decoded without an exception:
    afterwards the client id, the device name, the encoder list and the
    display records are exactly those of the frame, in the frame's order,
    whatever the receiver held before, and the three lifecycle events carry
    them. *)
Theorem handshake_round_trip (nameField : bytes) (displays : list DisplayRecord)
  (encoderNames : list bytes) (id : Z) (trailing : bytes) (r : Receiver) :
  wellFormedHandshake nameField displays encoderNames id ->
  NoDup (map displayIdOf displays) ->
  NoDup (map utf8ByteArrayToString encoderNames) ->
  exists r',
    handleInitialInfo (layHandshake nameField displays encoderNames id trailing) r
    = Normal tt r'
    /\ clientId r' = id
    /\ deviceName r' = utf8ByteArrayToString (filterTrailingZeroes nameField)
    /\ hasInitialInfo r' = true
    /\ getEncoders r' = map utf8ByteArrayToString encoderNames
    /\ infoArray r' = map combinedOf displays
    /\ emitted r'
       = emitted r
         ++ [encoders (map utf8ByteArrayToString encoderNames);
             clientsStats id (utf8ByteArrayToString (filterTrailingZeroes nameField));
             displayInfo (map combinedOf displays)].
Proof.
  intros Hwf Hids Hnames.
  rewrite (handleInitialInfo_layHandshake _ _ _ _ _ _ Hwf), handshakeTail_run.
  destruct (decodedState_fields nameField displays encoderNames id r Hids Hnames)
    as (S1 & S2 & S3 & S4 & S5 & S6).
  unfold decodedState in *.
  set (s := with_hasInitialInfo true _) in *. lazy zeta.
  eexists. split; [reflexivity|].
  assert (Hinfo : forall s1 s2 : Receiver,
            sessionState s1 = sessionState s2 -> infoArray s1 = infoArray s2).
  { intros s1 s2 E. unfold sessionState in E. injection E as E1 E2 E3 E4 _ _ _.
    unfold infoArray, combinedInfo, connectionCountOr0.
    rewrite E1, E2, E3, E4. reflexivity. }
  split; [exact S1|]. split; [exact S2|]. split; [exact S3|].
  split; [exact S4|]. split.
  - rewrite <- S5. apply Hinfo. reflexivity.
  - cbn [emit modify stateOf emitted]. rewrite S4, S1, S2, S5, S6.
    rewrite <- !app_assoc. reflexivity.
Qed.

End LayoutProofs.

(** ** Invariants of the receiver *)

Lemma JsMap_set_NoDup {V} (m : JsMap.t V) (k : Z) (v : V) :
  NoDup (JsMap.keys m) -> NoDup (JsMap.keys (JsMap.set m k v)).
Proof.
  intros Hnd. destruct (in_dec Z.eq_dec k (JsMap.keys m)) as [Hin|Hnot].
  - assert (Hkeys : JsMap.keys (JsMap.set m k v) = JsMap.keys m).
    { clear Hnd. induction m as [|[k' v'] m IH]; simpl in *; [tauto|].
      destruct (k' =? k) eqn:E; simpl.
      - apply Z.eqb_eq in E. now subst.
      - f_equal. apply IH. destruct Hin as [E'|Hin]; [|exact Hin].
        apply Z.eqb_neq in E. contradiction. }
    rewrite Hkeys. exact Hnd.
  - rewrite JsMap_set_fresh by exact Hnot. unfold JsMap.keys in *.
    rewrite map_app. simpl. apply NoDup_app. split; [exact Hnd|].
    split; [|apply NoDup_singleton].
    intros x Hx Hx'. apply list_elem_of_In in Hx, Hx'. simpl in Hx'.
    destruct Hx' as [<-|[]]. contradiction.
Qed.

Lemma JsMap_set_Forall {V} (P : Z * V -> Prop) (m : JsMap.t V) (k : Z) (v : V) :
  Forall P m -> P (k, v) -> Forall P (JsMap.set m k v).
Proof.
  intros Hm Hkv. induction m as [|[k' v'] m IH]; simpl.
  - apply Forall_cons. split; [exact Hkv|apply Forall_nil; exact I].
  - apply Forall_cons in Hm as [Hhd Htl]. destruct (k' =? k).
    + apply Forall_cons. split; assumption.
    + apply Forall_cons. split; [exact Hhd|apply IH; exact Htl].
Qed.

Lemma JsSet_add_NoDup (s : JsSet.t) (x : string) : NoDup s -> NoDup (JsSet.add s x).
Proof.
  intros Hnd. unfold JsSet.add. destruct (JsSet.has s x) eqn:E; [exact Hnd|].
  apply JsSet_has_false in E. apply NoDup_app. split; [exact Hnd|].
  split; [|apply NoDup_singleton].
  intros y Hy Hy'. apply list_elem_of_In in Hy, Hy'. simpl in Hy'.
  destruct Hy' as [<-|[]]. contradiction.
Qed.

Section SessionProofs.
Context `{Externals}.

Lemma sound_bind {A B} (m : M Receiver A) (k : A -> M Receiver B) :
  keeps sound m -> (forall a, keeps sound (k a)) -> keeps sound (bind m k).
Proof.
  intros Hm Hk r HP. unfold bind. specialize (Hm r HP).
  destruct (m r) as [a s|e s]; [|exact Hm]. exact (Hk a s Hm).
Qed.

Lemma sound_modify (f : Receiver -> Receiver) :
  (forall r, sound r -> sound (f r)) -> keeps sound (modify f).
Proof. intros Hf r Hr. simpl. auto. Qed.

Lemma sound_pure {A} (m : M Receiver A) :
  (forall r, stateOf (m r) = r) -> keeps sound m.
Proof.
  intros Hm r Hr. specialize (Hm r). destruct (m r); simpl in Hm; now subst.
Qed.

Lemma sound_forLoop {A} (body : A -> M Receiver A) n a :
  (forall x, keeps sound (body x)) -> keeps sound (forLoop n body a).
Proof.
  intros Hbody. revert a. induction n as [|n IH]; intros a; simpl.
  - intros r Hr. exact Hr.
  - apply sound_bind; [apply Hbody|]. intros a'. apply IH.
Qed.

Lemma sound_emit (e : Emitted) :
  (forall r, sound r -> listsEachOnce e) -> keeps sound (emit e).
Proof.
  intros He r Hr. simpl. destruct Hr as [Hi Hev]. split; [exact Hi|].
  simpl. apply Forall_app. split; [exact Hev|].
  apply Forall_cons. split; [apply (He r); split; assumption|apply Forall_nil; exact I].
Qed.

Lemma orThrow_pure {A} e (o : option A) (r : Receiver) :
  stateOf (orThrow e o r) = r.
Proof. destruct o; reflexivity. Qed.

Lemma Uint8Array3_pure data offset len (r : Receiver) :
  stateOf (Uint8Array3 data offset len r) = r.
Proof. unfold Uint8Array3. destruct (_ <? _)%nat; reflexivity. Qed.

Lemma Uint8Array2_pure data offset (r : Receiver) :
  stateOf (Uint8Array2 data offset r) = r.
Proof. unfold Uint8Array2. destruct (_ <? _)%nat; reflexivity. Qed.

Lemma sound_set_display (id : Z) (info : DisplayInfo) :
  id = displayId info ->
  keeps sound (modify (with_displayInfoMap (fun m => JsMap.set m id info))).
Proof.
  intros Hid. apply sound_modify. intros r [(Hnd & Hown & Henc) Hev].
  split; [|exact Hev]. split; [|split; [|exact Henc]]; simpl.
  - apply JsMap_set_NoDup. exact Hnd.
  - apply JsMap_set_Forall; [exact Hown|exact Hid].
Qed.

Lemma sound_untouched (f : Receiver -> Receiver) :
  (forall r, displayInfoMap (f r) = displayInfoMap r
             /\ encodersSet (f r) = encodersSet r
             /\ emitted (f r) = emitted r) ->
  keeps sound (modify f).
Proof.
  intros Hf. apply sound_modify. intros r [(Hnd & Hown & Henc) Hev].
  destruct (Hf r) as (E1 & E2 & E3). unfold sound, indexed.
  rewrite E1, E2, E3. auto.
Qed.

Ltac sound_step :=
  lazy zeta;
  first
    [ apply sound_bind; [|intros ?]
    | apply sound_pure; intros ?;
      first [apply orThrow_pure|apply Uint8Array3_pure|apply Uint8Array2_pure
            |reflexivity]
    | apply sound_untouched; intros ?; repeat split; reflexivity
    | match goal with
      | |- keeps sound (if ?c then _ else _) => destruct c
      end ].

Lemma displayTurn_sound rest : keeps sound (displayTurn rest).
Proof.
  unfold displayTurn. lazy zeta.
  apply sound_bind; [sound_step|intros info].
  apply sound_bind; [apply sound_set_display; reflexivity|intros ?].
  repeat sound_step.
Qed.

Lemma encoderTurn_sound rest : keeps sound (encoderTurn rest).
Proof.
  unfold encoderTurn. lazy zeta.
  apply sound_bind; [sound_step|intros n].
  apply sound_bind; [|intros ?; sound_step].
  apply sound_modify. intros r [(Hnd & Hown & Henc) Hev].
  split; [|exact Hev]. split; [exact Hnd|split; [exact Hown|]].
  simpl. apply JsSet_add_NoDup. exact Henc.
Qed.

Lemma infoArray_ids (r : Receiver) :
  Forall (fun kv => fst kv = displayId (snd kv)) (displayInfoMap r) ->
  map (fun c => displayId (dci_displayInfo c)) (infoArray r)
  = JsMap.keys (displayInfoMap r).
Proof.
  unfold infoArray, JsMap.keys. rewrite map_map. intros Hown.
  induction Hown as [|[id info] m Hid _ IH]; simpl; [reflexivity|].
  simpl in Hid. rewrite IH, Hid. reflexivity.
Qed.

Lemma triggerInitialInfoEvents_sound : keeps sound triggerInitialInfoEvents.
Proof.
  intros r Hr. unfold triggerInitialInfoEvents.
  unfold bind at 1. unfold gets at 1.
  destruct (hasInitialInfo r); [|exact Hr].
  destruct Hr as [(Hnd & Hown & Henc) Hev]. simpl.
  split; [split; [exact Hnd|split; [exact Hown|exact Henc]]|].
  simpl. rewrite <- !app_assoc. apply Forall_app. split; [exact Hev|].
  apply Forall_cons. split; [exact Henc|].
  apply Forall_cons. split; [exact I|].
  apply Forall_cons. split; [|apply Forall_nil; exact I].
  simpl.
  assert (Hids := infoArray_ids r Hown).
  unfold infoArray, combinedInfo, connectionCountOr0 in *. simpl in *.
  rewrite Hids. exact Hnd.
Qed.

Lemma handleInitialInfo_sound data : keeps sound (handleInitialInfo data).
Proof.
  unfold handleInitialInfo. lazy zeta.
  apply sound_bind; [sound_step|intros nameBytes].
  apply sound_bind; [sound_step|intros rest].
  apply sound_bind; [sound_step|intros displaysCount].
  apply sound_bind.
  { apply sound_modify. intros r [(Hnd & Hown & Henc) Hev].
    split; [|exact Hev]. split; [apply NoDup_nil; exact I|].
    split; [apply Forall_nil; exact I|exact Henc]. }
  intros ?. apply sound_bind; [sound_step|intros ?].
  apply sound_bind; [sound_step|intros ?].
  apply sound_bind; [sound_step|intros ?].
  apply sound_bind; [apply sound_forLoop; apply displayTurn_sound|intros rest1].
  apply sound_bind.
  { apply sound_modify. intros r [(Hnd & Hown & Henc) Hev].
    split; [|exact Hev]. split; [exact Hnd|].
    split; [exact Hown|apply NoDup_nil; exact I]. }
  intros ?. apply sound_bind; [sound_step|intros encodersCount].
  apply sound_bind; [apply sound_forLoop; apply encoderTurn_sound|intros rest2].
  apply sound_bind; [sound_step|intros id].
  apply sound_bind; [sound_step|intros ?].
  apply sound_bind; [sound_step|intros ?].
  apply sound_bind; [sound_step|intros ?].
  apply triggerInitialInfoEvents_sound.
Qed.

Lemma onSocketMessage_sound d : keeps sound (onSocketMessage d).
Proof.
  destruct d as [data|text]; simpl; [|intros r Hr; exact Hr].
  destruct (_ <? _)%nat; [|apply sound_emit; intros; exact I].
  destruct (EqualArrays _ MAGIC_BYTES_INITIAL); [apply handleInitialInfo_sound|].
  destruct (EqualArrays _ MAGIC_BYTES_MESSAGE); [|apply sound_emit; intros; exact I].
  apply sound_bind; [sound_step|intros message].
  apply sound_emit. intros; exact I.
Qed.

Lemma keeps_stateOf {A} (I : Receiver -> Prop) (m : M Receiver A) (r : Receiver) :
  keeps I m -> I r -> I (stateOf (m r)).
Proof. intros Hm Hr. specialize (Hm r Hr). destruct (m r); exact Hm. Qed.

Lemma receiverCall_sound (r : Receiver) (c : ReceiverCall) :
  sound r -> sound (receiverCall r c).
Proof.
  intros Hr. destruct c as [d| | |]; unfold receiverCall; apply keeps_stateOf;
    try exact Hr.
  - apply onSocketMessage_sound.
  - apply sound_emit. intros; exact I.
  - apply sound_emit. intros; exact I.
  - apply triggerInitialInfoEvents_sound.
Qed.

Lemma receiverRun_sound (cs : list ReceiverCall) (r : Receiver) :
  sound r -> sound (receiverRun r cs).
Proof.
  revert r. induction cs as [|c cs IH]; intros r Hr; simpl; [exact Hr|].
  apply IH. apply receiverCall_sound. exact Hr.
Qed.

(** Whatever frames arrive, well formed or not, and however socket
    events and calls of [triggerInitialInfoEvents] interleave with them,
    every [displayInfo] event the receiver raises lists each display id at
    most once and every [encoders] event each name at most once; at any
    moment [getEncoders] is free of repetitions and the display map holds
    every record under the id the record itself carries. *)
Theorem events_list_each_display_once (cs : list ReceiverCall) :
  Forall listsEachOnce (emitted (receiverRun newReceiver cs))
  /\ NoDup (getEncoders (receiverRun newReceiver cs))
  /\ forall id info,
       getDisplayInfo (receiverRun newReceiver cs) id = Some info ->
       displayId info = id.
Proof.
  assert (Hstart : sound newReceiver).
  { split; [|apply Forall_nil; exact I]. split; [apply NoDup_nil; exact I|].
    split; [apply Forall_nil; exact I|apply NoDup_nil; exact I]. }
  destruct (receiverRun_sound cs newReceiver Hstart) as [(Hnd & Hown & Henc) Hev].
  split; [exact Hev|]. split; [exact Henc|].
  intros id info Hget. unfold getDisplayInfo in Hget.
  induction Hown as [|[k v] m Hk _ IH]; simpl in Hget; [discriminate|].
  simpl in Hk. apply NoDup_cons in Hnd as [_ Hnd].
  destruct (k =? id) eqn:E.
  - apply Z.eqb_eq in E. injection Hget as <-. congruence.
  - apply IH; assumption.
Qed.

End SessionProofs.

Section FlagProofs.
Context `{Externals}.

(** ** The handshake flag *)

Lemma handleInitialInfo_outcome (data : bytes) (r : Receiver) :
  match handleInitialInfo data r with
  | Normal _ s => hasInitialInfo s = true
                  /\ emitted s = emitted r ++ lifecycleEvents s
  | Thrown _ s => identityKept r s
  end.
Proof.
  assert (Hrefl : identityKept r r) by (repeat split).
  pose proof (handleInitialInfo_triple data r r Hrefl) as Htriple.
  destruct (handleInitialInfo data r); [|exact Htriple].
  destruct Htriple as [He Hh]. auto.
Qed.

Lemma triggerInitialInfoEvents_run (r : Receiver) :
  exists s, triggerInitialInfoEvents r = Normal tt s
    /\ sessionState s = sessionState r
    /\ hasInitialInfo s = hasInitialInfo r
    /\ emitted s
       = emitted r ++ (if hasInitialInfo r then lifecycleEvents r else []).
Proof.
  unfold triggerInitialInfoEvents. unfold bind at 1. unfold gets at 1.
  destruct (hasInitialInfo r) eqn:E.
  - eexists. split; [reflexivity|]. simpl. rewrite <- !app_assoc. auto.
  - exists r. rewrite E, app_nil_r. auto.
Qed.

Lemma onSocketMessage_other (d : MessageData) (r : Receiver) :
  (exists data, d = ArrayBuffer data
     /\ onSocketMessage d r = handleInitialInfo data r)
  \/ let s := stateOf (onSocketMessage d r) in
     clientId s = clientId r /\ deviceName s = deviceName r
     /\ hasInitialInfo s = hasInitialInfo r
     /\ (emitted s = emitted r
         \/ exists e, isLifecycleEvent e = false /\ emitted s = emitted r ++ [e]).
Proof.
  destruct d as [data|text]; simpl; [|right; auto].
  destruct (_ <? _)%nat; [|right; simpl; repeat split; right; eexists; split;
                           [|reflexivity]; reflexivity].
  destruct (EqualArrays _ MAGIC_BYTES_INITIAL); [left; eauto|]. right.
  destruct (EqualArrays _ MAGIC_BYTES_MESSAGE).
  - unfold bind. destruct (DeviceMessage_fromBuffer data) as [message|]; simpl.
    + repeat split. right. eexists. split; [|reflexivity]. reflexivity.
    + auto.
  - simpl. repeat split. right. eexists. split; [|reflexivity]. reflexivity.
Qed.

Lemma receiverCall_flag (r : Receiver) (c : ReceiverCall) :
  hasInitialInfo r = true -> hasInitialInfo (receiverCall r c) = true.
Proof.
  intros Hr. destruct c as [d| | |]; unfold receiverCall; try exact Hr.
  - destruct (onSocketMessage_other d r) as [(data & -> & ->)|Hs].
    + pose proof (handleInitialInfo_outcome data r) as Ho.
      destruct (handleInitialInfo data r); simpl.
      * apply Ho.
      * destruct Ho as (_ & _ & Hh & _). congruence.
    + destruct Hs as (_ & _ & Hh & _). congruence.
  - destruct (triggerInitialInfoEvents_run r) as (s & -> & _ & Hh & _).
    simpl. congruence.
Qed.



(** The handshake flag is never reset: once a handshake has been
    decoded, no later frame (not even a handshake that throws half way),
    socket close or reopening clears it, so a call of
    [triggerInitialInfoEvents] always raises the three lifecycle events,
    computed from the fields as they then stand, and changes no field. *)
Theorem handshake_is_never_forgotten (r : Receiver) (cs : list ReceiverCall) :
  hasInitialInfo r = true ->
  let s := receiverRun r cs in
  hasInitialInfo s = true
  /\ emitted (receiverCall s eventsRequested) = emitted s ++ lifecycleEvents s
  /\ sessionState (receiverCall s eventsRequested) = sessionState s.
Proof.
  intros Hr. lazy zeta.
  assert (Hs : hasInitialInfo (receiverRun r cs) = true).
  { revert r Hr. induction cs as [|c cs IH]; intros r Hr; simpl; [exact Hr|].
    apply IH. apply receiverCall_flag. exact Hr. }
  split; [exact Hs|]. unfold receiverCall.
  destruct (triggerInitialInfoEvents_run (receiverRun r cs))
    as (s & -> & Hss & _ & He).
  rewrite Hs in He. simpl. auto.
Qed.

End FlagProofs.

(** ** How short a handshake can be *)

Lemma slice_length_le (b : bytes) (n : Z) :
  (length (Buffer.slice b n) <= length b)%nat.
Proof.
  unfold Buffer.slice, Buffer.slice2. lazy zeta.
  rewrite length_firstn, length_skipn. lia.
Qed.

Lemma slice_4_length (b : bytes) :
  (4 <= length b)%nat -> (length (Buffer.slice b 4) + 4 = length b)%nat.
Proof.
  intros Hb. unfold Buffer.slice, Buffer.slice2, Buffer.clampIndex. lazy zeta.
  rewrite length_firstn, length_skipn.
  destruct (Z.ltb_spec (Z.of_nat (length b)) 0); [lia|].
  repeat match goal with
         | |- context [?a <? ?b] => destruct (Z.ltb_spec a b)
         end; lia.
Qed.

Lemma readInt32BE_Some_length (b : bytes) (v : Z) :
  Buffer.readInt32BE b = Some v -> (4 <= length b)%nat.
Proof.
  destruct b as [|b0 [|b1 [|b2 [|b3 b]]]]; simpl; try discriminate. lia.
Qed.

Section LengthProofs.
Context `{Externals}.

Lemma orThrow_Normal {A} e (o : option A) (r s : Receiver) (a : A) :
  orThrow e o r = Normal a s -> o = Some a /\ s = r.
Proof. destruct o; simpl; [intros [= -> ->]; auto|discriminate]. Qed.

Lemma ret_Normal {A} (a b : A) (r s : Receiver) :
  ret a r = Normal b s -> b = a.
Proof. intros [= -> _]. reflexivity. Qed.

Lemma optionalRecord_shrinks {A} (n : Z) (decode : bytes -> option A)
  (store : A -> Receiver -> Receiver) (rest rest' : bytes) (r s : Receiver) :
  (if n =? 0 then ret rest
   else bind (orThrow DecodeError (decode (Buffer.slice2 rest 0 n)))
          (fun a => bind (modify (store a))
                      (fun _ => ret (Buffer.slice rest n)))) r
  = Normal rest' s ->
  (length rest' <= length rest)%nat.
Proof.
  destruct (n =? 0); intros Hrun.
  - apply ret_Normal in Hrun. subst rest'. lia.
  - apply bind_Normal_inv in Hrun as (a & t1 & _ & Hrun).
    apply bind_Normal_inv in Hrun as (? & t2 & _ & Hrun).
    apply ret_Normal in Hrun. subst rest'. apply slice_length_le.
Qed.

Lemma displayTurn_shrinks (rest rest' : bytes) (r s : Receiver) :
  displayTurn rest r = Normal rest' s -> (length rest' <= length rest)%nat.
Proof.
  unfold displayTurn. lazy zeta. intros Hrun.
  apply bind_Normal_inv in Hrun as (info & s1 & _ & Hrun).
  apply bind_Normal_inv in Hrun as (? & s2 & _ & Hrun).
  apply bind_Normal_inv in Hrun as (count & s3 & _ & Hrun).
  apply bind_Normal_inv in Hrun as (? & s4 & _ & Hrun).
  apply bind_Normal_inv in Hrun as (n1 & s5 & _ & Hrun).
  apply bind_Normal_inv in Hrun as (rest1 & s6 & Hscreen & Hrun).
  apply bind_Normal_inv in Hrun as (n2 & s7 & _ & Hrun).
  apply (optionalRecord_shrinks n1 ScreenInfo_fromBuffer
           (fun si => with_screenInfoMap
                        (fun m => JsMap.set m (displayId info) si))) in Hscreen.
  apply (optionalRecord_shrinks n2 VideoSettings_fromBuffer
           (fun vs => with_videoSettingsMap
                        (fun m => JsMap.set m (displayId info) vs))) in Hrun.
  pose proof (slice_length_le rest DisplayInfo_BUFFER_LENGTH).
  pose proof (slice_length_le (Buffer.slice rest DisplayInfo_BUFFER_LENGTH) 4).
  pose proof (slice_length_le
                (Buffer.slice (Buffer.slice rest DisplayInfo_BUFFER_LENGTH) 4) 4).
  pose proof (slice_length_le rest1 4).
  lia.
Qed.

Lemma encoderTurn_shrinks (rest rest' : bytes) (r s : Receiver) :
  encoderTurn rest r = Normal rest' s -> (length rest' <= length rest)%nat.
Proof.
  unfold encoderTurn. lazy zeta. intros Hrun.
  apply bind_Normal_inv in Hrun as (n & s1 & _ & Hrun).
  apply bind_Normal_inv in Hrun as (? & s2 & _ & Hrun).
  apply ret_Normal in Hrun. subst rest'.
  pose proof (slice_length_le rest 4).
  pose proof (slice_length_le (Buffer.slice rest 4) n). lia.
Qed.

Lemma forLoop_shrinks (body : bytes -> M Receiver bytes) (n : nat) :
  (forall rest rest' r s, body rest r = Normal rest' s ->
                          (length rest' <= length rest)%nat) ->
  forall rest rest' r s, forLoop n body rest r = Normal rest' s ->
                         (length rest' <= length rest)%nat.
Proof.
  intros Hbody. induction n as [|n IH]; intros rest rest' r s; simpl.
  - intros Hrun. apply ret_Normal in Hrun. subst rest'. lia.
  - intros Hrun. apply bind_Normal_inv in Hrun as (mid & s1 & Hturn & Hrun).
    apply Hbody in Hturn. apply IH in Hrun. lia.
Qed.

Lemma handleInitialInfo_needs_90 (data : bytes) (r s : Receiver) :
  handleInitialInfo data r = Normal tt s -> (90 <= length data)%nat.
Proof.
  unfold handleInitialInfo. lazy zeta. intros Hrun.
  apply bind_Normal_inv in Hrun as (nameBytes & s1 & _ & Hrun).
  apply bind_Normal_inv in Hrun as (rest & s2 & Hrest & Hrun).
  apply bind_Normal_inv in Hrun as (n & s3 & Hn & Hrun).
  apply bind_Normal_inv in Hrun as (? & s4 & _ & Hrun).
  apply bind_Normal_inv in Hrun as (? & s5 & _ & Hrun).
  apply bind_Normal_inv in Hrun as (? & s6 & _ & Hrun).
  apply bind_Normal_inv in Hrun as (? & s7 & _ & Hrun).
  apply bind_Normal_inv in Hrun as (rest1 & s8 & Hloop1 & Hrun).
  apply bind_Normal_inv in Hrun as (? & s9 & _ & Hrun).
  apply bind_Normal_inv in Hrun as (m & s10 & Hm & Hrun).
  apply bind_Normal_inv in Hrun as (rest2 & s11 & Hloop2 & Hrun).
  apply bind_Normal_inv in Hrun as (id & s12 & Hid & _).
  unfold Uint8Array2 in Hrest.
  destruct (_ <? _)%nat eqn:Hlen in Hrest; [discriminate|].
  injection Hrest as <- _. apply Nat.ltb_ge in Hlen.
  rewrite magic_length in *. unfold DEVICE_NAME_FIELD_LENGTH in *.
  apply orThrow_Normal in Hn as [Hn _], Hm as [Hm _], Hid as [Hid _].
  apply readInt32BE_Some_length in Hn, Hm, Hid.
  apply (forLoop_shrinks _ _ displayTurn_shrinks) in Hloop1.
  apply (forLoop_shrinks _ _ encoderTurn_shrinks) in Hloop2.
  pose proof (slice_4_length _ Hn) as E1.
  pose proof (slice_4_length _ Hm) as E2.
  rewrite length_skipn in *. lia.
Qed.

(** A handshake takes at least 90 bytes: the 14 magic bytes, the 64
    of the name field and three 32-bit integers (display count, encoder
    count, client id).  On any shorter frame [handleInitialInfo] throws,
    whatever the frame says and whatever the imported decoders answer,
    having raised no event and assigned neither [clientId], [deviceName]
    nor the handshake flag. *)
Theorem handshake_needs_90_bytes (data : bytes) (r : Receiver) :
  (length data < 90)%nat ->
  exists e s,
    handleInitialInfo data r = Thrown e s
    /\ emitted s = emitted r /\ clientId s = clientId r
    /\ deviceName s = deviceName r /\ hasInitialInfo s = hasInitialInfo r.
Proof.
  intros Hshort.
  pose proof (handleInitialInfo_outcome data r) as Ho.
  destruct (handleInitialInfo data r) as [[] s|e s] eqn:Hrun.
  - apply handleInitialInfo_needs_90 in Hrun. lia.
  - exists e, s. destruct Ho as (Hc & Hn & Hh & He). auto.
Qed.

(** [EqualArrays] answers [true] exactly when its arguments are the
    same sequence of bytes (same length, same byte at every index), and the
    order of the arguments does not matter. *)
Theorem EqualArrays_decides_equality (a b : bytes) :
  (EqualArrays a b = true <-> a = b)
  /\ EqualArrays a b = EqualArrays b a.
Proof.
  split; [apply EqualArrays_true|].
  destruct (EqualArrays a b) eqn:E1, (EqualArrays b a) eqn:E2; try reflexivity.
  - apply EqualArrays_true in E1. apply EqualArrays_false in E2. congruence.
  - apply EqualArrays_true in E2. apply EqualArrays_false in E1. congruence.
Qed.

End LengthProofs.

(** ** Looking a display up after the handshake *)

Section LookupProofs.
Context `{Externals}.

Lemma installDisplay_get (r : Receiver) (d : DisplayRecord) (id : Z) :
  JsMap.get (displayInfoMap (installDisplay r d)) id
  = if displayIdOf d =? id then Some (dr_info d)
    else JsMap.get (displayInfoMap r) id.
Proof.
  assert (Hdm : displayInfoMap (installDisplay r d)
                = JsMap.set (displayInfoMap r) (displayIdOf d) (dr_info d)).
  { unfold installDisplay, displayIdOf. lazy zeta.
    destruct (dr_screenInfo d), (dr_videoSettings d); reflexivity. }
  rewrite Hdm. destruct (displayIdOf d =? id) eqn:E.
  - apply Z.eqb_eq in E. subst id. apply JsMap_get_set_eq.
  - apply Z.eqb_neq in E. apply JsMap_get_set_ne. exact E.
Qed.

Lemma find_snoc {A} (p : A -> bool) (l : list A) (x : A) :
  find p (l ++ [x])
  = match find p l with
    | Some y => Some y
    | None => if p x then Some x else None
    end.
Proof.
  induction l as [|a l IH]; simpl; [reflexivity|].
  destruct (p a); [reflexivity|exact IH].
Qed.

Lemma fold_installDisplay_get (ds : list DisplayRecord) (r : Receiver) (id : Z) :
  JsMap.get (displayInfoMap (fold_left installDisplay ds r)) id
  = match find (fun d => displayIdOf d =? id) (rev ds) with
    | Some d => Some (dr_info d)
    | None => JsMap.get (displayInfoMap r) id
    end.
Proof.
  revert r. induction ds as [|d ds IH]; intros r; [reflexivity|].
  cbn [fold_left rev]. rewrite IH, find_snoc.
  destruct (find _ (rev ds)); [reflexivity|].
  rewrite installDisplay_get. destruct (displayIdOf d =? id); reflexivity.
Qed.

Lemma fold_installEncoder_displays (names : list bytes) (r : Receiver) :
  displayInfoMap (fold_left installEncoder names r) = displayInfoMap r.
Proof.
  revert r. induction names as [|n names IH]; intros r; [reflexivity|].
  cbn [fold_left]. rewrite IH. reflexivity.
Qed.

(** After a well-formed handshake, [getDisplayInfo(id)] answers the
    record of the display of the frame that carries this id, the last such
    display if the frame names the id more than once, and [undefined] for
    every id the frame does not name: nothing of the displays of an earlier
    handshake is left.  [getDeviceName()] answers the name field of the
    frame, decoded after its trailing zero bytes are removed. *)
Theorem getDisplayInfo_after_handshake (nameField : bytes)
  (displays : list DisplayRecord) (encoderNames : list bytes) (id : Z)
  (trailing : bytes) (r : Receiver) :
  wellFormedHandshake nameField displays encoderNames id ->
  exists s,
    handleInitialInfo (layHandshake nameField displays encoderNames id trailing) r
    = Normal tt s
    /\ (forall i, getDisplayInfo s i
                  = dr_info <$> find (fun d => displayIdOf d =? i) (rev displays))
    /\ getDeviceName s = utf8ByteArrayToString (filterTrailingZeroes nameField).
Proof.
  intros Hwf.
  rewrite (handleInitialInfo_layHandshake _ _ _ _ _ _ Hwf), handshakeTail_run.
  lazy zeta. eexists. split; [reflexivity|]. split; [|reflexivity].
  intros i. unfold getDisplayInfo.
  cbn [emit modify stateOf displayInfoMap with_hasInitialInfo with_deviceName
       with_clientId].
  rewrite fold_installEncoder_displays.
  cbn [with_encodersSet displayInfoMap].
  rewrite fold_installDisplay_get.
  destruct (find _ (rev displays)); reflexivity.
Qed.

End LookupProofs.

(** ** The rest of the classification, and the two lookups *)

Section LookupsProofs.
Context `{Externals}.

(** What [judgeConcurrency] answers outside key and touch events: a
    type among 1, 4, 5, 6, 7, 8, 9, 10, 11, 101, 102 is never concurrent,
    whatever the log holds; a scroll (type 3) is concurrent exactly when the
    record logged just before is a scroll too, and throws a [TypeError] when
    there is no such record; every other type is not concurrent.  The only
    way [judgeConcurrency] throws is the missing predecessor of a scroll or
    of a key event. *)
Theorem judgeConcurrency_other_types (w : Controller) (m : ActionMap.t) :
  let type := ActionJson.type (ActionMap.entries m) in
  (In type nonConcurrentType -> judgeConcurrency w (Some m) = Val false)
  /\ (type = Android.TYPE_SCROLL ->
      judgeConcurrency w (Some m)
      = match getLastAction w m with
        | Some p =>
            Val (ActionJson.type (ActionMap.entries p) =? Android.TYPE_SCROLL)
        | None => Throws TypeError
        end)
  /\ (~ In type [Android.TYPE_KEYCODE; Android.TYPE_TOUCH; Android.TYPE_SCROLL] ->
      judgeConcurrency w (Some m) = Val false)
  /\ (forall e, judgeConcurrency w (Some m) = Throws e ->
        e = TypeError /\ getLastAction w m = None
        /\ (type = Android.TYPE_SCROLL \/ type = Android.TYPE_KEYCODE)).
Proof.
  lazy zeta. unfold judgeConcurrency. lazy zeta.
  set (type := ActionJson.type (ActionMap.entries m)).
  split; [|split; [|split]].
  - intros Hin. apply existsb_eqb_In in Hin. rewrite Hin. reflexivity.
  - intros Htype. rewrite Htype. simpl.
    destruct (getLastAction w m) as [p|]; [|reflexivity].
    change Android.TYPE_SCROLL with 3.
    destruct (ActionJson.type (ActionMap.entries p) =? 3); reflexivity.
  - intros Hnot. destruct (existsb _ nonConcurrentType); [reflexivity|].
    cbv [Android.TYPE_KEYCODE Android.TYPE_TOUCH Android.TYPE_SCROLL In] in Hnot.
    destruct (type =? 0) eqn:E0; [apply Z.eqb_eq in E0; lia|].
    destruct (type =? 3) eqn:E3; [apply Z.eqb_eq in E3; lia|].
    destruct (type =? 2) eqn:E2; [apply Z.eqb_eq in E2; lia|].
    reflexivity.
  - intros e.
    destruct (existsb _ nonConcurrentType); [discriminate|].
    destruct (type =? 0) eqn:E0.
    + apply Z.eqb_eq in E0.
      destruct (eqNum _ 1); [discriminate|].
      destruct (includes _ _); [discriminate|].
      destruct (getLastAction w m) as [p|].
      * destruct (_ && _); discriminate.
      * intros [= <-]. auto.
    + destruct (type =? 3) eqn:E3.
      * apply Z.eqb_eq in E3.
        destruct (getLastAction w m) as [p|].
        -- destruct (_ =? 3); destruct (type =? 2);
             repeat match goal with
                    | |- context [eqNum ?x ?n] => destruct (eqNum x n)
                    end; discriminate.
        -- destruct (type =? 2) eqn:E2; [apply Z.eqb_eq in E2; lia|].
           intros [= <-]. auto.
      * destruct (type =? 2);
          repeat match goal with
                 | |- context [eqNum ?x ?n] => destruct (eqNum x n)
                 end; discriminate.
Qed.

(** The loop of [getLastExecutedAction] only looks at the keys before the
    current one. *)
Lemma lastExecutedKeyBefore_prefix (w : Controller) (keys : list Z) (t k0 : Z) :
  lastExecutedKeyBefore w keys t k0
  = fold_left (fun last key => if executedTruthy (lookupAction w key)
                               then key else last)
      (firstn (rank keys t) keys) k0.
Proof.
  revert k0. induction keys as [|key keys IH]; intros k0; simpl; [reflexivity|].
  destruct (key =? t); [reflexivity|]. simpl. apply IH.
Qed.

Lemma fold_last_executed (w : Controller) (before after : list Z) (k k0 : Z) :
  executedTruthy (lookupAction w k) = true ->
  (forall k', In k' after -> executedTruthy (lookupAction w k') = false) ->
  fold_left (fun last key => if executedTruthy (lookupAction w key)
                             then key else last)
    (before ++ k :: after) k0 = k.
Proof.
  intros Hk Hafter. rewrite fold_left_app. simpl. rewrite Hk.
  clear Hk. induction after as [|a after IH]; simpl; [reflexivity|].
  rewrite (Hafter a) by (simpl; auto). apply IH.
  intros k' Hin. apply Hafter. simpl. auto.
Qed.

(** [getLastExecutedAction] answers the latest record, among those
    logged before its argument, whose [executed] is [true]: records marked
    [false] or still unset are skipped, and so is everything logged after
    the argument.  When no earlier record is executed it answers what is
    stored under key 0, that is [undefined] unless a command was logged at
    time 0. *)
Theorem getLastExecutedAction_latest_executed (w : Controller) (m : ActionMap.t) :
  let keys := JsMap.keys (actionMaps w) in
  let earlier :=
    firstn (rank keys (ActionJson.action_time (ActionMap.entries m))) keys in
  (forall before k after,
     earlier = before ++ k :: after ->
     executedTruthy (lookupAction w k) = true ->
     (forall k', In k' after -> executedTruthy (lookupAction w k') = false) ->
     exists p, getLastExecutedAction w m = Some p
               /\ lookupAction w k = Some p
               /\ ActionMap.executed p = Some true)
  /\ ((forall k, In k earlier -> executedTruthy (lookupAction w k) = false) ->
      getLastExecutedAction w m = lookupAction w 0).
Proof.
  lazy zeta. unfold getLastExecutedAction. lazy zeta.
  rewrite lastExecutedKeyBefore_prefix. split.
  - intros before k after -> Hk Hafter.
    rewrite (fold_last_executed w before after k 0 Hk Hafter).
    unfold executedTruthy in Hk.
    destruct (lookupAction w k) as [p|]; [|discriminate].
    exists p. split; [reflexivity|split; [reflexivity|]].
    destruct (ActionMap.executed p) as [[|]|]; try discriminate. reflexivity.
  - intros Hnone. f_equal.
    induction (firstn _ _) as [|a l IH]; simpl; [reflexivity|].
    rewrite (Hnone a) by (simpl; auto). apply IH.
    intros k Hin. apply Hnone. simpl. auto.
Qed.

Lemma walkBack_result (w : Controller) (fuel : nat) (la o : option ActionMap.t) :
  walkBack fuel w la = Val o ->
  exists a, o = Some a /\ judgeConcurrency w (Some a) = Val false.
Proof.
  revert la. induction fuel as [|fuel IH]; intros la; simpl; [discriminate|].
  destruct (judgeConcurrency w la) as [[|]|e|] eqn:Hj; try discriminate.
  - destruct la as [m|]; [|discriminate]. apply IH.
  - intros [= <-]. destruct la as [a|]; [eauto|]. simpl in Hj. discriminate.
Qed.

Lemma walkBack_earlier (w : Controller) (fuel : nat) (la : option ActionMap.t)
  (a : ActionMap.t) (bound : nat) :
  keyed w -> ~ In 0 (JsMap.keys (actionMaps w)) ->
  (forall m, la = Some m ->
     (rank (JsMap.keys (actionMaps w))
        (ActionJson.action_time (ActionMap.entries m)) < bound)%nat) ->
  walkBack fuel w la = Val (Some a) ->
  (rank (JsMap.keys (actionMaps w))
     (ActionJson.action_time (ActionMap.entries a)) < bound)%nat.
Proof.
  intros Hkeyed Hzero. revert la.
  induction fuel as [|fuel IH]; intros la Hla; simpl; [discriminate|].
  destruct (judgeConcurrency w la) as [[|]|e|] eqn:Hj; try discriminate.
  - destruct la as [m|]; [|discriminate]. apply IH.
    intros m' Hm'.
    pose proof (getLastAction_earlier w m m' Hkeyed Hzero Hm') as Hlt.
    specialize (Hla m eq_refl). lia.
  - intros [= ->]. apply Hla. reflexivity.
Qed.

(** When [getLastNonConcurrencyAction] returns, it returns a record
    (never [undefined]) that [judgeConcurrency] classifies as not
    concurrent: the start of the run of concurrent commands its argument
    belongs to.  In a log that holds every record under its own time and
    none under 0, that record was logged before the argument. *)
Theorem getLastNonConcurrencyAction_result (w : Controller) (m : ActionMap.t)
  (o : option ActionMap.t) :
  getLastNonConcurrencyAction w m = Val o ->
  exists a,
    o = Some a
    /\ judgeConcurrency w (Some a) = Val false
    /\ (keyed w -> ~ In 0 (JsMap.keys (actionMaps w)) ->
        (rank (JsMap.keys (actionMaps w))
           (ActionJson.action_time (ActionMap.entries a))
         < rank (JsMap.keys (actionMaps w))
             (ActionJson.action_time (ActionMap.entries m)))%nat).
Proof.
  unfold getLastNonConcurrencyAction. intros Hwalk.
  destruct (walkBack_result _ _ _ _ Hwalk) as (a & -> & Hj).
  exists a. split; [reflexivity|split; [exact Hj|]].
  intros Hkeyed Hzero.
  apply (walkBack_earlier w (S (length (actionMaps w))) (getLastAction w m) a
           (rank (JsMap.keys (actionMaps w))
              (ActionJson.action_time (ActionMap.entries m))) Hkeyed Hzero);
    [|exact Hwalk].
  intros m' Hm'. apply (getLastAction_earlier w m m' Hkeyed Hzero Hm').
Qed.

End LookupsProofs.

(** ** The socket and the replay queue *)

Section SocketProofs.
Context `{Externals}.

Lemma disciplined_idle (w : Controller) (e : ControlMessage.t) (s : Step) :
  wsOpen (world s) = wsOpen w -> events (world s) = events w ->
  (forall e', ~ In (ws_send e') (effects s)) ->
  disciplined w e s.
Proof.
  intros Hws Hq Hnone. split; [exact Hws|]. split; [|left; exact Hq].
  intros e' Hin. destruct (Hnone e' Hin).
Qed.

Lemma disciplined_forward (w : Controller) (e : ControlMessage.t)
  (self : nat) (b : bool) (more : list Effect) (c : Completion) :
  (forall e', ~ In (ws_send e') more) ->
  disciplined w e
    (let '(w1, sent) := sendActionEvent w e in
     {| world := setExecuted self b w1; effects := sent ++ more;
        completion := c |}).
Proof.
  intros Hmore. unfold disciplined, sendActionEvent.
  destruct (wsOpen w) eqn:Hws; simpl; rewrite ?Hws.
  - split; [reflexivity|]. split; [|left; reflexivity].
    intros e' [[= <-]|Hin]; [auto|]. destruct (Hmore e' Hin).
  - split; [reflexivity|]. split; [|right; auto].
    intros e' Hin. destruct (Hmore e' Hin).
Qed.

Lemma concurrentVerdict_disciplined (w : Controller) (k : Locals) :
  disciplined w (event k) (concurrentVerdict w k).
Proof.
  unfold concurrentVerdict.
  destruct (getLastAction w _) as [la|];
    [|apply disciplined_idle; simpl; auto].
  destruct (executedTruthy (Some la)).
  - apply disciplined_forward. intros e' [Hin|[]]. discriminate Hin.
  - apply disciplined_idle; simpl; auto.
Qed.

Lemma afterTimeout_disciplined (w : Controller) (k : Locals) (now : Z) :
  disciplined w (event k) (afterTimeout w k now).
Proof.
  unfold afterTimeout. lazy zeta.
  destruct (getLastAction w _) as [la|];
    [|apply disciplined_idle; simpl; auto].
  destruct (_ >? 3000); [apply concurrentVerdict_disciplined|].
  destruct (hasExecuted la); [apply concurrentVerdict_disciplined|].
  apply disciplined_idle; simpl; auto.
  intros e' [Hin|[]]. discriminate Hin.
Qed.

Lemma afterAuthorization_disciplined (w : Controller) (k : Locals) :
  disciplined w (event k) (afterAuthorization w k).
Proof.
  unfold afterAuthorization.
  destruct (looseEqNumber _ _); [destruct (looseEqTrue _)|].
  - pose proof (disciplined_forward w (event k) (self k) true [] Returned) as Hf.
    destruct (sendActionEvent w (event k)) as [w1 sent].
    rewrite app_nil_r in Hf. apply Hf. intros e' [].
  - apply disciplined_idle; simpl; auto.
  - apply disciplined_idle; simpl; auto.
Qed.

Lemma onAuthorizationSettled_disciplined (w : Controller) (k : Locals)
  (resp : Response) :
  disciplined w (event k) (onAuthorizationSettled w k resp).
Proof.
  unfold onAuthorizationSettled.
  pose proof (afterAuthorization_disciplined (sendAction_settled w resp) k) as Hd.
  destruct resp; exact Hd.
Qed.

Lemma sendEvent_disciplined (r : Receiver) (w : Controller)
  (e : ControlMessage.t) (now : Z) :
  disciplined w e (sendEvent r w e now).
Proof.
  unfold sendEvent. lazy zeta.
  set (aj := make_action_json r e now).
  set (logged := logAction w (newActionMap aj) now).
  set (k := {| self := length (heap w); event := e; action_json := aj |}).
  assert (Hlift : forall s, disciplined logged e s -> disciplined w e s)
    by (intros s Hs; exact Hs).
  apply Hlift.
  assert (Hidle : forall effs c,
            (forall e', ~ In (ws_send e') effs) ->
            disciplined logged e {| world := logged; effects := effs;
                                    completion := c |}).
  { intros effs c Hnone. apply disciplined_idle; simpl; auto. }
  destruct (existsb _ sideEffectFree).
  - apply disciplined_forward. intros e' [Hin|[]]. discriminate Hin.
  - destruct (judgeConcurrency logged _) as [[|]|err|];
      try (apply Hidle; simpl; tauto).
    + destruct (getLastNonConcurrencyAction logged _) as [anc|err|];
        try (apply Hidle; simpl; tauto).
      destruct (getLastAction logged _) as [la|];
        [|apply Hidle; simpl; tauto].
      destruct (ActionMap.executed la).
      * apply (concurrentVerdict_disciplined logged k).
      * apply Hidle. intros e' [Hin|[]]. discriminate Hin.
    + destruct (getLastExecutedAction logged _) as [le|];
        [|apply Hidle; simpl; tauto].
      destruct (_ >? 500); apply Hidle; [|simpl; tauto].
      intros e' [Hin|[]]. discriminate Hin.
Qed.

(** One task, seen from the socket and the queue. *)
Lemma runTask_socket (m : Machine) (t : Task) :
  (forall e, In (ws_send e) (snd (runTask m t)) ->
             wsOpen (controller m) = true)
  /\ (wsOpen (controller (fst (runTask m t))) = wsOpen (controller m)
      \/ exists b, t = socketChanges b
                   /\ wsOpen (controller (fst (runTask m t))) = b)
  /\ (wsOpen (controller m) = true ->
      events (controller (fst (runTask m t))) = events (controller m)
      \/ events (controller (fst (runTask m t))) = tl (events (controller m))).
Proof.
  destruct t as [r e now|r now|i now|i resp|resp|b]; simpl.
  - destruct (sendEvent_disciplined r (controller m) e now) as (Hws & Hw & Hq).
    split; [intros e' Hin; apply (Hw e' Hin)|]. split; [left; exact Hws|].
    intros Hopen. left. destruct Hq as [Hq|[Hc _]]; [exact Hq|congruence].
  - destruct (events (controller m)) as [|e queue] eqn:Hqueue; simpl.
    + split; [intros e' []|]. rewrite Hqueue. auto.
    + destruct (sendEvent_disciplined r
                  (with_events (fun _ => queue) (controller m)) e now)
        as (Hws & Hw & Hq).
      split; [intros e' Hin; apply (Hw e' Hin)|]. split; [left; exact Hws|].
      intros Hopen. right. destruct Hq as [Hq|[Hc _]]; [exact Hq|].
      simpl in Hc. congruence.
  - destruct (parked m !! i) as [[[|] k]|]; simpl; try (split; [intros e' []|auto]).
    destruct (afterTimeout_disciplined (controller m) k now) as (Hws & Hw & Hq).
    split; [intros e' Hin; apply (Hw e' Hin)|]. split; [left; exact Hws|].
    intros Hopen. left. destruct Hq as [Hq|[Hc _]]; [exact Hq|congruence].
  - destruct (parked m !! i) as [[[|] k]|]; simpl; try (split; [intros e' []|auto]).
    destruct (onAuthorizationSettled_disciplined (controller m) k resp)
      as (Hws & Hw & Hq).
    split; [intros e' Hin; apply (Hw e' Hin)|]. split; [left; exact Hws|].
    intros Hopen. left. destruct Hq as [Hq|[Hc _]]; [exact Hq|congruence].
  - split; [intros e' []|]. destruct resp; simpl; auto.
  - split; [intros e' []|]. split; [right; eauto|auto].
Qed.

(** Once [stop()] has been called the replay queue is empty and,
    until the socket opens again, nothing is written to it: whatever calls
    of [sendEvent], timers and answers of the service follow, every command
    that passes admission is queued instead.  [stop()] does not cancel the
    invocations of [sendEvent] parked at an [await]. *)
Theorem nothing_is_written_after_stop (m : Machine) (ts : list Task) :
  Forall notOpening ts ->
  events (controller (stopped m)) = []
  /\ parked (stopped m) = parked m
  /\ wsOpen (controller (runTasks (stopped m) ts)) = false
  /\ forall e, ~ In (ws_send e) (runTasksEffects (stopped m) ts).
Proof.
  intros Hts.
  assert (Hclosed : wsOpen (controller (stopped m)) = false).
  { unfold stopped, stop. destruct (wsOpen (controller m)) eqn:E; simpl; auto. }
  split; [unfold stopped, stop; destruct (wsOpen (controller m)); reflexivity|].
  split; [reflexivity|].
  revert Hclosed. generalize (stopped m). clear m.
  induction ts as [|t ts IH]; intros m Hclosed; simpl; [auto|].
  apply Forall_cons in Hts as [Ht Hts].
  destruct (runTask_socket m t) as (Hw & Hws & _).
  assert (Hnext : wsOpen (controller (fst (runTask m t))) = false).
  { destruct Hws as [->|(b & -> & Hb)]; [exact Hclosed|].
    destruct b; [destruct Ht|exact Hb]. }
  destruct (IH Hts (fst (runTask m t)) Hnext) as [Hend Hnone].
  split; [exact Hend|]. intros e Hin. apply in_app_iff in Hin as [Hin|Hin].
  - apply Hw in Hin. congruence.
  - exact (Hnone e Hin).
Qed.

(** While the socket stays open, no command is queued: over any
    tasks other than the socket closing, the replay queue only loses
    commands from its front (to the replay loop) and never gains one. *)
Theorem open_socket_never_queues (m : Machine) (ts : list Task) :
  wsOpen (controller m) = true -> Forall notClosing ts ->
  wsOpen (controller (runTasks m ts)) = true
  /\ exists n, events (controller (runTasks m ts))
               = skipn n (events (controller m)).
Proof.
  revert m. induction ts as [|t ts IH]; intros m Hopen Hts; simpl.
  - split; [exact Hopen|]. exists O. reflexivity.
  - apply Forall_cons in Hts as [Ht Hts].
    destruct (runTask_socket m t) as (_ & Hws & Hq).
    assert (Hnext : wsOpen (controller (fst (runTask m t))) = true).
    { destruct Hws as [->|(b & -> & Hb)]; [exact Hopen|].
      destruct b; [exact Hb|destruct Ht]. }
    destruct (IH (fst (runTask m t)) Hnext Hts) as [Hend [n Hn]].
    split; [exact Hend|].
    destruct (Hq Hopen) as [E|E]; rewrite E in Hn.
    + exists n. exact Hn.
    + exists (S n). rewrite Hn.
      destruct (events (controller m)) as [|e q]; simpl; [|reflexivity].
      destruct n; reflexivity.
Qed.

Lemma replayTasks_S (r : Receiver) (clock : nat -> Z) (n : nat) :
  replayTasks r clock (S n)
  = replayQueued r (clock O) :: replayTasks r (fun i => clock (S i)) n.
Proof.
  unfold replayTasks. simpl. f_equal. rewrite <- seq_shift, map_map. reflexivity.
Qed.

Lemma replayLoop_tasks (r : Receiver) (fuel : nat) (m : Machine)
  (clock : nat -> Z) :
  wsOpen (controller m) = true ->
  keyed (controller m) -> ~ In 0 (JsMap.keys (actionMaps (controller m))) ->
  (forall i, clock i <> 0) ->
  (length (events (controller m)) < fuel)%nat ->
  let ts := replayTasks r clock (length (events (controller m))) in
  replayLoop fuel r m clock = Some (runTasks m ts, runTasksEffects m ts)
  /\ events (controller (runTasks m ts)) = [].
Proof.
  revert m clock. induction fuel as [|fuel IH];
    intros m clock Hopen Hkeyed Hzero Hclock Hfuel; [lia|].
  lazy zeta. simpl replayLoop.
  destruct (events (controller m)) as [|e queue] eqn:Hqueue.
  - simpl. auto.
  - cbn [length]. rewrite replayTasks_S.
    cbn [runTasks fold_left runTasksEffects].
    assert (Hstep : runTask m (replayQueued r (clock O))
              = (let s := sendEvent r (with_events (fun _ => queue) (controller m))
                            e (clock O) in
                 ({| controller := world s;
                     parked := parked m ++ parkedBy (completion s) |},
                  effects s))).
    { simpl. rewrite Hqueue. reflexivity. }
    rewrite Hstep. lazy zeta. cbn [fst snd].
    set (w0 := with_events (fun _ => queue) (controller m)).
    assert (Hkeyed0 : keyed w0) by (apply (keyed_same (controller m)); auto).
    destruct (sendEvent_keyed r w0 e (clock O) Hkeyed0 Hzero (Hclock O))
      as (Hk & Hz & Hdiv).
    destruct (sendEvent_disciplined r w0 e (clock O)) as (Hws & _ & Hq).
    set (s := sendEvent r w0 e (clock O)) in *.
    set (m1 := {| controller := world s;
                  parked := parked m ++ parkedBy (completion s) |}).
    assert (Hq1 : events (controller m1) = queue).
    { destruct Hq as [Hq|[Hc _]]; [exact Hq|]. simpl in Hc. congruence. }
    assert (Hopen1 : wsOpen (controller m1) = true)
      by (simpl; rewrite Hws; exact Hopen).
    simpl in Hfuel.
    destruct (IH m1 (fun i => clock (S i)) Hopen1 Hk Hz
                (fun i => Hclock (S i)) ltac:(rewrite Hq1; lia)) as [Hloop Hend].
    rewrite Hq1 in Hloop, Hend.
    split; [|exact Hend].
    unfold m1 in Hloop. clear Hend Hq1 Hopen1. clearbody s.
    destruct (completion s); try contradiction;
      cbn [parkedBy] in Hloop; rewrite Hloop; reflexivity.
Qed.

Lemma replay_writes_only_queued (r : Receiver) (n : nat) :
  forall (m : Machine) (clock : nat -> Z),
    length (events (controller m)) = n -> wsOpen (controller m) = true ->
    forall e, In (ws_send e) (runTasksEffects m (replayTasks r clock n)) ->
              In e (events (controller m)).
Proof.
  induction n as [|n IH]; intros m clock Hlen Hopen e.
  - intros [].
  - rewrite replayTasks_S. cbn [runTasksEffects]. intros Hin.
    destruct (events (controller m)) as [|e0 q] eqn:Hq; [discriminate|].
    apply in_app_iff in Hin as [Hin|Hin].
    + simpl in Hin. rewrite Hq in Hin. simpl in Hin.
      destruct (sendEvent_disciplined r (with_events (fun _ => q) (controller m))
                  e0 (clock O)) as (_ & Hw & _).
      destruct (Hw e Hin) as [-> _]. simpl. auto.
    + destruct (runTask_socket m (replayQueued r (clock O))) as (_ & Hws & _).
      assert (Hnext : events (controller (fst (runTask m (replayQueued r (clock O)))))
                      = q).
      { simpl. rewrite Hq. simpl.
        destruct (sendEvent_disciplined r (with_events (fun _ => q) (controller m))
                    e0 (clock O)) as (_ & _ & [E|[Hc _]]); [exact E|].
        simpl in Hc. congruence. }
      assert (Hopen' : wsOpen (controller (fst (runTask m (replayQueued r (clock O)))))
                       = true).
      { destruct Hws as [->|(b & Hb & _)]; [exact Hopen|discriminate]. }
      right. rewrite <- Hnext.
      apply (IH _ (fun i => clock (S i))); [|exact Hopen'|exact Hin].
      rewrite Hnext. simpl in Hlen. lia.
Qed.

(** [onSocketOpen] on an open socket, in a state reached while the
    clock never answers 0: it raises [connected], then its loop ends after
    one turn per queued command, leaving the queue empty.  The commands go
    through [sendEvent] again, in the order they were queued: each is logged
    a second time and passes admission a second time, so what the loop
    writes to the socket is only what that second admission forwards at
    once, and nothing that was not queued. *)
Theorem onSocketOpen_replays_the_queue (ts : list Task) (r : Receiver)
  (clock : nat -> Z) :
  let m := runTasks newMachine ts in
  let queue := events (controller m) in
  let r1 := stateOf (emit connected r) in
  let replay := replayTasks r1 clock (length queue) in
  Forall clockNotZero ts -> (forall i, clock i <> 0) ->
  wsOpen (controller m) = true ->
  onSocketOpen (S (length queue)) r m clock
  = Some (r1, runTasks m replay, runTasksEffects m replay)
  /\ emitted r1 = emitted r ++ [connected]
  /\ events (controller (runTasks m replay)) = []
  /\ forall e, In (ws_send e) (runTasksEffects m replay) -> In e queue.
Proof.
  intros m queue r1 replay Hts Hclock Hopen.
  assert (Hstart : keyed (controller newMachine)
                   /\ ~ In 0 (JsMap.keys (actionMaps (controller newMachine)))).
  { split; [intros k ref; simpl; discriminate|simpl; tauto]. }
  destruct (runTasks_keyed ts newMachine Hts Hstart) as [Hk Hz].
  fold m in Hk, Hz.
  destruct (replayLoop_tasks r1 (S (length queue)) m clock Hopen Hk Hz Hclock
              ltac:(unfold queue; lia)) as [Hloop Hend].
  fold queue in Hloop, Hend. fold replay in Hloop, Hend.
  unfold onSocketOpen. fold r1. rewrite Hloop.
  split; [reflexivity|]. split; [reflexivity|]. split; [exact Hend|].
  apply replay_writes_only_queued; [reflexivity|exact Hopen].
Qed.

End SocketProofs.

(** ** What a call of [sendEvent] leaves in the log *)

Lemma JsMap_keys_of_set {V} (m : JsMap.t V) (k : Z) (v : V) :
  JsMap.keys (JsMap.set m k v)
  = if existsb (Z.eqb k) (JsMap.keys m) then JsMap.keys m
    else JsMap.keys m ++ [k].
Proof.
  induction m as [|[k' v'] m IH]; simpl; [reflexivity|].
  rewrite (Z.eqb_sym k k'). destruct (k' =? k) eqn:E; simpl.
  - apply Z.eqb_eq in E. subst k'. reflexivity.
  - rewrite IH. destruct (existsb _ _); reflexivity.
Qed.

Section LogProofs.
Context `{Externals}.

Lemma sendEvent_log (r : Receiver) (w : Controller) (ev : ControlMessage.t)
  (now : Z) :
  actionMaps (world (sendEvent r w ev now))
  = JsMap.set (actionMaps w) now (length (heap w)).
Proof.
  unfold sendEvent. lazy zeta.
  set (aj := make_action_json r ev now).
  set (logged := logAction w (newActionMap aj) now).
  set (k := {| self := length (heap w); event := ev; action_json := aj |}).
  assert (Hlogged : actionMaps logged
                    = JsMap.set (actionMaps w) now (length (heap w)))
    by reflexivity.
  assert (Hverdict : actionMaps (world (concurrentVerdict logged k))
                     = actionMaps logged).
  { unfold concurrentVerdict.
    destruct (getLastAction logged _) as [la|]; [|reflexivity].
    destruct (executedTruthy (Some la)); [|reflexivity].
    pose proof (sendActionEvent_log logged (event k)) as Hl.
    destruct (sendActionEvent logged (event k)) as [w1 sent]. exact Hl. }
  destruct (existsb _ sideEffectFree).
  - pose proof (sendActionEvent_log logged ev) as Hl.
    destruct (sendActionEvent logged ev) as [w1 sent]. simpl in *.
    rewrite Hl. exact Hlogged.
  - destruct (judgeConcurrency logged _) as [[|]|e|]; try exact Hlogged.
    + destruct (getLastNonConcurrencyAction logged _) as [anc|e|];
        try exact Hlogged.
      destruct (getLastAction logged _) as [la|]; [|exact Hlogged].
      destruct (ActionMap.executed la); [|exact Hlogged].
      rewrite Hverdict. exact Hlogged.
    + destruct (getLastExecutedAction logged _) as [le|]; [|exact Hlogged].
      destruct (_ >? 500); exact Hlogged.
Qed.

(** Every call of [sendEvent], whatever becomes of the command and
    even when the call throws, adds exactly one record to the heap, with the
    fields of the command and the time of the call, and stores it in the log
    under that time.  A time the log does not hold yet goes last; a time it
    already holds (two calls in one millisecond) keeps its place, and the
    record that was stored under it is replaced, so the log no longer leads
    to the earlier command.  The other keys lead where they led. *)
Theorem sendEvent_logs_every_call (r : Receiver) (w : Controller)
  (event : ControlMessage.t) (now : Z) :
  let s := sendEvent r w event now in
  (exists rec,
     heap (world s) = heap w ++ [rec]
     /\ ActionMap.entries rec = make_action_json r event now
     /\ lookupAction (world s) now = Some rec)
  /\ JsMap.keys (actionMaps (world s))
     = (if existsb (Z.eqb now) (JsMap.keys (actionMaps w))
        then JsMap.keys (actionMaps w)
        else JsMap.keys (actionMaps w) ++ [now])
  /\ (forall k, k <> now ->
        JsMap.get (actionMaps (world s)) k = JsMap.get (actionMaps w) k).
Proof.
  lazy zeta. pose proof (sendEvent_log r w event now) as Hlog.
  split; [|split].
  - assert (Hrec : exists rec,
              heap (world (sendEvent r w event now)) = heap w ++ [rec]
              /\ ActionMap.entries rec = make_action_json r event now).
    { destruct (sendEvent_heap r w event now) as [[Hh _]|[[b Hh] _]];
        eexists; (split; [exact Hh|]); [reflexivity|].
      simpl. reflexivity. }
    destruct Hrec as (rec & Hh & He). exists rec.
    split; [exact Hh|split; [exact He|]].
    unfold lookupAction. rewrite Hlog, JsMap_get_set_eq, Hh.
    apply list_lookup_middle. reflexivity.
  - rewrite Hlog. apply JsMap_keys_of_set.
  - intros k Hne. rewrite Hlog. apply JsMap_get_set_ne. auto.
Qed.

End LogProofs.

(** ** The revision with the synchronous [sendEvent] *)

Section SynchronousProofs.
Context `{Externals}.

Lemma synchronous_forward (w logged : Controller) (e : ControlMessage.t)
  (aj : ActionJson.t) (c : bool) (actionMap : ActionMap.t) (now : Z) :
  logged = logAction w actionMap now ->
  let s := let '(w1, sent) := sendActionEvent logged e in
           {| world := setExecuted (length (heap w)) true w1;
              effects := sent ++ [fetch_sendAction aj c];
              completion := Returned |} in
  completion s = Returned
  /\ resolution s (length (heap w)) = Some (Some true)
  /\ forwarded w e s
  /\ In (fetch_sendAction aj c) (effects s)
  /\ disciplined w e s.
Proof.
  intros ->. lazy zeta.
  pose proof (disciplined_forward (logAction w actionMap now) e
                (length (heap w)) true [fetch_sendAction aj c] Returned) as Hd.
  unfold sendActionEvent, forwarded, resolution in *.
  change (wsOpen (logAction w actionMap now)) with (wsOpen w) in *.
  destruct (wsOpen w) eqn:Hws; simpl in *.
  - split; [reflexivity|]. split.
    { rewrite list_lookup_alter_eq, list_lookup_middle by reflexivity.
      reflexivity. }
    split; [auto|]. split; [auto|].
    apply Hd. intros e' [Hin|[]]. discriminate Hin.
  - split; [reflexivity|]. split.
    { rewrite list_lookup_alter_eq, list_lookup_middle by reflexivity.
      reflexivity. }
    split; [reflexivity|]. split; [auto|].
    apply Hd. intros e' [Hin|[]]. discriminate Hin.
Qed.

Lemma synchronous_idle (w : Controller) (e : ControlMessage.t)
  (actionMap : ActionMap.t) (now : Z) (c : Completion) :
  ActionMap.executed actionMap = None ->
  let s := {| world := logAction w actionMap now; effects := [];
              completion := c |} in
  resolution s (length (heap w)) = Some None
  /\ notForwarded w s /\ noAuthorizationCall s /\ disciplined w e s.
Proof.
  intros Hunset. lazy zeta. unfold resolution, notForwarded, noAuthorizationCall.
  simpl. rewrite list_lookup_middle by reflexivity. simpl. rewrite Hunset.
  split; [reflexivity|]. split; [split; [tauto|reflexivity]|].
  split; [tauto|]. apply disciplined_idle; simpl; auto.
Qed.

Lemma synchronous_refused (w : Controller) (e : ControlMessage.t)
  (actionMap : ActionMap.t) (now : Z) :
  let s := {| world := setExecuted (length (heap w)) false
                         (logAction w actionMap now);
              effects := []; completion := Returned |} in
  resolution s (length (heap w)) = Some (Some false)
  /\ notForwarded w s /\ noAuthorizationCall s /\ disciplined w e s.
Proof.
  lazy zeta. unfold resolution, notForwarded, noAuthorizationCall. simpl.
  rewrite list_lookup_alter_eq, list_lookup_middle by reflexivity. simpl.
  split; [reflexivity|]. split; [split; [tauto|reflexivity]|].
  split; [tauto|]. apply disciplined_idle; simpl; auto.
Qed.

Lemma judgeConcurrency_throws_TypeError (w : Controller)
  (la : option ActionMap.t) (e : JsError) :
  judgeConcurrency w la = Throws e -> e = TypeError.
Proof.
  unfold judgeConcurrency. destruct la as [m|]; [|intros [= <-]; reflexivity].
  lazy zeta.
  repeat match goal with
         | |- context [match ?c with _ => _ end] => destruct c
         end; intros [= <-] || discriminate; reflexivity.
Qed.

(** What a call of the synchronous [sendEvent] comes to, in one of three
    ways. *)
Lemma synchronous_sendEvent_cases (r : Receiver) (w : Controller)
  (event : ControlMessage.t) (now : Z) :
  let s := Synchronous.sendEvent r w event now in
  let self := length (heap w) in
  disciplined w event s
  /\ (completion s = Returned \/ completion s = Threw TypeError)
  /\ ((completion s = Returned
       /\ resolution s self = Some (Some true)
       /\ forwarded w event s
       /\ exists c, In (fetch_sendAction (make_action_json r event now) c)
                      (effects s))
      \/ ((resolution s self = Some (Some false) \/ resolution s self = Some None)
          /\ notForwarded w s /\ noAuthorizationCall s)).
Proof.
  lazy zeta. unfold Synchronous.sendEvent. lazy zeta.
  set (aj := make_action_json r event now).
  set (logged := logAction w (newActionMap aj) now).
  assert (Hfwd : forall c,
            let s := let '(w1, sent) := sendActionEvent logged event in
                     {| world := setExecuted (length (heap w)) true w1;
                        effects := sent ++ [fetch_sendAction aj c];
                        completion := Returned |} in
            disciplined w event s
            /\ (completion s = Returned \/ completion s = Threw TypeError)
            /\ ((completion s = Returned
                 /\ resolution s (length (heap w)) = Some (Some true)
                 /\ forwarded w event s
                 /\ exists c, In (fetch_sendAction aj c) (effects s))
                \/ ((resolution s (length (heap w)) = Some (Some false)
                     \/ resolution s (length (heap w)) = Some None)
                    /\ notForwarded w s /\ noAuthorizationCall s))).
  { intros c.
    destruct (synchronous_forward w logged event aj c (newActionMap aj) now
                eq_refl) as (H1 & H2 & H3 & H4 & H5).
    split; [exact H5|]. split; [left; exact H1|]. left. eauto. }
  assert (Hidle : forall c, c = Returned \/ c = Threw TypeError ->
            let s := {| world := logged; effects := []; completion := c |} in
            disciplined w event s
            /\ (completion s = Returned \/ completion s = Threw TypeError)
            /\ ((completion s = Returned
                 /\ resolution s (length (heap w)) = Some (Some true)
                 /\ forwarded w event s
                 /\ exists c, In (fetch_sendAction aj c) (effects s))
                \/ ((resolution s (length (heap w)) = Some (Some false)
                     \/ resolution s (length (heap w)) = Some None)
                    /\ notForwarded w s /\ noAuthorizationCall s))).
  { intros c Hc.
    destruct (synchronous_idle w event (newActionMap aj) now c eq_refl)
      as (H1 & H2 & H3 & H4).
    split; [exact H4|]. split; [exact Hc|]. right. auto. }
  destruct (existsb _ sideEffectFree); [apply Hfwd|].
  destruct (judgeConcurrency logged _) as [[|]|e|] eqn:Hj.
  - destruct (getLastAction logged _) as [la|]; [|apply Hidle; auto].
    destruct (executedTruthy (Some la)); [apply Hfwd|].
    destruct (synchronous_refused w event (newActionMap aj) now)
      as (H1 & H2 & H3 & H4).
    split; [exact H4|]. split; [left; reflexivity|]. right. auto.
  - destruct (getLastExecutedAction logged _) as [le|]; [|apply Hidle; auto].
    destruct (_ >? 3000); [apply Hfwd|apply Hidle; auto].
  - rewrite (judgeConcurrency_throws_TypeError _ _ _ Hj). apply Hidle. auto.
  - destruct (judgeConcurrency_never_loops _ _ Hj).
Qed.

(** In the revision with the synchronous [sendEvent], every call
    decides its command before it returns: it returns or throws a
    [TypeError], never waiting on the service or on a timer.  Either the
    command is forwarded (written to the open socket or queued), reported to
    the service and marked [executed = true], or nothing leaves the class
    and the record is marked [false] or left unset.  A command that is not
    concurrent and not on the fast path passes exactly when more than
    3000 ms separate it from the last executed record, and is left unset
    otherwise. *)
Theorem synchronous_sendEvent_decides_at_once (r : Receiver) (w : Controller)
  (event : ControlMessage.t) (now : Z) :
  let s := Synchronous.sendEvent r w event now in
  let self := length (heap w) in
  let own := newActionMap (make_action_json r event now) in
  let logged := logAction w own now in
  (completion s = Returned \/ completion s = Threw TypeError)
  /\ ((resolution s self = Some (Some true)
       /\ forwarded w event s
       /\ exists c, In (fetch_sendAction (make_action_json r event now) c)
                      (effects s))
      \/ (resolution s self <> Some (Some true)
          /\ notForwarded w s /\ noAuthorizationCall s))
  /\ (~ In (ControlMessage.type event) sideEffectFree ->
      judgeConcurrency logged (Some own) = Val false ->
      forall p, getLastExecutedAction logged own = Some p ->
        resolution s self
        = if now - ActionJson.action_time (ActionMap.entries p) >? 3000
          then Some (Some true) else Some None).
Proof.
  lazy zeta.
  destruct (synchronous_sendEvent_cases r w event now) as (_ & Hc & Hcases).
  split; [exact Hc|]. split.
  - destruct Hcases as [(_ & Ht & Hf & Hr)|(Hu & Hn & Ha)].
    + left. auto.
    + right. split; [|auto]. destruct Hu as [-> | ->]; discriminate.
  - intros Hslow Hj p Hp. unfold Synchronous.sendEvent. lazy zeta.
    change (ActionJson.type (make_action_json r event now))
      with (ControlMessage.type event).
    apply existsb_eqb_not_In in Hslow. rewrite Hslow, Hj, Hp.
    destruct (_ >? 3000).
    + apply (synchronous_forward w _ event (make_action_json r event now) false
               (newActionMap (make_action_json r event now)) now eq_refl).
    + apply (synchronous_idle w event
               (newActionMap (make_action_json r event now)) now Returned eq_refl).
Qed.




End SynchronousProofs.

(** ** A command leaves exactly when its record is marked executed *)

Section LeavesProofs.
Context `{Externals}.

Lemma leaves_forward (w w0 : Controller) (e : ControlMessage.t) (self : nat)
  (more : list Effect) (c : Completion) :
  wsOpen w0 = wsOpen w -> events w0 = events w -> is_Some (heap w0 !! self) ->
  leavesIffExecuted w e self
    (let '(w1, sent) := sendActionEvent w0 e in
     {| world := setExecuted self true w1; effects := sent ++ more;
        completion := c |}).
Proof.
  intros Hws Hq [rec Hrec]. left.
  unfold sendActionEvent, forwarded, resolution. rewrite Hws.
  destruct (wsOpen w); simpl; rewrite list_lookup_alter_eq, Hrec; simpl.
  - split; [reflexivity|]. auto.
  - split; [reflexivity|]. rewrite Hq. reflexivity.
Qed.

Lemma leaves_refuse (w w0 : Controller) (e : ControlMessage.t) (self : nat)
  (c : Completion) :
  events w0 = events w -> is_Some (heap w0 !! self) ->
  leavesIffExecuted w e self
    {| world := setExecuted self false w0; effects := []; completion := c |}.
Proof.
  intros Hq [rec Hrec]. right. unfold resolution, notForwarded. simpl.
  rewrite list_lookup_alter_eq, Hrec. simpl.
  split; [discriminate|]. split; [tauto|exact Hq].
Qed.

Lemma leaves_idle (w w0 : Controller) (e : ControlMessage.t) (self : nat)
  (effs : list Effect) (c : Completion) :
  events w0 = events w -> (forall e', ~ In (ws_send e') effs) ->
  (exists rec, heap w0 !! self = Some rec /\ ActionMap.executed rec = None) ->
  leavesIffExecuted w e self {| world := w0; effects := effs; completion := c |}.
Proof.
  intros Hq Hnone (rec & Hrec & Hunset). right.
  unfold resolution, notForwarded. simpl. rewrite Hrec. simpl. rewrite Hunset.
  split; [discriminate|]. split; [exact Hnone|exact Hq].
Qed.

Lemma concurrentVerdict_leaves (w w0 : Controller) (k : Locals) :
  wsOpen w0 = wsOpen w -> events w0 = events w -> pending w0 (self k) ->
  leavesIffExecuted w (event k) (self k) (concurrentVerdict w0 k).
Proof.
  intros Hws Hq Hpending. unfold concurrentVerdict.
  assert (Hown : is_Some (heap w0 !! self k)).
  { destruct Hpending as (rec & Hrec & _). eauto. }
  destruct (getLastAction w0 _) as [la|].
  - destruct (executedTruthy (Some la)).
    + apply leaves_forward; assumption.
    + apply leaves_refuse; assumption.
  - apply leaves_idle; [exact Hq|intros e' []|exact Hpending].
Qed.

Lemma afterTimeout_leaves (w : Controller) (k : Locals) (now : Z) :
  pending w (self k) ->
  leavesIffExecuted w (event k) (self k) (afterTimeout w k now).
Proof.
  intros Hpending. unfold afterTimeout. lazy zeta.
  destruct (getLastAction w _) as [la|];
    [|apply leaves_idle; [reflexivity|intros e' []|exact Hpending]].
  destruct (_ >? 3000); [apply concurrentVerdict_leaves; auto|].
  destruct (hasExecuted la); [apply concurrentVerdict_leaves; auto|].
  apply leaves_idle; [reflexivity| |exact Hpending].
  intros e' [Hin|[]]. discriminate Hin.
Qed.

Lemma onAuthorizationSettled_leaves (w : Controller) (k : Locals)
  (resp : Response) :
  pending w (self k) ->
  leavesIffExecuted w (event k) (self k) (onAuthorizationSettled w k resp).
Proof.
  intros Hpending. unfold onAuthorizationSettled, afterAuthorization.
  set (w0 := sendAction_settled w resp).
  assert (Hws : wsOpen w0 = wsOpen w) by (destruct resp; reflexivity).
  assert (Hq : events w0 = events w) by (destruct resp; reflexivity).
  assert (Hown : is_Some (heap w0 !! self k)).
  { destruct Hpending as (rec & Hrec & _). destruct resp; simpl; eauto. }
  destruct (looseEqNumber _ _); [destruct (looseEqTrue _)|].
  - pose proof (leaves_forward w w0 (event k) (self k) [] Returned Hws Hq Hown)
      as Hf.
    destruct (sendActionEvent w0 (event k)) as [w1 sent].
    rewrite app_nil_r in Hf. exact Hf.
  - apply leaves_refuse; assumption.
  - apply leaves_refuse; assumption.
Qed.

Lemma sendEvent_leaves (r : Receiver) (w : Controller) (e : ControlMessage.t)
  (now : Z) :
  leavesIffExecuted w e (length (heap w)) (sendEvent r w e now).
Proof.
  unfold sendEvent. lazy zeta.
  set (aj := make_action_json r e now).
  set (logged := logAction w (newActionMap aj) now).
  set (k := {| self := length (heap w); event := e; action_json := aj |}).
  assert (Hpending : pending logged (length (heap w))).
  { exists (newActionMap aj). split; [|reflexivity].
    unfold logged, logAction. simpl. apply list_lookup_middle. reflexivity. }
  assert (Hown : is_Some (heap logged !! length (heap w))).
  { destruct Hpending as (rec & Hrec & _). eauto. }
  assert (Hidle : forall effs c, (forall e', ~ In (ws_send e') effs) ->
            leavesIffExecuted w e (length (heap w))
              {| world := logged; effects := effs; completion := c |}).
  { intros effs c Hnone. apply leaves_idle; [reflexivity|exact Hnone|exact Hpending]. }
  destruct (existsb _ sideEffectFree).
  - apply leaves_forward; [reflexivity|reflexivity|exact Hown].
  - destruct (judgeConcurrency logged _) as [[|]|err|];
      try (apply Hidle; simpl; tauto).
    + destruct (getLastNonConcurrencyAction logged _) as [anc|err|];
        try (apply Hidle; simpl; tauto).
      destruct (getLastAction logged _) as [la|]; [|apply Hidle; simpl; tauto].
      destruct (ActionMap.executed la).
      * apply (concurrentVerdict_leaves w logged k); [reflexivity|reflexivity|].
        exact Hpending.
      * apply Hidle. intros e' [Hin|[]]. discriminate Hin.
    + destruct (getLastExecutedAction logged _) as [le|];
        [|apply Hidle; simpl; tauto].
      destruct (_ >? 500); apply Hidle; [|simpl; tauto].
      intros e' [Hin|[]]. discriminate Hin.
Qed.

(** At every moment of a run of the machine, whichever piece of
    [sendEvent] runs next (a new call, the poll loop of a parked invocation
    after its timer, the continuation of a parked invocation after its
    awaited request), the command leaves the class exactly when the piece
    marks its record [executed = true]: a record marked [true] means the
    command was written to the open socket or queued for replay, and a
    record marked [false] or left unset means nothing was written or
    queued. *)
Theorem a_command_leaves_iff_marked_executed (ts : list Task) :
  let m := runTasks newMachine ts in
  (forall r e now,
     leavesIffExecuted (controller m) e (length (heap (controller m)))
       (sendEvent r (controller m) e now))
  /\ (forall i k now,
        parked m !! i = Some (OnTimer, k) ->
        leavesIffExecuted (controller m) (event k) (self k)
          (afterTimeout (controller m) k now))
  /\ (forall i k resp,
        parked m !! i = Some (OnRequest, k) ->
        leavesIffExecuted (controller m) (event k) (self k)
          (onAuthorizationSettled (controller m) k resp)).
Proof.
  lazy zeta.
  assert (Hcons : consistent newMachine).
  { split; simpl; [apply NoDup_nil_2|apply Forall_nil_2]. }
  destruct (runTasks_keeps ts newMachine Hcons) as [[_ Hall] _].
  assert (Hpending : forall i a k,
            parked (runTasks newMachine ts) !! i = Some (a, k) ->
            pending (controller (runTasks newMachine ts)) (self k)).
  { intros i a k Hi. rewrite Forall_lookup in Hall. apply (Hall i (a, k) Hi). }
  split; [intros r e now; apply sendEvent_leaves|]. split.
  - intros i k now Hi. apply afterTimeout_leaves. apply (Hpending i _ _ Hi).
  - intros i k resp Hi. apply onAuthorizationSettled_leaves.
    apply (Hpending i _ _ Hi).
Qed.

End LeavesProofs.

(** * Part V: the handshake, whatever the frame *)

Section OutcomeProofs.
Context `{Externals}.

(** ** Two runs of the handshake side by side *)

Lemma alikeStates_bind {A B} P Q' Q E (m : M Receiver A) (k : A -> M Receiver B) :
  alikeStates P Q' E m -> (forall a, alikeStates Q' Q E (k a)) ->
  alikeStates P Q E (bind m k).
Proof.
  intros Hm Hk r1 r2 HP. unfold bind. specialize (Hm r1 r2 HP).
  destruct (m r1) as [a s1|e1 s1], (m r2) as [b s2|e2 s2]; try contradiction.
  - destruct Hm as [<- HQ]. exact (Hk a s1 s2 HQ).
  - exact Hm.
Qed.

Lemma alikeStates_modify (P Q E : Receiver -> Receiver -> Prop) f :
  (forall r1 r2, P r1 r2 -> Q (f r1) (f r2)) ->
  alikeStates P Q E (modify f).
Proof. intros Hf r1 r2 HP. simpl. auto. Qed.

Lemma alikeStates_ret {A} (P E : Receiver -> Receiver -> Prop) (a : A) :
  alikeStates P P E (ret a).
Proof. intros r1 r2 HP. simpl. auto. Qed.

Lemma alikeStates_orThrow {A} (P E : Receiver -> Receiver -> Prop) e
  (o : option A) :
  (forall r1 r2, P r1 r2 -> E r1 r2) -> alikeStates P P E (orThrow e o).
Proof. intros HE r1 r2 HP. destruct o; simpl; auto. Qed.

Lemma alikeStates_if {A} P Q E (c : bool) (m1 m2 : M Receiver A) :
  alikeStates P Q E m1 -> alikeStates P Q E m2 ->
  alikeStates P Q E (if c then m1 else m2).
Proof. destruct c; auto. Qed.

Lemma alikeStates_forLoop {A} (P E : Receiver -> Receiver -> Prop)
  (body : A -> M Receiver A) n a :
  (forall x, alikeStates P P E (body x)) ->
  alikeStates P P E (forLoop n body a).
Proof.
  intros Hbody. revert a. induction n as [|n IH]; intros a; simpl.
  - apply alikeStates_ret.
  - eapply alikeStates_bind; [apply Hbody|]. intros a'. apply IH.
Qed.

Lemma displaysRebuilt_rebuilt r1 r2 s1 s2 :
  displaysRebuilt r1 r2 s1 s2 -> rebuilt r1 r2 s1 s2.
Proof. intros (Hm & H1 & H2). split; [exact Hm|left; auto]. Qed.

Lemma allRebuilt_rebuilt r1 r2 s1 s2 : allRebuilt s1 s2 -> rebuilt r1 r2 s1 s2.
Proof. intros (Hm & He). split; [exact Hm|right; exact He]. Qed.

(** A write to one display map, the same in both runs. *)
Ltac same_write :=
  apply alikeStates_modify;
  let s1 := fresh "s1" in
  let s2 := fresh "s2" in
  let Hm := fresh "Hm" in
  intros s1 s2 Hm;
  first
    [ destruct Hm as (Hm & ? & ?); unfold displaysRebuilt, displayMaps in *;
      simpl; injection Hm as -> -> -> ->; auto
    | destruct Hm as (Hm & ?); unfold allRebuilt, displayMaps in *;
      simpl; injection Hm as -> -> -> ->; split; [reflexivity|];
      first [assumption|congruence] ].

(** The next statement reads the frame, or writes a map; [R] relates the
    two states after it. *)
Ltac next_read HE R x :=
  eapply (alikeStates_bind _ R); [apply alikeStates_orThrow; exact HE|intros x].

Ltac next_write R :=
  eapply (alikeStates_bind _ R); [same_write|intros ?].

Lemma displayTurn_alikeStates r1 r2 rest :
  alikeStates (displaysRebuilt r1 r2) (displaysRebuilt r1 r2) (rebuilt r1 r2)
    (displayTurn rest).
Proof.
  unfold displayTurn. lazy zeta.
  pose proof (displaysRebuilt_rebuilt r1 r2) as HE.
  next_read HE (displaysRebuilt r1 r2) info.
  next_write (displaysRebuilt r1 r2).
  next_read HE (displaysRebuilt r1 r2) count.
  next_write (displaysRebuilt r1 r2).
  next_read HE (displaysRebuilt r1 r2) n1.
  eapply (alikeStates_bind _ (displaysRebuilt r1 r2)).
  { apply alikeStates_if; [apply alikeStates_ret|].
    next_read HE (displaysRebuilt r1 r2) si.
    next_write (displaysRebuilt r1 r2). apply alikeStates_ret. }
  intros rest1.
  next_read HE (displaysRebuilt r1 r2) n2.
  apply alikeStates_if; [apply alikeStates_ret|].
  next_read HE (displaysRebuilt r1 r2) vs.
  next_write (displaysRebuilt r1 r2). apply alikeStates_ret.
Qed.

Lemma encoderTurn_alikeStates r1 r2 rest :
  alikeStates allRebuilt allRebuilt (rebuilt r1 r2) (encoderTurn rest).
Proof.
  unfold encoderTurn. lazy zeta.
  pose proof (allRebuilt_rebuilt r1 r2) as HE.
  next_read HE allRebuilt n.
  next_write allRebuilt. apply alikeStates_ret.
Qed.

Lemma decodeAfterCount_alikeStates r1 r2 nameBytes rest n :
  alikeStates (fun s1 s2 => s1 = r1 /\ s2 = r2) allRebuilt (rebuilt r1 r2)
    (decodeAfterCount nameBytes rest n).
Proof.
  unfold decodeAfterCount. lazy zeta.
  pose proof (allRebuilt_rebuilt r1 r2) as HE.
  eapply (alikeStates_bind _
            (fun s1 s2 => displayInfoMap s1 = displayInfoMap s2
                          /\ encodersSet s1 = encodersSet r1
                          /\ encodersSet s2 = encodersSet r2)).
  { apply alikeStates_modify. intros s1 s2 [-> ->]. simpl. auto. }
  intros ?.
  eapply (alikeStates_bind _
            (fun s1 s2 => displayInfoMap s1 = displayInfoMap s2
                          /\ connectionCountMap s1 = connectionCountMap s2
                          /\ encodersSet s1 = encodersSet r1
                          /\ encodersSet s2 = encodersSet r2)).
  { apply alikeStates_modify. intros s1 s2 (? & ? & ?). simpl. auto. }
  intros ?.
  eapply (alikeStates_bind _
            (fun s1 s2 => displayInfoMap s1 = displayInfoMap s2
                          /\ connectionCountMap s1 = connectionCountMap s2
                          /\ screenInfoMap s1 = screenInfoMap s2
                          /\ encodersSet s1 = encodersSet r1
                          /\ encodersSet s2 = encodersSet r2)).
  { apply alikeStates_modify. intros s1 s2 (? & ? & ? & ?). simpl. auto. }
  intros ?.
  eapply (alikeStates_bind _ (displaysRebuilt r1 r2)).
  { apply alikeStates_modify. intros s1 s2 (E1 & E2 & E3 & ? & ?).
    unfold displaysRebuilt, displayMaps. simpl. rewrite E1, E2, E3. auto. }
  intros ?.
  eapply (alikeStates_bind _ (displaysRebuilt r1 r2));
    [apply alikeStates_forLoop; intros x; apply displayTurn_alikeStates|].
  intros rest1.
  eapply (alikeStates_bind _ allRebuilt).
  { apply alikeStates_modify. intros s1 s2 (Hm & _ & _).
    unfold allRebuilt, displayMaps in *. simpl. auto. }
  intros ?.
  eapply (alikeStates_bind _ allRebuilt);
    [apply alikeStates_orThrow; exact HE|intros m].
  eapply (alikeStates_bind _ allRebuilt);
    [apply alikeStates_forLoop; intros x; apply encoderTurn_alikeStates|].
  intros rest2.
  eapply (alikeStates_bind _ allRebuilt);
    [apply alikeStates_orThrow; exact HE|intros id].
  eapply (alikeStates_bind _ allRebuilt); [same_write|intros ?].
  eapply (alikeStates_bind _ allRebuilt); [same_write|intros ?].
  eapply (alikeStates_bind _ allRebuilt); [same_write|intros ?].
  intros s1 s2 (Hm & He).
  destruct (triggerInitialInfoEvents_run s1) as (t1 & -> & Hs1 & _ & _).
  destruct (triggerInitialInfoEvents_run s2) as (t2 & -> & Hs2 & _ & _).
  split; [reflexivity|]. unfold allRebuilt, displayMaps, sessionState in *.
  injection Hs1 as -> -> -> -> -> _ _. injection Hs2 as -> -> -> -> -> _ _.
  auto.
Qed.

(** A frame of at least 82 bytes reaches the first write. *)
Lemma handleInitialInfo_long (data : bytes) :
  (82 <= length data)%nat ->
  exists n,
    Buffer.readInt32BE (skipn 78 data) = Some n
    /\ forall r,
         handleInitialInfo data r
         = decodeAfterCount (firstn 64 (skipn 14 data)) (skipn 78 data) n r.
Proof.
  intros Hlen.
  destruct (Buffer.readInt32BE (skipn 78 data)) as [n|] eqn:Hn.
  - exists n. split; [reflexivity|]. intros r.
    unfold handleInitialInfo, Uint8Array3, Uint8Array2,
      DEVICE_NAME_FIELD_LENGTH.
    rewrite magic_length. lazy zeta.
    assert (Hfits : (length data <? 14 + 64)%nat = false)
      by (apply Nat.ltb_ge; lia).
    rewrite Hfits. cbv iota.
    unfold bind at 1. unfold ret at 1. unfold bind at 1. unfold ret at 1.
    change (14 + 64)%nat with 78%nat. rewrite Hn. reflexivity.
  - exfalso. assert (Hl : (4 <= length (skipn 78 data))%nat)
      by (rewrite length_skipn; lia).
    destruct (skipn 78 data) as [|b0 [|b1 [|b2 [|b3 l]]]];
      simpl in Hl, Hn; try lia; discriminate.
Qed.

Lemma handleInitialInfo_rebuilt (data : bytes) (r r2 : Receiver) :
  (82 <= length data)%nat ->
  rebuilt r r2 (stateOf (handleInitialInfo data r))
    (stateOf (handleInitialInfo data r2)).
Proof.
  intros Hlen. destruct (handleInitialInfo_long data Hlen) as (n & _ & Hrun).
  rewrite !Hrun.
  pose proof (decodeAfterCount_alikeStates r r2 (firstn 64 (skipn 14 data))
                (skipn 78 data) n r r2 (conj eq_refl eq_refl)) as Hal.
  destruct (decodeAfterCount _ _ n r) as [[] s1|e1 s1],
           (decodeAfterCount _ _ n r2) as [[] s2|e2 s2]; try contradiction.
  - apply allRebuilt_rebuilt. apply Hal.
  - apply Hal.
Qed.

(** ** Frames with counts and lengths that are not validated *)

Lemma handleInitialInfo_after_name (nameField rest : bytes) (n : Z) (r : Receiver) :
  length nameField = DEVICE_NAME_FIELD_LENGTH -> isInt32 n ->
  handleInitialInfo (MAGIC_BYTES_INITIAL ++ nameField ++ int32BE n ++ rest) r
  = decodeAfterCount nameField (int32BE n ++ rest) n r.
Proof.
  intros Hname Hn.
  unfold handleInitialInfo, Uint8Array3, Uint8Array2. lazy zeta.
  assert (Hlong : (length (MAGIC_BYTES_INITIAL ++ nameField ++ int32BE n ++ rest)
                   <? length MAGIC_BYTES_INITIAL + DEVICE_NAME_FIELD_LENGTH)%nat
                  = false).
  { apply Nat.ltb_ge. rewrite !length_app, Hname. lia. }
  assert (Hrest : drop (length MAGIC_BYTES_INITIAL + DEVICE_NAME_FIELD_LENGTH)
                    (MAGIC_BYTES_INITIAL ++ nameField ++ int32BE n ++ rest)
                  = int32BE n ++ rest).
  { rewrite <- drop_drop, drop_app_length, <- Hname. apply drop_app_length. }
  assert (Hfield : take DEVICE_NAME_FIELD_LENGTH
                     (drop (length MAGIC_BYTES_INITIAL)
                        (MAGIC_BYTES_INITIAL ++ nameField ++ int32BE n ++ rest))
                   = nameField).
  { rewrite drop_app_length, <- Hname. apply take_app_length. }
  rewrite !Hlong. cbv iota.
  unfold bind at 1. unfold ret at 1.
  unfold bind at 1. unfold ret at 1.
  rewrite Hrest, Hfield, (readInt32BE_int32BE _ _ Hn). reflexivity.
Qed.

Lemma Z_to_nat_nonpos (n : Z) : n <= 0 -> Z.to_nat n = O.
Proof. intros Hn. destruct n; try reflexivity. lia. Qed.

Lemma handleInitialInfo_layCounts (nameField : bytes) (n m id : Z)
  (trailing : bytes) (r : Receiver) :
  length nameField = DEVICE_NAME_FIELD_LENGTH ->
  isInt32 n -> isInt32 m -> isInt32 id -> n <= 0 -> m <= 0 ->
  handleInitialInfo (layCounts nameField n m id trailing) r
  = handshakeTail id nameField
      (with_encodersSet (fun _ => JsSet.clear) (clearDisplays r)).
Proof.
  intros Hname Hn Hm Hid Hn0 Hm0. unfold layCounts.
  rewrite (handleInitialInfo_after_name _ _ _ _ Hname Hn).
  unfold decodeAfterCount. lazy zeta.
  unfold bind at 1. unfold modify at 1.
  unfold bind at 1. unfold modify at 1.
  unfold bind at 1. unfold modify at 1.
  unfold bind at 1. unfold modify at 1.
  rewrite slice_int32BE, (Z_to_nat_nonpos n Hn0).
  unfold bind at 1. unfold forLoop at 1, ret at 1.
  unfold bind at 1. unfold modify at 1.
  rewrite (readInt32BE_int32BE _ _ Hm).
  unfold bind at 1. unfold orThrow at 1, ret at 1.
  rewrite slice_int32BE, (Z_to_nat_nonpos m Hm0).
  unfold bind at 1. unfold forLoop at 1, ret at 1.
  rewrite (readInt32BE_int32BE _ _ Hid).
  unfold bind at 1. unfold orThrow at 1, ret at 1.
  reflexivity.
Qed.

Lemma slice2_all_but_4 (body tail : bytes) :
  length tail = 4%nat -> Buffer.slice2 (body ++ tail) 0 (-4) = body.
Proof.
  intros Ht. unfold Buffer.slice2, Buffer.clampIndex. lazy zeta.
  rewrite length_app, Ht.
  replace (0 <? 0) with false by reflexivity.
  replace (-4 <? 0) with true by reflexivity.
  rewrite Z.min_l by lia. rewrite Z.max_l by lia.
  destruct (Z.ltb_spec (Z.of_nat (length body + 4) + -4) 0); [lia|].
  replace (Z.to_nat (Z.of_nat (length body + 4) + -4 - 0)) with (length body)
    by lia.
  simpl. apply take_app_length.
Qed.

Lemma slice_last_4 (body tail : bytes) :
  length tail = 4%nat -> Buffer.slice (body ++ tail) (-4) = tail.
Proof.
  intros Ht. unfold Buffer.slice, Buffer.slice2, Buffer.clampIndex. lazy zeta.
  rewrite length_app, Ht.
  replace (-4 <? 0) with true by reflexivity.
  destruct (Z.ltb_spec (Z.of_nat (length body + 4)) 0); [lia|].
  rewrite Z.max_l by lia. rewrite Z.min_id.
  destruct (Z.ltb_spec (Z.of_nat (length body + 4))
              (Z.of_nat (length body + 4) + -4)); [lia|].
  replace (Z.to_nat (Z.of_nat (length body + 4) + -4)) with (length body) by lia.
  replace (Z.to_nat (Z.of_nat (length body + 4)
                     - (Z.of_nat (length body + 4) + -4))) with 4%nat by lia.
  rewrite drop_app_length, <- Ht. apply firstn_all.
Qed.

Lemma handleInitialInfo_layNegativeLength (nameField body : bytes) (id : Z)
  (r : Receiver) :
  length nameField = DEVICE_NAME_FIELD_LENGTH -> isInt32 id ->
  handleInitialInfo (layNegativeLength nameField body id) r
  = handshakeTail id nameField
      (installEncoder (with_encodersSet (fun _ => JsSet.clear) (clearDisplays r))
         body).
Proof.
  intros Hname Hid. unfold layNegativeLength.
  assert (Hz0 : isInt32 0) by (unfold isInt32; lia).
  assert (Hz1 : isInt32 1) by (unfold isInt32; lia).
  assert (Hz4 : isInt32 (-4)) by (unfold isInt32; lia).
  rewrite (handleInitialInfo_after_name _ _ _ _ Hname Hz0).
  unfold decodeAfterCount. lazy zeta.
  unfold bind at 1. unfold modify at 1.
  unfold bind at 1. unfold modify at 1.
  unfold bind at 1. unfold modify at 1.
  unfold bind at 1. unfold modify at 1.
  rewrite slice_int32BE. change (Z.to_nat 0) with O.
  unfold bind at 1. unfold forLoop at 1, ret at 1.
  unfold bind at 1. unfold modify at 1.
  rewrite (readInt32BE_int32BE _ _ Hz1).
  unfold bind at 1. unfold orThrow at 1, ret at 1.
  rewrite slice_int32BE. change (Z.to_nat 1) with 1%nat.
  assert (Hturn : forall s,
            encoderTurn (int32BE (-4) ++ body ++ int32BE id) s
            = Normal (int32BE id) (installEncoder s body)).
  { intros s. unfold encoderTurn. lazy zeta.
    rewrite (readInt32BE_int32BE _ _ Hz4).
    unfold bind at 1. unfold orThrow at 1, ret at 1.
    rewrite slice_int32BE.
    rewrite (slice2_all_but_4 body (int32BE id) (int32BE_length id)).
    rewrite (slice_last_4 body (int32BE id) (int32BE_length id)).
    reflexivity. }
  unfold bind at 1. cbn [forLoop]. unfold bind at 1. rewrite Hturn.
  unfold ret at 1.
  rewrite <- (app_nil_r (int32BE id)), (readInt32BE_int32BE _ _ Hid).
  unfold bind at 1. unfold orThrow at 1, ret at 1.
  reflexivity.
Qed.

(** A frame that ends after its display count: with a positive count it
    fails in the display loop, the encoder set untouched; with a count of
    zero or less it fails at the read of the encoder count, the display maps
    and the encoder set emptied. *)
Lemma handleInitialInfo_ends_after_count (nameField : bytes) (n : Z)
  (r : Receiver) :
  length nameField = DEVICE_NAME_FIELD_LENGTH -> isInt32 n ->
  let out := handleInitialInfo (MAGIC_BYTES_INITIAL ++ nameField ++ int32BE n) r in
  (0 < n -> threw out = true /\ encodersSet (stateOf out) = encodersSet r)
  /\ (n <= 0 ->
      out = Thrown RangeError
              (with_encodersSet (fun _ => JsSet.clear) (clearDisplays r))).
Proof.
  intros Hname Hn out.
  assert (Hout : out = decodeAfterCount nameField (int32BE n ++ []) n r).
  { unfold out. rewrite <- (app_nil_r (int32BE n)) at 1.
    apply (handleInitialInfo_after_name _ _ _ _ Hname Hn). }
  assert (Hturn : forall s, exists e s',
            displayTurn [] s = Thrown e s' /\ encodersSet s' = encodersSet s).
  { intros s. unfold displayTurn. lazy zeta. unfold bind at 1.
    destruct (DisplayInfo_fromBuffer
                (Buffer.slice2 [] 0 DisplayInfo_BUFFER_LENGTH)) as [info|];
      simpl; [|eauto].
    unfold bind at 1. unfold modify at 1.
    assert (Hempty : Buffer.readInt32BE
                       (Buffer.slice [] DisplayInfo_BUFFER_LENGTH) = None).
    { unfold Buffer.slice, Buffer.slice2. lazy zeta.
      rewrite skipn_nil, firstn_nil. reflexivity. }
    unfold bind at 1. rewrite Hempty. simpl. eauto. }
  split.
  - intros Hpos.
    assert (Hfail : exists e s, out = Thrown e s /\ encodersSet s = encodersSet r).
    { rewrite Hout. unfold decodeAfterCount. lazy zeta.
      unfold bind at 1. unfold modify at 1.
      unfold bind at 1. unfold modify at 1.
      unfold bind at 1. unfold modify at 1.
      unfold bind at 1. unfold modify at 1.
      rewrite slice_int32BE.
      destruct (Z.to_nat n) as [|k] eqn:Hk; [lia|].
      unfold bind at 1. cbn [forLoop]. unfold bind at 1.
      match goal with
      | |- context [displayTurn [] ?s0] =>
          destruct (Hturn s0) as (e & s' & -> & He)
      end.
      exists e, s'. split; [reflexivity|exact He]. }
    destruct Hfail as (e & s & -> & He). split; [reflexivity|exact He].
  - intros Hneg. rewrite Hout. unfold decodeAfterCount. lazy zeta.
    unfold bind at 1. unfold modify at 1.
    unfold bind at 1. unfold modify at 1.
    unfold bind at 1. unfold modify at 1.
    unfold bind at 1. unfold modify at 1.
    rewrite slice_int32BE, (Z_to_nat_nonpos n Hneg).
    unfold bind at 1. unfold forLoop at 1, ret at 1.
    unfold bind at 1. unfold modify at 1. reflexivity.
Qed.

Lemma handshakeTail_fields (id : Z) (nameBytes : bytes) (s : Receiver) :
  exists s',
    handshakeTail id nameBytes s = Normal tt s'
    /\ clientId s' = id
    /\ deviceName s' = utf8ByteArrayToString (filterTrailingZeroes nameBytes)
    /\ hasInitialInfo s' = true
    /\ encodersSet s' = encodersSet s
    /\ displayMaps s' = displayMaps s.
Proof.
  rewrite handshakeTail_run. lazy zeta. eexists. split; [reflexivity|].
  simpl. repeat split.
Qed.

(** ** Frames cut short *)

Lemma take_app_cases {A} (k : nat) (a b : list A) :
  ((k < length a)%nat /\ firstn k (a ++ b) = firstn k a)
  \/ ((length a <= k)%nat
      /\ firstn k (a ++ b) = a ++ firstn (k - length a) b).
Proof.
  rewrite firstn_app.
  destruct (Nat.lt_ge_cases k (length a)) as [Hlt|Hge]; [left|right];
    (split; [assumption|]).
  - replace (k - length a)%nat with O by lia. simpl. apply app_nil_r.
  - rewrite firstn_all2 by lia. reflexivity.
Qed.

Lemma slice2_short (b : bytes) (n : Z) :
  byteLength b <= n -> Buffer.slice2 b 0 n = b.
Proof.
  unfold Buffer.slice2, Buffer.clampIndex, byteLength. lazy zeta. intros Hn.
  change (0 <? 0) with false. cbv iota.
  destruct (n <? 0) eqn:E1; [apply Z.ltb_lt in E1; lia|].
  rewrite (Z.min_l 0) by lia. rewrite (Z.min_r n) by lia.
  destruct (Z.of_nat (length b) <? 0) eqn:E2; [apply Z.ltb_lt in E2; lia|].
  rewrite Z.sub_0_r, Nat2Z.id. simpl. apply firstn_all.
Qed.

Lemma slice_short (b : bytes) (n : Z) :
  byteLength b <= n -> Buffer.slice b n = [].
Proof.
  unfold Buffer.slice, Buffer.slice2, Buffer.clampIndex, byteLength.
  lazy zeta. intros Hn.
  destruct (n <? 0) eqn:E1; [apply Z.ltb_lt in E1; lia|].
  destruct (Z.of_nat (length b) <? 0) eqn:E2; [apply Z.ltb_lt in E2; lia|].
  rewrite (Z.min_r n) by lia. rewrite Z.min_id, Z.ltb_irrefl, Z.sub_diag.
  reflexivity.
Qed.

Lemma slice2_nil (n : Z) : Buffer.slice2 [] 0 n = [].
Proof.
  unfold Buffer.slice2. lazy zeta. rewrite skipn_nil. apply firstn_nil.
Qed.

Lemma slice_nil (n : Z) : Buffer.slice [] n = [].
Proof.
  unfold Buffer.slice, Buffer.slice2. lazy zeta.
  rewrite skipn_nil. apply firstn_nil.
Qed.

Lemma readInt32BE_cut (k : nat) (l : bytes) :
  (k < 4)%nat -> Buffer.readInt32BE (firstn k l) = None.
Proof.
  intros Hk. apply readInt32BE_short.
  pose proof (firstn_le_length k l). lia.
Qed.

Lemma byteLength_take (k : nat) (l : bytes) :
  (k < length l)%nat -> byteLength (firstn k l) < byteLength l.
Proof.
  intros Hk. unfold byteLength. pose proof (firstn_le_length k l). lia.
Qed.

Ltac cut_field Hlt Hge :=
  match goal with
  | |- context [firstn ?k (?a ++ ?b)] =>
      destruct (take_app_cases k a b) as [[Hlt ->]|[Hge ->]]
  end.

Ltac step_bind :=
  unfold bind at 1; unfold orThrow at 1, ret at 1.

Lemma video_record_truncated (id : Z) (vb : bytes) (k : nat) (r : Receiver) :
  isInt32 (byteLength vb) -> (k < 4 + length vb)%nat ->
  starved
    ((let rest := firstn k (int32BE (byteLength vb) ++ vb) in
      let* videoSettingsBytesCount :=
        orThrow RangeError (Buffer.readInt32BE rest) in
      let rest := Buffer.slice rest 4 in
      if videoSettingsBytesCount =? 0 then ret rest
      else
        let* vs := orThrow DecodeError
                     (VideoSettings_fromBuffer
                        (Buffer.slice2 rest 0 videoSettingsBytesCount)) in
        run modify (with_videoSettingsMap (fun m => JsMap.set m id vs)) in
        ret (Buffer.slice rest videoSettingsBytesCount))%js r).
Proof.
  intros Hlen Hk. lazy zeta.
  cut_field Hlt Hge.
  - rewrite int32BE_length in Hlt. rewrite (readInt32BE_cut _ _ Hlt). exact I.
  - rewrite int32BE_length in *.
    rewrite (readInt32BE_int32BE _ _ Hlen), slice_int32BE. step_bind.
    assert (Hshort : byteLength (firstn (k - 4) vb) < byteLength vb)
      by (apply byteLength_take; lia).
    destruct (byteLength vb =? 0) eqn:E;
      [apply Z.eqb_eq in E; pose proof (byteLength_nonneg (firstn (k - 4) vb));
       lia|].
    rewrite slice2_short, slice_short by lia.
    destruct (VideoSettings_fromBuffer _); [exact eq_refl|exact I].
Qed.


Lemma displayTurn_truncated (d : DisplayRecord) (k : nat) (r : Receiver) :
  wellFormedDisplay d -> (k < length (layDisplay d))%nat ->
  starved (displayTurn (firstn k (layDisplay d)) r).
Proof.
  intros (Hlen & Hinfo & Hcount & Hslen & Hvlen & Hscreen & Hvideo) Hk.
  unfold layDisplay in *. rewrite !length_app, !int32BE_length in Hk.
  unfold displayTurn. lazy zeta.
  cut_field Hlt Hge.
  - assert (Hshort : byteLength (firstn k (dr_bytes d))
                     <= DisplayInfo_BUFFER_LENGTH)
      by (rewrite <- Hlen; pose proof (byteLength_take _ _ Hlt); lia).
    rewrite (slice2_short _ _ Hshort), (slice_short _ _ Hshort).
    destruct (DisplayInfo_fromBuffer (firstn k (dr_bytes d))); exact I.
  - rewrite <- Hlen. rewrite slice2_app, slice_app, Hinfo.
    step_bind. unfold bind at 1. unfold modify at 1.
    cut_field Hlt1 Hge1.
    { rewrite int32BE_length in Hlt1. rewrite (readInt32BE_cut _ _ Hlt1).
      exact I. }
    rewrite int32BE_length in *.
    rewrite (readInt32BE_int32BE _ _ Hcount). step_bind.
    unfold bind at 1. unfold modify at 1. rewrite slice_int32BE.
    cut_field Hlt2 Hge2.
    { rewrite int32BE_length in Hlt2. rewrite (readInt32BE_cut _ _ Hlt2).
      exact I. }
    rewrite int32BE_length in *.
    rewrite (readInt32BE_int32BE _ _ Hslen). step_bind.
    rewrite slice_int32BE.
    destruct (dr_screenBytes d) as [|sb0 sbs] eqn:Hsb.
    + change (byteLength [] =? 0) with true. cbv iota. rewrite app_nil_l.
      unfold bind at 1. unfold ret at 1.
      apply (video_record_truncated _ _ _ _ Hvlen). simpl length in Hk. lia.
    + destruct Hscreen as [Hdec Hsome].
      destruct (dr_screenInfo d) as [si|]; [|contradiction].
      assert (Hnz : (byteLength (sb0 :: sbs) =? 0) = false)
        by (apply Z.eqb_neq; unfold byteLength; simpl; lia).
      rewrite Hnz.
      cut_field Hlt3 Hge3.
      * pose proof (byteLength_take _ _ Hlt3) as Hshort.
        rewrite slice2_short, slice_short by lia.
        match goal with
        | |- context [ScreenInfo_fromBuffer (firstn ?j ?b)] =>
            destruct (ScreenInfo_fromBuffer (firstn j b))
        end; exact I.
      * rewrite slice2_app, slice_app, Hdec.
        unfold bind at 1. unfold bind at 1. unfold orThrow at 1, ret at 1.
        unfold bind at 1. unfold modify at 1. unfold ret at 1.
        apply (video_record_truncated _ _ _ _ Hvlen). lia.
Qed.

Lemma displayTurn_nothing (r : Receiver) : threw (displayTurn [] r) = true.
Proof.
  unfold displayTurn. lazy zeta. rewrite slice2_nil, slice_nil.
  destruct (DisplayInfo_fromBuffer []); reflexivity.
Qed.

Lemma encoderTurn_nothing (r : Receiver) : threw (encoderTurn [] r) = true.
Proof. reflexivity. Qed.

Lemma encoderTurn_truncated (name : bytes) (k : nat) (r : Receiver) :
  isInt32 (byteLength name) -> (k < length (layEncoder name))%nat ->
  starved (encoderTurn (firstn k (layEncoder name)) r).
Proof.
  intros Hlen Hk. unfold layEncoder in *.
  rewrite length_app, int32BE_length in Hk.
  unfold encoderTurn. lazy zeta.
  cut_field Hlt Hge.
  - rewrite int32BE_length in Hlt. rewrite (readInt32BE_cut _ _ Hlt). exact I.
  - rewrite int32BE_length in *.
    rewrite (readInt32BE_int32BE _ _ Hlen), slice_int32BE. step_bind.
    assert (Hshort : byteLength (firstn (k - 4) name) < byteLength name)
      by (apply byteLength_take; lia).
    rewrite slice_short by lia. exact eq_refl.
Qed.

(** A loop over turns that throw on an empty buffer, entered with a turn
    that throws or leaves nothing, throws or leaves nothing. *)
Lemma forLoop_nothing (body : bytes -> M Receiver bytes) (n : nat) (r : Receiver) :
  (forall r', threw (body [] r') = true) ->
  starved (forLoop n body [] r).
Proof.
  intros Hbody. destruct n as [|n]; [exact eq_refl|].
  cbn [forLoop]. unfold bind. specialize (Hbody r).
  destruct (body [] r); [discriminate|exact I].
Qed.

Lemma forLoop_starved (body : bytes -> M Receiver bytes) (n : nat)
  (b : bytes) (r : Receiver) :
  (forall r', threw (body [] r') = true) ->
  starved (body b r) ->
  starved (bind (body b) (forLoop n body) r).
Proof.
  intros Hbody Hturn. unfold bind.
  destruct (body b r) as [rest s|e s]; [|exact I].
  simpl in Hturn. subst rest. apply forLoop_nothing. exact Hbody.
Qed.

Lemma forLoop_displays_truncated (ds : list DisplayRecord) (k : nat)
  (r : Receiver) :
  Forall wellFormedDisplay ds ->
  (k < length (concat (map layDisplay ds)))%nat ->
  starved (forLoop (length ds) displayTurn
             (firstn k (concat (map layDisplay ds))) r).
Proof.
  intros Hall. revert k r.
  induction Hall as [|d ds Hd Hds IH]; intros k r Hk; [simpl in Hk; lia|].
  cbn [length map concat forLoop] in *. rewrite length_app in Hk.
  cut_field Hlt Hge.
  - apply forLoop_starved; [exact displayTurn_nothing|].
    apply displayTurn_truncated; assumption.
  - unfold bind. rewrite (displayTurn_layDisplay d _ r Hd). apply IH. lia.
Qed.

Lemma forLoop_encoders_truncated (names : list bytes) (k : nat)
  (r : Receiver) :
  Forall (fun name => isInt32 (byteLength name)) names ->
  (k < length (concat (map layEncoder names)))%nat ->
  starved (forLoop (length names) encoderTurn
             (firstn k (concat (map layEncoder names))) r).
Proof.
  intros Hall. revert k r.
  induction Hall as [|name names Hn Hns IH]; intros k r Hk;
    [simpl in Hk; lia|].
  cbn [length map concat forLoop] in *. rewrite length_app in Hk.
  cut_field Hlt Hge.
  - apply forLoop_starved; [exact encoderTurn_nothing|].
    apply encoderTurn_truncated; assumption.
  - unfold bind. rewrite (encoderTurn_layEncoder name _ r Hn). apply IH. lia.
Qed.

(** Every frame that is a well-formed handshake cut short fails. *)
Lemma handleInitialInfo_truncated (nameField : bytes)
  (displays : list DisplayRecord) (encoderNames : list bytes) (id : Z)
  (k : nat) (r : Receiver) :
  wellFormedHandshake nameField displays encoderNames id ->
  (k < length (layHandshake nameField displays encoderNames id []))%nat ->
  threw (handleInitialInfo
           (firstn k (layHandshake nameField displays encoderNames id [])) r)
  = true.
Proof.
  intros (Hname & Hn & Hds & Hm & Hnames & Hid) Hk.
  destruct (Nat.lt_ge_cases k 82) as [Hshort|Hlong].
  { rewrite handleInitialInfo_short; [reflexivity|].
    pose proof (firstn_le_length k
                  (layHandshake nameField displays encoderNames id [])).
    lia. }
  unfold layHandshake in *.
  rewrite !length_app, !int32BE_length, Hname, magic_length in Hk.
  unfold DEVICE_NAME_FIELD_LENGTH in *. simpl length in Hk.
  cut_field Hlt0 Hge0; [rewrite magic_length in Hlt0; lia|].
  cut_field Hlt1 Hge1; [rewrite magic_length, Hname in Hlt1; lia|].
  cut_field Hlt2 Hge2;
    [rewrite magic_length, Hname, int32BE_length in Hlt2; lia|].
  rewrite magic_length, Hname, int32BE_length in *.
  rewrite (handleInitialInfo_after_name _ _ _ r Hname Hn).
  unfold decodeAfterCount. lazy zeta.
  unfold bind at 1. unfold modify at 1.
  unfold bind at 1. unfold modify at 1.
  unfold bind at 1. unfold modify at 1.
  unfold bind at 1. unfold modify at 1.
  rewrite slice_int32BE, Nat2Z.id.
  cut_field Hlt3 Hge3.
  - pose proof (forLoop_displays_truncated displays _
                  (clearDisplays r) Hds Hlt3) as Hloop.
    unfold bind at 1. unfold clearDisplays in Hloop.
    destruct (forLoop _ _ _ _) as [rest s|e s]; [|reflexivity].
    simpl in Hloop. subst rest. reflexivity.
  - unfold bind at 1. rewrite (forLoop_displays displays _ _ Hds).
    unfold bind at 1. unfold modify at 1.
    cut_field Hlt4 Hge4.
    { rewrite int32BE_length in Hlt4. rewrite (readInt32BE_cut _ _ Hlt4).
      reflexivity. }
    rewrite int32BE_length in *.
    rewrite (readInt32BE_int32BE _ _ Hm). step_bind.
    rewrite slice_int32BE, Nat2Z.id.
    cut_field Hlt5 Hge5.
    + unfold bind at 1.
      match goal with
      | |- context [forLoop _ encoderTurn _ ?s0] =>
          pose proof (forLoop_encoders_truncated encoderNames _ s0
                        Hnames Hlt5) as Hloop
      end.
      destruct (forLoop _ _ _ _) as [rest s|e s]; [|reflexivity].
      simpl in Hloop. subst rest. reflexivity.
    + unfold bind at 1. rewrite (forLoop_encoders encoderNames _ _ Hnames).
      rewrite readInt32BE_cut; [reflexivity|]. lia.
Qed.

(** C3 (as amended).  [handleInitialInfo] validates no count and no length:
    it fails only where a read runs past the end of the frame or an imported
    decoder throws.
    - Whenever it throws, no event has been emitted, [clientId],
      [deviceName] and [hasInitialInfo] hold what they held, and the frame
      makes it throw from every state.
    - Every frame of fewer than 90 bytes makes it throw; one of fewer than
      82 bytes, too short to hold the display count, leaves the whole
      receiver as it was.
    - Every frame with insufficient bytes makes it throw: a well-formed
      handshake cut short anywhere before the end of its client id.
    - A frame of at least 82 bytes, whether it then fails or not, leaves in
      the four display maps only what the frame itself wrote, what they held
      before being gone, and leaves the encoder set untouched or holding only
      names of this frame: the maps are emptied once the display count is
      read, the encoder set once the display loop has ended.  So a frame
      that ends after a positive display count fails with the encoder set
      untouched, and one that ends after a display count of zero or less
      fails with the maps and the encoder set empty.
    - When it completes, it has emitted the three lifecycle events and the
      session fields it leaves are those any other state would have been
      left with: the handshake replaces them all.
    - Frames with inconsistent declarations complete: negative counts are
      read as no display and no encoder, and an encoder name declared -4
      bytes long is read as all of the frame but its last four bytes, which
      become the client id. *)
Theorem handleInitialInfo_failure_and_replacement (data : bytes) (r : Receiver) :
  (forall e r', handleInitialInfo data r = Thrown e r' ->
     emitted r' = emitted r /\ clientId r' = clientId r
     /\ deviceName r' = deviceName r /\ hasInitialInfo r' = hasInitialInfo r
     /\ forall r2, threw (handleInitialInfo data r2) = true)
  /\ ((length data < 90)%nat -> threw (handleInitialInfo data r) = true)
  /\ ((length data < 82)%nat -> handleInitialInfo data r = Thrown RangeError r)
  /\ (forall nameField displays encoderNames id k,
        wellFormedHandshake nameField displays encoderNames id ->
        (k < length (layHandshake nameField displays encoderNames id []))%nat ->
        data = firstn k (layHandshake nameField displays encoderNames id []) ->
        threw (handleInitialInfo data r) = true)
  /\ ((82 <= length data)%nat ->
      forall r2, rebuilt r r2 (stateOf (handleInitialInfo data r))
                   (stateOf (handleInitialInfo data r2)))
  /\ (forall nameField n,
        data = MAGIC_BYTES_INITIAL ++ nameField ++ int32BE n ->
        length nameField = DEVICE_NAME_FIELD_LENGTH -> isInt32 n ->
        (0 < n ->
         threw (handleInitialInfo data r) = true
         /\ encodersSet (stateOf (handleInitialInfo data r)) = encodersSet r)
        /\ (n <= 0 ->
            handleInitialInfo data r
            = Thrown RangeError
                (with_encodersSet (fun _ => JsSet.clear) (clearDisplays r))))
  /\ (forall r', handleInitialInfo data r = Normal tt r' ->
        emitted r' = emitted r ++ lifecycleEvents r'
        /\ forall r2, exists r2',
             handleInitialInfo data r2 = Normal tt r2'
             /\ sessionState r2' = sessionState r')
  /\ (forall nameField n m id trailing,
        data = layCounts nameField n m id trailing ->
        length nameField = DEVICE_NAME_FIELD_LENGTH ->
        isInt32 n -> isInt32 m -> isInt32 id -> n <= 0 -> m <= 0 ->
        exists r', handleInitialInfo data r = Normal tt r'
                   /\ clientId r' = id /\ getEncoders r' = []
                   /\ infoArray r' = [])
  /\ (forall nameField body id,
        data = layNegativeLength nameField body id ->
        length nameField = DEVICE_NAME_FIELD_LENGTH -> isInt32 id ->
        exists r', handleInitialInfo data r = Normal tt r'
                   /\ clientId r' = id
                   /\ getEncoders r' = [utf8ByteArrayToString body]
                   /\ infoArray r' = []).
Proof.
  assert (Hrefl : identityKept r r) by (repeat split).
  pose proof (handleInitialInfo_triple data r r Hrefl) as Htriple.
  assert (Hag : forall r2, agree 0 r r2)
    by (intros r2; unfold agree; repeat split; intros; lia).
  split; [|split; [|split; [|split; [|split; [|split; [|split; [|split]]]]]]].
  - intros e r' Hthrown. rewrite Hthrown in Htriple.
    destruct Htriple as (Hi & Hn & Hh & He). repeat split; try assumption.
    intros r2. pose proof (handleInitialInfo_alike data r r2 (Hag r2)) as Hal.
    rewrite Hthrown in Hal.
    destruct (handleInitialInfo data r2); [contradiction|reflexivity].
  - intros Hshort.
    destruct (handleInitialInfo data r) as [[] s|e s] eqn:Hrun; [|reflexivity].
    apply handleInitialInfo_needs_90 in Hrun. lia.
  - apply handleInitialInfo_short.
  - intros nameField displays encoderNames id k Hwf Hk ->.
    apply handleInitialInfo_truncated; assumption.
  - intros Hlong r2. apply handleInitialInfo_rebuilt. exact Hlong.
  - intros nameField n -> Hname Hn.
    apply (handleInitialInfo_ends_after_count nameField n r Hname Hn).
  - intros r' Hok. rewrite Hok in Htriple. split; [apply Htriple|].
    intros r2. pose proof (handleInitialInfo_alike data r r2 (Hag r2)) as Hal.
    rewrite Hok in Hal.
    destruct (handleInitialInfo data r2) as [[] r2'|]; [|contradiction].
    exists r2'. split; [reflexivity|].
    symmetry. apply agree_8_sessionState. apply Hal.
  - intros nameField n m id trailing -> Hname Hn Hm Hid Hn0 Hm0.
    rewrite (handleInitialInfo_layCounts _ _ _ _ _ _ Hname Hn Hm Hid Hn0 Hm0).
    destruct (handshakeTail_fields id nameField
                (with_encodersSet (fun _ => JsSet.clear) (clearDisplays r)))
      as (s' & -> & Hc & _ & _ & He & Hm').
    exists s'. split; [reflexivity|]. split; [exact Hc|].
    unfold getEncoders, JsSet.values, infoArray. rewrite He.
    unfold displayMaps in Hm'. injection Hm' as -> _ _ _. split; reflexivity.
  - intros nameField body id -> Hname Hid.
    rewrite (handleInitialInfo_layNegativeLength _ _ _ _ Hname Hid).
    destruct (handshakeTail_fields id nameField
                (installEncoder
                   (with_encodersSet (fun _ => JsSet.clear) (clearDisplays r))
                   body))
      as (s' & -> & Hc & _ & _ & He & Hm').
    exists s'. split; [reflexivity|]. split; [exact Hc|].
    unfold getEncoders, JsSet.values, infoArray. rewrite He.
    unfold displayMaps in Hm'. injection Hm' as -> _ _ _. split; reflexivity.
Qed.

(** ** Dispatch of a binary message *)

Lemma layHandshake_prefix (nameField : bytes) (displays : list DisplayRecord)
  (encoderNames : list bytes) (id : Z) (trailing : bytes) :
  length nameField = DEVICE_NAME_FIELD_LENGTH ->
  (length MAGIC_BYTES_INITIAL
   <? length (layHandshake nameField displays encoderNames id trailing))%nat
  = true
  /\ firstn (length MAGIC_BYTES_INITIAL)
       (layHandshake nameField displays encoderNames id trailing)
     = MAGIC_BYTES_INITIAL.
Proof.
  intros Hname. unfold layHandshake. split.
  - apply Nat.ltb_lt. rewrite !length_app, Hname.
    unfold DEVICE_NAME_FIELD_LENGTH. lia.
  - apply take_app_length.
Qed.

Lemma layHandshake_decoded (nameField : bytes) (displays : list DisplayRecord)
  (encoderNames : list bytes) (id : Z) (trailing : bytes) (r : Receiver) :
  wellFormedHandshake nameField displays encoderNames id ->
  NoDup (map displayIdOf displays) ->
  NoDup (map utf8ByteArrayToString encoderNames) ->
  exists r',
    handleInitialInfo (layHandshake nameField displays encoderNames id trailing) r
    = Normal tt r'
    /\ clientId r' = id
    /\ deviceName r' = utf8ByteArrayToString (filterTrailingZeroes nameField)
    /\ hasInitialInfo r' = true
    /\ getEncoders r' = map utf8ByteArrayToString encoderNames
    /\ infoArray r' = map combinedOf displays
    /\ emitted r'
       = emitted r
         ++ [encoders (map utf8ByteArrayToString encoderNames);
             clientsStats id (utf8ByteArrayToString (filterTrailingZeroes nameField));
             displayInfo (map combinedOf displays)].
Proof.
  intros Hwf Hids Hnames.
  rewrite (handleInitialInfo_layHandshake _ _ _ _ _ _ Hwf), handshakeTail_run.
  destruct (decodedState_fields nameField displays encoderNames id r Hids Hnames)
    as (S1 & S2 & S3 & S4 & S5 & S6).
  unfold decodedState in *.
  set (s := with_hasInitialInfo true _) in *. lazy zeta.
  eexists. split; [reflexivity|].
  assert (Hinfo : forall s1 s2 : Receiver,
            sessionState s1 = sessionState s2 -> infoArray s1 = infoArray s2).
  { intros s1 s2 E. unfold sessionState in E. injection E as E1 E2 E3 E4 _ _ _.
    unfold infoArray, combinedInfo, connectionCountOr0.
    rewrite E1, E2, E3, E4. reflexivity. }
  split; [exact S1|]. split; [exact S2|]. split; [exact S3|].
  split; [exact S4|]. split.
  - rewrite <- S5. apply Hinfo. reflexivity.
  - cbn [emit modify stateOf emitted]. rewrite S4, S1, S2, S5, S6.
    rewrite <- !app_assoc. reflexivity.
Qed.

(** C9.  A binary message longer than the magic whose first bytes are the
    handshake magic is parsed as a handshake: [onSocketMessage] does what
    [handleInitialInfo] does on it.  When the parse completes, the handshake
    flag is set, the three lifecycle events computed from the new fields are
    emitted, and the session fields are those this frame leaves from any
    state; when it throws, the exception leaves [onSocketMessage] and no
    event is emitted.  In particular a well-formed handshake (one laid out
    as the decoder reads it, with pairwise different display ids and encoder
    names) is accepted, and afterwards [clientId], [deviceName], the encoders
    and the display records are those of the frame, which the events
    [encoders], [clientsStats] and [displayInfo] carry.  Otherwise a message
    whose first bytes are the device-message magic is decoded and emitted as
    [deviceMessage]; every other one, not longer than the magic or with
    another prefix, is emitted whole as [video], the session untouched. *)
Theorem onSocketMessage_dispatch (data : bytes) (r : Receiver) :
  ((length MAGIC_BYTES_INITIAL < length data)%nat ->
   firstn (length MAGIC_BYTES_INITIAL) data = MAGIC_BYTES_INITIAL ->
   onSocketMessage (ArrayBuffer data) r = handleInitialInfo data r
   /\ (forall r', onSocketMessage (ArrayBuffer data) r = Normal tt r' ->
         hasInitialInfo r' = true
         /\ emitted r' = emitted r ++ lifecycleEvents r'
         /\ forall r2, exists r2',
              onSocketMessage (ArrayBuffer data) r2 = Normal tt r2'
              /\ sessionState r2' = sessionState r')
   /\ (forall e r', onSocketMessage (ArrayBuffer data) r = Thrown e r' ->
         emitted r' = emitted r /\ clientId r' = clientId r
         /\ deviceName r' = deviceName r
         /\ hasInitialInfo r' = hasInitialInfo r))
  /\ (forall nameField displays encoderNames id trailing,
        data = layHandshake nameField displays encoderNames id trailing ->
        wellFormedHandshake nameField displays encoderNames id ->
        NoDup (map displayIdOf displays) ->
        NoDup (map utf8ByteArrayToString encoderNames) ->
        exists r',
          onSocketMessage (ArrayBuffer data) r = Normal tt r'
          /\ clientId r' = id
          /\ deviceName r' = utf8ByteArrayToString (filterTrailingZeroes nameField)
          /\ hasInitialInfo r' = true
          /\ getEncoders r' = map utf8ByteArrayToString encoderNames
          /\ infoArray r' = map combinedOf displays
          /\ emitted r'
             = emitted r
               ++ [encoders (map utf8ByteArrayToString encoderNames);
                   clientsStats id
                     (utf8ByteArrayToString (filterTrailingZeroes nameField));
                   displayInfo (map combinedOf displays)])
  /\ ((length MAGIC_BYTES_INITIAL < length data)%nat ->
      firstn (length MAGIC_BYTES_INITIAL) data <> MAGIC_BYTES_INITIAL ->
      firstn (length MAGIC_BYTES_INITIAL) data = MAGIC_BYTES_MESSAGE ->
      match DeviceMessage_fromBuffer data with
      | Some message =>
          exists r', onSocketMessage (ArrayBuffer data) r = Normal tt r'
            /\ emitted r' = emitted r ++ [deviceMessage message]
            /\ sessionState r' = sessionState r
      | None => onSocketMessage (ArrayBuffer data) r = Thrown DecodeError r
      end)
  /\ ((length data <= length MAGIC_BYTES_INITIAL)%nat
      \/ (firstn (length MAGIC_BYTES_INITIAL) data <> MAGIC_BYTES_INITIAL
          /\ firstn (length MAGIC_BYTES_INITIAL) data <> MAGIC_BYTES_MESSAGE) ->
      exists r', onSocketMessage (ArrayBuffer data) r = Normal tt r'
        /\ emitted r' = emitted r ++ [video data]
        /\ sessionState r' = sessionState r).
Proof.
  assert (Hdispatch : forall s,
            (length MAGIC_BYTES_INITIAL < length data)%nat ->
            firstn (length MAGIC_BYTES_INITIAL) data = MAGIC_BYTES_INITIAL ->
            onSocketMessage (ArrayBuffer data) s = handleInitialInfo data s).
  { intros s Hlen Hmagic. unfold onSocketMessage.
    apply Nat.ltb_lt in Hlen. rewrite Hlen.
    apply EqualArrays_true in Hmagic. rewrite Hmagic. reflexivity. }
  split; [|split; [|split]].
  - intros Hlen Hmagic. split; [apply Hdispatch; assumption|].
    rewrite (Hdispatch r Hlen Hmagic).
    pose proof (handleInitialInfo_outcome data r) as Ho.
    assert (Hag : forall r2, agree 0 r r2)
      by (intros r2; unfold agree; repeat split; intros; lia).
    split.
    + intros r' Hok. rewrite Hok in Ho. destruct Ho as [Hh He].
      split; [exact Hh|]. split; [exact He|].
      intros r2. rewrite (Hdispatch r2 Hlen Hmagic).
      pose proof (handleInitialInfo_alike data r r2 (Hag r2)) as Hal.
      rewrite Hok in Hal.
      destruct (handleInitialInfo data r2) as [[] r2'|]; [|contradiction].
      exists r2'. split; [reflexivity|].
      symmetry. apply agree_8_sessionState. apply Hal.
    + intros e r' Hthrown. rewrite Hthrown in Ho.
      destruct Ho as (Hc & Hn & Hh & He). auto.
  - intros nameField displays encoderNames id trailing -> Hwf Hids Hnames.
    destruct (layHandshake_prefix nameField displays encoderNames id trailing
                (proj1 Hwf)) as [Hlen Hmagic].
    apply Nat.ltb_lt in Hlen. rewrite (Hdispatch r Hlen Hmagic).
    apply layHandshake_decoded; assumption.
  - intros Hlen Hinit Hmsg. unfold onSocketMessage.
    apply Nat.ltb_lt in Hlen. rewrite Hlen.
    apply EqualArrays_false in Hinit. rewrite Hinit.
    apply EqualArrays_true in Hmsg. rewrite Hmsg.
    destruct (DeviceMessage_fromBuffer data) as [message|]; [|reflexivity].
    destruct (emit_run (deviceMessage message) r) as (r' & Hr' & He & Hs & _).
    exists r'. auto.
  - intros Hcase. unfold onSocketMessage.
    destruct (emit_run (video data) r) as (r' & Hr' & He & Hs & _).
    exists r'. split; [|auto].
    destruct (length MAGIC_BYTES_INITIAL <? length data)%nat eqn:Hlen;
      [|exact Hr'].
    apply Nat.ltb_lt in Hlen.
    destruct Hcase as [Hle|[Hinit Hmsg]]; [lia|].
    apply EqualArrays_false in Hinit, Hmsg. rewrite Hinit, Hmsg. exact Hr'.
Qed.

End OutcomeProofs.
(** * Part VI: a concurrent command, whatever the log *)

Section ConcurrentProofs.
Context `{Externals}.

Lemma walkBack_throws_TypeError (w : Controller) (fuel : nat)
  (la : option ActionMap.t) (e : JsError) :
  walkBack fuel w la = Throws e -> e = TypeError.
Proof.
  revert la. induction fuel as [|fuel IH]; intros la; simpl; [discriminate|].
  destruct (judgeConcurrency w la) as [[|]|e'|] eqn:Hj; try discriminate.
  - destruct la as [m|]; [apply IH|]. intros [= <-]. reflexivity.
  - intros [= <-]. apply (judgeConcurrency_throws_TypeError _ _ _ Hj).
Qed.

(** C5 (as amended).  A command classified concurrent, not on the fast
    path, first walks back to the start of its run of concurrent commands.
    - When that walk throws, [sendEvent] throws a [TypeError]: the record
      stays logged and unset, nothing is forwarded, no request is sent and
      nothing is polled.  The walk throws when a lookup on its way finds no
      record: when the command has no predecessor, when
      [judgeConcurrency] throws on its predecessor (a key press or a scroll
      that has no predecessor itself), and when its predecessor is
      concurrent and has no predecessor.
    - When the walk returns, the command has a predecessor [p].  If [p] is
      already resolved the call ends at once by [verdictOf]; otherwise it
      parks on a 100 ms timer.
    - In a log that holds every record under its own time and none under
      0, the walk does one or the other.
    - Each time the timer fires, [p'] being the predecessor as it then
      stands: while [p'] is unset and no more than 3000 ms have passed since
      the command was logged, the invocation parks again on a 100 ms timer
      and changes nothing; as soon as [p'] is set or more than 3000 ms have
      passed it ends by [verdictOf], which reads [executed] of [p'] at that
      moment: forwarded and marked [true], with the request of
      [sendActionConcurrency] carrying [concurrency = true] issued and not
      awaited, when [p'] is executed, also when [p'] was resolved after the
      3000 ms; marked [false] and not forwarded when [p'] is dropped or still
      unset.  A poll that finds no predecessor throws a [TypeError].
    - The answer to the request of [sendActionConcurrency] changes no
      field. *)
Theorem concurrent_command_follows_predecessor (r : Receiver) (w : Controller)
  (event : ControlMessage.t) (now : Z) :
  let action_json := make_action_json r event now in
  let actionMap := newActionMap action_json in
  let logged := logAction w actionMap now in
  let k := {| self := length (heap w); event := event;
              action_json := action_json |} in
  ~ In (ControlMessage.type event) sideEffectFree ->
  judgeConcurrency logged (Some actionMap) = Val true ->
  (forall e, getLastNonConcurrencyAction logged actionMap = Throws e ->
     e = TypeError
     /\ sendEvent r w event now
        = {| world := logged; effects := []; completion := Threw TypeError |}
     /\ resolution (sendEvent r w event now) (self k) = Some None)
  /\ (getLastAction logged actionMap = None ->
      getLastNonConcurrencyAction logged actionMap = Throws TypeError)
  /\ (forall p,
        getLastAction logged actionMap = Some p ->
        (judgeConcurrency logged (Some p) = Throws TypeError ->
         getLastNonConcurrencyAction logged actionMap = Throws TypeError)
        /\ (judgeConcurrency logged (Some p) = Val true ->
            getLastAction logged p = None ->
            getLastNonConcurrencyAction logged actionMap = Throws TypeError))
  /\ (forall ancestor,
        getLastNonConcurrencyAction logged actionMap = Val ancestor ->
        exists p,
          getLastAction logged actionMap = Some p
          /\ (ActionMap.executed p = None ->
              sendEvent r w event now
              = {| world := logged; effects := [setTimeout 100];
                   completion := AwaitTimer k |})
          /\ (ActionMap.executed p <> None ->
              verdictOf logged k p (sendEvent r w event now)))
  /\ (keyed w -> ~ In 0 (JsMap.keys (actionMaps w)) -> now <> 0 ->
      getLastNonConcurrencyAction logged actionMap <> Loops)
  /\ (forall w' now',
        is_Some (heap w' !! self k) ->
        match getLastAction w' actionMap with
        | None =>
            afterTimeout w' k now'
            = {| world := w'; effects := []; completion := Threw TypeError |}
        | Some p' =>
            (ActionMap.executed p' = None -> now' - now <= 3000 ->
             afterTimeout w' k now'
             = {| world := w'; effects := [setTimeout 100];
                  completion := AwaitTimer k |})
            /\ (ActionMap.executed p' <> None \/ now' - now > 3000 ->
                verdictOf w' k p' (afterTimeout w' k now'))
        end)
  /\ (forall w' resp, sendActionConcurrency_settled w' resp = w').
Proof.
  intros aj actionMap logged k Hslow Hjudge.
  assert (Hfast : existsb (Z.eqb (ActionJson.type aj)) sideEffectFree = false).
  { change (ActionJson.type aj) with (ControlMessage.type event).
    apply existsb_eqb_not_In. exact Hslow. }
  split; [|split; [|split; [|split; [|split; [|split]]]]].
  - intros e Hwalk.
    assert (He : e = TypeError).
    { unfold getLastNonConcurrencyAction in Hwalk.
      apply (walkBack_throws_TypeError _ _ _ _ Hwalk). }
    subst e. split; [reflexivity|].
    assert (Hcall : sendEvent r w event now
                    = {| world := logged; effects := [];
                         completion := Threw TypeError |}).
    { unfold sendEvent. lazy zeta. fold aj. fold actionMap. fold logged.
      rewrite Hfast, Hjudge, Hwalk. reflexivity. }
    split; [exact Hcall|]. rewrite Hcall.
    unfold resolution, logged, logAction. simpl.
    rewrite list_lookup_middle by reflexivity. reflexivity.
  - intros Hnone. unfold getLastNonConcurrencyAction. rewrite Hnone.
    reflexivity.
  - intros p Hp. unfold getLastNonConcurrencyAction. rewrite Hp.
    assert (Hlog : exists n, length (actionMaps logged) = S n).
    { assert (Hin : In now (JsMap.keys (actionMaps logged)))
        by (unfold logged, logAction; simpl; rewrite JsMap_keys_set; auto).
      revert Hin. destruct (actionMaps logged) as [|entry l]; intros Hin;
        [contradiction|]. exists (length l). reflexivity. }
    destruct Hlog as [n ->]. split.
    + intros Hthrows. cbn [walkBack]. rewrite Hthrows. reflexivity.
    + intros Htrue Hnone. cbn [walkBack]. rewrite Htrue, Hnone. reflexivity.
  - intros ancestor Hwalk.
    destruct (getLastAction logged actionMap) as [p|] eqn:Hp;
      [|unfold getLastNonConcurrencyAction in Hwalk; rewrite Hp in Hwalk;
        simpl in Hwalk; discriminate].
    exists p. split; [reflexivity|].
    assert (Hcall : sendEvent r w event now
                    = match ActionMap.executed p with
                      | Some _ => concurrentVerdict logged k
                      | None => {| world := logged; effects := [setTimeout 100];
                                   completion := AwaitTimer k |}
                      end).
    { unfold sendEvent. lazy zeta. fold aj. fold actionMap. fold logged.
      rewrite Hfast, Hjudge, Hwalk, Hp. reflexivity. }
    split.
    + intros Hunset. rewrite Hcall, Hunset. reflexivity.
    + intros Hset. rewrite Hcall.
      destruct (ActionMap.executed p) as [b|] eqn:Hb; [|contradiction].
      apply concurrentVerdict_verdictOf; [exact Hp|].
      unfold logged, logAction. simpl.
      rewrite list_lookup_middle by reflexivity. eauto.
  - intros Hkeyed Hzero Hnow.
    apply getLastNonConcurrencyAction_ends.
    + apply keyed_logAction; [exact Hkeyed|reflexivity].
    + unfold logged, logAction. simpl. rewrite JsMap_keys_set. intuition.
    + unfold logged, logAction. simpl. rewrite JsMap_keys_set. auto.
  - intros w' now' Hown. unfold afterTimeout.
    change (newActionMap (action_json k)) with actionMap.
    destruct (getLastAction w' actionMap) as [p'|] eqn:Hp'; [|reflexivity].
    change (ActionJson.action_time (action_json k)) with now.
    unfold hasExecuted. split.
    + intros Hunset Hearly. rewrite Hunset.
      destruct (now' - now >? 3000) eqn:E; [|reflexivity].
      rewrite Z.gtb_ltb in E. apply Z.ltb_lt in E. lia.
    + intros Hstop.
      assert (Hv : verdictOf w' k p' (concurrentVerdict w' k))
        by (apply concurrentVerdict_verdictOf; assumption).
      destruct (now' - now >? 3000) eqn:E; [exact Hv|].
      destruct (ActionMap.executed p') as [b|]; [exact Hv|].
      destruct Hstop as [Hset|Hlate]; [contradiction|].
      rewrite Z.gtb_ltb in E. apply Z.ltb_ge in E. lia.
  - reflexivity.
Qed.

End ConcurrentProofs.

(** ** Runs of the handshake decoder and of the rest of the class *)
Module MoreExamples.
Import Sample MoreSample.

Lemma mainDisplay_wellFormed : wellFormedDisplay mainDisplay.
Proof.
  unfold wellFormedDisplay, isInt32, optionalRecord, byteLength.
  cbn [mainDisplay dr_bytes dr_info dr_connectionCount dr_screenBytes
       dr_screenInfo dr_videoBytes dr_videoSettings].
  split; [reflexivity|]. split; [reflexivity|].
  split; [lia|]. split; [simpl; lia|]. split; [simpl; lia|].
  split; reflexivity.
Qed.

Lemma secondDisplay_wellFormed : wellFormedDisplay secondDisplay.
Proof.
  unfold wellFormedDisplay, isInt32, optionalRecord, byteLength.
  cbn [secondDisplay dr_bytes dr_info dr_connectionCount dr_screenBytes
       dr_screenInfo dr_videoBytes dr_videoSettings].
  split; [reflexivity|]. split; [reflexivity|].
  split; [lia|]. split; [simpl; lia|]. split; [simpl; lia|].
  split; (split; [reflexivity|discriminate]).
Qed.

Lemma sample_wellFormed :
  wellFormedHandshake nameField [mainDisplay; secondDisplay] encoderNames 7.
Proof.
  unfold wellFormedHandshake, isInt32, byteLength. split; [reflexivity|].
  split; [simpl length; lia|]. split.
  - apply Forall_cons. split; [exact mainDisplay_wellFormed|].
    apply Forall_cons. split; [exact secondDisplay_wellFormed|apply Forall_nil].
    exact I.
  - split; [simpl length; lia|]. split; [|lia].
    unfold encoderNames.
    apply Forall_cons. split; [simpl length; lia|].
    apply Forall_cons. split; [simpl length; lia|apply Forall_nil]. exact I.
Qed.

Lemma sample_distinct_ids : NoDup (map displayIdOf [mainDisplay; secondDisplay]).
Proof.
  change (NoDup [0; 1]). apply NoDup_cons. split.
  - intros Hin. apply list_elem_of_In in Hin. simpl in Hin. lia.
  - apply NoDup_singleton.
Qed.

Lemma sample_distinct_names : NoDup (map utf8ByteArrayToString encoderNames).
Proof.
  change (NoDup ["h264"%string; "hevc"%string]). apply NoDup_cons. split.
  - intros Hin. apply list_elem_of_In in Hin. simpl in Hin.
    destruct Hin as [E|[]]. discriminate E.
  - apply NoDup_singleton.
Qed.

Lemma handshake_round_trip_witness :
  exists r',
    handleInitialInfo
      (layHandshake nameField [mainDisplay; secondDisplay] encoderNames 7 [])
      connectedReceiver
    = Normal tt r'
    /\ clientId r' = 7
    /\ getEncoders r' = ["h264"%string; "hevc"%string]
    /\ infoArray r' = [combinedOf mainDisplay; combinedOf secondDisplay].
Proof.
  destruct (handshake_round_trip nameField [mainDisplay; secondDisplay]
              encoderNames 7 [] connectedReceiver
              sample_wellFormed sample_distinct_ids sample_distinct_names)
    as (r' & Hrun & Hid & _ & _ & Henc & Hinfo & _).
  exists r'. split; [exact Hrun|]. split; [exact Hid|].
  split; [exact Henc|exact Hinfo].
Defined.

Lemma getDisplayInfo_after_handshake_witness :
  exists s,
    handleInitialInfo
      (layHandshake nameField [mainDisplay; secondDisplay] encoderNames 7 [])
      connectedReceiver
    = Normal tt s
    /\ getDisplayInfo s 1 = Some (displayRecord 1)
    /\ getDisplayInfo s 5 = None.
Proof.
  destruct (getDisplayInfo_after_handshake nameField [mainDisplay; secondDisplay]
              encoderNames 7 [] connectedReceiver sample_wellFormed)
    as (s & Hrun & Hget & _).
  exists s. split; [exact Hrun|]. split; rewrite Hget; reflexivity.
Defined.


Lemma handshake_is_never_forgotten_witness :
  hasInitialInfo connectedReceiver = true
  /\ hasInitialInfo (receiverRun connectedReceiver callsAfterHandshake) = true.
Proof.
  assert (Hflag : hasInitialInfo connectedReceiver = true) by reflexivity.
  split; [exact Hflag|].
  apply (handshake_is_never_forgotten connectedReceiver callsAfterHandshake Hflag).
Defined.

Lemma handshake_needs_90_bytes_witness :
  (length truncatedFrame < 90)%nat
  /\ exists e s, handleInitialInfo truncatedFrame connectedReceiver = Thrown e s
                 /\ emitted s = emitted connectedReceiver.
Proof.
  assert (Hshort : (length truncatedFrame < 90)%nat) by (simpl; lia).
  split; [exact Hshort|].
  destruct (handshake_needs_90_bytes truncatedFrame connectedReceiver Hshort)
    as (e & s & Hrun & Hev & _).
  exists e, s. split; [exact Hrun|exact Hev].
Defined.

Lemma getLastNonConcurrencyAction_witness :
  getLastNonConcurrencyAction twoKeyPresses
    (recordOf (key Android.KEY_ACTION_DOWN KEYCODE_A) 2010)
  = Val (Some (recordOf (key Android.KEY_ACTION_DOWN KEYCODE_A) 2000))
  /\ judgeConcurrency twoKeyPresses
       (Some (recordOf (key Android.KEY_ACTION_DOWN KEYCODE_A) 2000))
     = Val false.
Proof.
  assert (Hwalk : getLastNonConcurrencyAction twoKeyPresses
                    (recordOf (key Android.KEY_ACTION_DOWN KEYCODE_A) 2010)
                  = Val (Some (recordOf (key Android.KEY_ACTION_DOWN KEYCODE_A)
                                 2000))) by reflexivity.
  split; [exact Hwalk|].
  destruct (getLastNonConcurrencyAction_result twoKeyPresses _ _ Hwalk)
    as (a & Ha & Hj & _).
  injection Ha as <-. exact Hj.
Defined.

Lemma nothing_is_written_after_stop_witness :
  Forall notOpening [callSendEvent connectedReceiver backOrScreenOn 5000]
  /\ forall e,
       ~ In (ws_send e)
           (runTasksEffects (stopped openMachine)
              [callSendEvent connectedReceiver backOrScreenOn 5000]).
Proof.
  assert (Hts : Forall notOpening
                  [callSendEvent connectedReceiver backOrScreenOn 5000]).
  { apply Forall_cons. split; [exact I|apply Forall_nil; exact I]. }
  split; [exact Hts|].
  apply (nothing_is_written_after_stop openMachine _ Hts).
Defined.

Lemma open_socket_never_queues_witness :
  wsOpen (controller openMachine) = true
  /\ wsOpen (controller
               (runTasks openMachine
                  [callSendEvent connectedReceiver backOrScreenOn 1000]))
     = true.
Proof.
  assert (Hopen : wsOpen (controller openMachine) = true) by reflexivity.
  assert (Hts : Forall notClosing
                  [callSendEvent connectedReceiver backOrScreenOn 1000]).
  { apply Forall_cons. split; [exact I|apply Forall_nil; exact I]. }
  split; [exact Hopen|].
  apply (open_socket_never_queues openMachine _ Hopen Hts).
Defined.

Lemma onSocketOpen_replays_the_queue_witness :
  events (controller (runTasks newMachine queuedThenOpen)) = [backOrScreenOn]
  /\ events
       (controller
          (runTasks (runTasks newMachine queuedThenOpen)
             (replayTasks (stateOf (emit connected connectedReceiver))
                replayClock 1)))
     = [].
Proof.
  assert (Hts : Forall clockNotZero queuedThenOpen).
  { apply Forall_cons. split; [discriminate|].
    apply Forall_cons. split; [exact I|apply Forall_nil; exact I]. }
  assert (Hclock : forall i, replayClock i <> 0) by (intros i; unfold replayClock; lia).
  assert (Hopen : wsOpen (controller (runTasks newMachine queuedThenOpen)) = true)
    by reflexivity.
  split; [reflexivity|].
  apply (onSocketOpen_replays_the_queue queuedThenOpen connectedReceiver
           replayClock Hts Hclock Hopen).
Defined.


(** The handshake with two displays and two encoders, cut at any length,
    fails. *)
Lemma sample_handshake_cut_short_fails (k : nat) :
  (k < length (layHandshake nameField [mainDisplay; secondDisplay]
                 encoderNames 7 []))%nat ->
  threw (handleInitialInfo
           (firstn k (layHandshake nameField [mainDisplay; secondDisplay]
                        encoderNames 7 []))
           connectedReceiver) = true.
Proof. apply handleInitialInfo_truncated. exact sample_wellFormed. Qed.

(** *** The concurrent path *)

(** A touch move logged 10 ms after a touch down that is still waiting for
    its authorization: the call parks on the timer; a poll 2950 ms after the
    move was logged, the touch down still unset, parks again; a poll at
    3050 ms ends the command.  It is then dropped if the touch down is still
    unset, and forwarded if the touch down was allowed in the meantime, here
    3040 ms after the move was logged. *)
Lemma concurrent_command_polls_witness :
  ~ In (ControlMessage.type (touch Android.MOTION_ACTION_MOVE)) sideEffectFree
  /\ judgeConcurrency
       (logAction (world downParked)
          (recordOf (touch Android.MOTION_ACTION_MOVE) 2010) 2010)
       (Some (recordOf (touch Android.MOTION_ACTION_MOVE) 2010)) = Val true
  /\ sendEvent connectedReceiver (world downParked)
       (touch Android.MOTION_ACTION_MOVE) 2010
     = {| world := logAction (world downParked)
                     (recordOf (touch Android.MOTION_ACTION_MOVE) 2010) 2010;
          effects := [setTimeout 100];
          completion := AwaitTimer moveLocals |}
  /\ afterTimeout (world moveParked) moveLocals 4960
     = {| world := world moveParked; effects := [setTimeout 100];
          completion := AwaitTimer moveLocals |}
  /\ verdictOf (world moveParked) moveLocals
       (recordOf (touch Android.MOTION_ACTION_DOWN) 2000)
       (afterTimeout (world moveParked) moveLocals 5060)
  /\ resolution (afterTimeout (world moveParked) moveLocals 5060) 2
     = Some (Some false)
  /\ verdictOf (world downAllowedLate) moveLocals
       (ActionMap.setExecuted true
          (recordOf (touch Android.MOTION_ACTION_DOWN) 2000))
       (afterTimeout (world downAllowedLate) moveLocals 5060)
  /\ resolution (afterTimeout (world downAllowedLate) moveLocals 5060) 2
     = Some (Some true).
Proof.
  assert (Hslow : ~ In (ControlMessage.type (touch Android.MOTION_ACTION_MOVE))
                    sideEffectFree) by (simpl; intuition discriminate).
  assert (Hjudge : judgeConcurrency
                     (logAction (world downParked)
                        (recordOf (touch Android.MOTION_ACTION_MOVE) 2010) 2010)
                     (Some (recordOf (touch Android.MOTION_ACTION_MOVE) 2010))
                   = Val true) by reflexivity.
  split; [exact Hslow|split; [exact Hjudge|]].
  pose proof (concurrent_command_follows_predecessor connectedReceiver
                (world downParked) (touch Android.MOTION_ACTION_MOVE) 2010
                Hslow Hjudge) as Hcommand.
  lazy zeta in Hcommand.
  destruct Hcommand as (_ & _ & _ & Hcall & _ & Hpoll & _).
  destruct (Hcall (Some (recordOf (touch Android.MOTION_ACTION_DOWN) 2000))
              eq_refl) as (p & Hp & Hpark & _).
  assert (Hunset : ActionMap.executed p = None).
  { vm_compute in Hp. injection Hp as <-. reflexivity. }
  split; [exact (Hpark Hunset)|].
  assert (Hown : is_Some (heap (world moveParked) !! 2%nat))
    by (vm_compute; eauto).
  assert (Hown' : is_Some (heap (world downAllowedLate) !! 2%nat))
    by (vm_compute; eauto).
  pose proof (Hpoll (world moveParked) 4960 Hown) as Hearly.
  pose proof (Hpoll (world moveParked) 5060 Hown) as Hlate.
  pose proof (Hpoll (world downAllowedLate) 5060 Hown') as Hallowed.
  change (getLastAction (world moveParked)
            (newActionMap
               (make_action_json connectedReceiver
                  (touch Android.MOTION_ACTION_MOVE) 2010)))
    with (Some (recordOf (touch Android.MOTION_ACTION_DOWN) 2000))
    in Hearly, Hlate.
  change (getLastAction (world downAllowedLate)
            (newActionMap
               (make_action_json connectedReceiver
                  (touch Android.MOTION_ACTION_MOVE) 2010)))
    with (Some (ActionMap.setExecuted true
                  (recordOf (touch Android.MOTION_ACTION_DOWN) 2000)))
    in Hallowed.
  cbv iota in Hearly, Hlate, Hallowed.
  destruct Hearly as [Hearly _]. destruct Hlate as [_ Hlate].
  destruct Hallowed as [_ Hallowed].
  split; [apply Hearly; [reflexivity|lia]|].
  assert (Hdropped : verdictOf (world moveParked) moveLocals
                       (recordOf (touch Android.MOTION_ACTION_DOWN) 2000)
                       (afterTimeout (world moveParked) moveLocals 5060))
    by (apply Hlate; right; lia).
  assert (Hforwarded : verdictOf (world downAllowedLate) moveLocals
                         (ActionMap.setExecuted true
                            (recordOf (touch Android.MOTION_ACTION_DOWN) 2000))
                         (afterTimeout (world downAllowedLate) moveLocals 5060))
    by (apply Hallowed; right; lia).
  split; [exact Hdropped|split; [|split; [exact Hforwarded|]]].
  - destruct Hdropped as (_ & _ & _ & _ & _ & Hverdict).
    destruct Hverdict as (_ & _ & Hmark). exact Hmark.
  - destruct Hforwarded as (_ & _ & _ & _ & _ & Hverdict).
    destruct Hverdict as (_ & _ & Hmark). exact Hmark.
Defined.

(** C5, the code at an input the claim is wrong about: the first command of
    a session is the press of the key A, on which [sendEvent] throws; the
    release of the key, 100 ms later, is classified concurrent.  The walk
    back to the start of its run looks for the predecessor of the key press,
    finds none and throws: [sendEvent] throws a [TypeError] before it polls
    anything, and the record of the release stays unset, neither forwarded
    nor marked [false]. *)
Theorem release_after_first_press_throws :
  completion firstPress = Threw TypeError
  /\ judgeConcurrency (world releaseAfterFirstPress)
       (Some (recordOf (key Android.KEY_ACTION_UP KEYCODE_A) 1100)) = Val true
  /\ completion releaseAfterFirstPress = Threw TypeError
  /\ effects releaseAfterFirstPress = []
  /\ events (world releaseAfterFirstPress) = []
  /\ resolution releaseAfterFirstPress 1 = Some None.
Proof.
  repeat split; reflexivity.
Qed.

End MoreExamples.
